(** * Yahoozy: scoring rules, score sheets, the menu, the turn loop and the
    history file

    A shallow embedding of [yahoozy.py].  Python integers are [Z], a [str]
    is a [string] (characters of the first 256 code points), a [dict] is a
    [gmap], a [list] or [tuple] is a [list].  Every assignment that the
    key handlers perform is kept.  The curses rendering of the screen only
    reads the state; of the frame that [game_loop] draws in front of every
    key, the exceptions that depend on the state are kept ([draw_frame]),
    and what curses itself may refuse, such as text that does not fit the
    window, is left out. *)

From Stdlib Require Import ZArith List Lia Bool Ascii String Sorted Permutation.
From Stdlib Require Import DecimalString DecimalZ Strings.Byte.
From stdpp Require Import base decidable option list gmap strings sorting.
From Equations Require Import Equations.
Import ListNotations.
Local Open Scope Z_scope.

(** ** Categories *)

(** [class Category(StrEnum)], in declaration order. *)
Inductive Category :=
  | ONES | TWOS | THREES | FOURS | FIVES | SIXES
  | ONE_PAIR | TWO_PAIRS | TOAK | FOAK
  | SSTRAIGHT | LSTRAIGHT | FHOUSE | CHANCE | YATZY.

Global Instance Category_eq_dec : EqDecision Category.
Proof. solve_decision. Defined.

(** [list(Category)]: iterating the enumeration yields its members in
    declaration order. *)
Definition Category_members : list Category :=
  [ONES; TWOS; THREES; FOURS; FIVES; SIXES;
   ONE_PAIR; TWO_PAIRS; TOAK; FOAK;
   SSTRAIGHT; LSTRAIGHT; FHOUSE; CHANCE; YATZY].

(** [len(Category)] *)
Definition len_Category : Z := Z.of_nat (length Category_members).

Definition Category_index (c : Category) : nat :=
  match c with
  | ONES => 0 | TWOS => 1 | THREES => 2 | FOURS => 3 | FIVES => 4
  | SIXES => 5 | ONE_PAIR => 6 | TWO_PAIRS => 7 | TOAK => 8 | FOAK => 9
  | SSTRAIGHT => 10 | LSTRAIGHT => 11 | FHOUSE => 12 | CHANCE => 13
  | YATZY => 14
  end%nat.

Global Instance Category_countable : Countable Category :=
  inj_countable' Category_index
    (λ n, default YATZY (Category_members !! n))
    ltac:(intros []; reflexivity).

(** ** Scoring: [Category.compute] *)

(** [dice.count(x)] *)
Definition count (x : Z) (dice : list Z) : Z :=
  Z.of_nat (length (filter (λ d, d = x) dice)).

(** [sum(dice)] *)
Definition sum (dice : list Z) : Z := foldr Z.add 0 dice.

(** [range(6, 0, -1)] *)
Definition range_6_0 : list Z := [6; 5; 4; 3; 2; 1].

(** A generator expression [(x for x in range(6, 0, -1) if P(dice.count(x)))]
    is the list of the values it has yet to yield. *)
Definition faces_where (P : Z → Prop) `{∀ n, Decision (P n)}
    (dice : list Z) : list Z :=
  filter (λ x, P (count x dice)) range_6_0.

(** [next(g)]: [None] stands for the [StopIteration] of an exhausted
    generator, otherwise the value and the advanced generator. *)
Definition next (g : list Z) : option (Z * list Z) :=
  match g with
  | [] => None
  | x :: g' => Some (x, g')
  end.

(** [try: return e / except StopIteration: return 0] *)
Definition except_StopIteration (body : option Z) : Z :=
  match body with
  | Some v => v
  | None => 0
  end.

(** [set(dice)] *)
Definition set_of (dice : list Z) : gset Z := list_to_set dice.

Definition compute (self : Category) (dice : list Z) : Z :=
  match self with
  | ONES => count 1 dice
  | TWOS => count 2 dice * 2
  | THREES => count 3 dice * 3
  | FOURS => count 4 dice * 4
  | FIVES => count 5 dice * 5
  | SIXES => count 6 dice * 6
  | ONE_PAIR =>
      let g := faces_where (λ n, n >= 2) dice in
      except_StopIteration ('(a, _) ← next g; Some (a * 2))
  | TWO_PAIRS =>
      let g := faces_where (λ n, n >= 2) dice in
      except_StopIteration
        ('(a, g) ← next g; '(b, _) ← next g; Some ((a + b) * 2))
  | TOAK =>
      let g := faces_where (λ n, n >= 3) dice in
      except_StopIteration ('(a, _) ← next g; Some (a * 3))
  | FOAK =>
      let g := faces_where (λ n, n >= 4) dice in
      except_StopIteration ('(a, _) ← next g; Some (a * 4))
  | SSTRAIGHT =>
      if bool_decide (set_of dice = {[1; 2; 3; 4; 5]}) then 15 else 0
  | LSTRAIGHT =>
      if bool_decide (set_of dice = {[2; 3; 4; 5; 6]}) then 20 else 0
  | FHOUSE =>
      let g1 := faces_where (λ n, n = 2) dice in
      let g2 := faces_where (λ n, n = 3) dice in
      match ('(_, _) ← next g1; '(_, _) ← next g2; Some tt) with
      | None => 0
      | Some _ => sum dice
      end
  | CHANCE => sum dice
  | YATZY => if bool_decide (size (set_of dice) = 1%nat) then 50 else 0
  end.

(** A [Roll] of the game: five dice, each showing a face from 1 to 6. *)
Definition is_roll (dice : list Z) : Prop :=
  length dice = 5%nat ∧ Forall (λ d, 1 <= d <= 6) dice.

(** ** Score sheets: [class ScoreSheet(UserDict)] *)

(** A score sheet is a dictionary from categories to points. *)
Abbreviation ScoreSheet := (gmap Category Z).

Definition UPPER_SECTION : list Category :=
  [ONES; TWOS; THREES; FOURS; FIVES; SIXES].

(** [[c for c in Category if c not in UPPER_SECTION]] *)
Definition LOWER_SECTION : list Category :=
  filter (λ c, c ∉ UPPER_SECTION) Category_members.

(** [self.get(c, d)] *)
Definition get (self : ScoreSheet) (c : Category) (d : Z) : Z :=
  default d (self !! c).

Definition total (self : ScoreSheet) : Z :=
  let lower := sum ((λ c, get self c 0) <$> LOWER_SECTION) in
  let upper := sum ((λ c, get self c 0) <$> UPPER_SECTION) in
  let bonus := if decide (upper >= 63) then 50 else 0 in
  lower + upper + bonus.

(** [ScoreSheet.__lt__] *)
Definition ScoreSheet_lt (self other : ScoreSheet) : bool :=
  bool_decide (total self < total other).

(** [self[category] = points], the [__setitem__] that [UserDict] provides:
    the only way the program writes to a sheet.  It cannot fail. *)
Definition setitem (self : ScoreSheet) (category : Category) (points : Z)
    : ScoreSheet :=
  <[category := points]> self.

Record Player := mkPlayer { name : string; ss : ScoreSheet }.

(** ** The running tally: [sorted(players, key=lambda x: x.ss,
    reverse=True)] *)

Section sorted.
Context {A : Type} (lt : A → A → bool).

(** One element put into a list in descending order: in front of the
    first element that is less, so behind those that are not. *)
Fixpoint insert_reverse (x : A) (l : list A) : list A :=
  match l with
  | [] => [x]
  | y :: l' => if lt y x then x :: l else y :: insert_reverse x l'
  end.

(** [sorted(l, reverse=True)]: the sort of Python compares with [<] only
    and is stable, also in reverse: elements of which neither is less
    than the other keep their order. *)
Definition sorted_reverse (l : list A) : list A :=
  foldl (λ acc x, insert_reverse x acc) [] l.
End sorted.

(** The players in the order of the running tally and of the final
    results; [x.ss] is compared by [ScoreSheet.__lt__]. *)
Definition tally (players : list Player) : list Player :=
  sorted_reverse (λ p q, ScoreSheet_lt (ss p) (ss q)) players.

(** ** Exceptions *)

(** The exceptions that the code modelled here can raise.
    [UnicodeEncodeError] and [UnicodeDecodeError] are subclasses of
    [ValueError] in Python; the program catches none of them. *)
Inductive exn :=
  | IndexError | ValueError | UnboundLocalError
  | UnicodeEncodeError | UnicodeDecodeError.

Inductive result (A : Type) :=
  | Ok (a : A)
  | Raise (e : exn).
Arguments Ok {A} a.
Arguments Raise {A} e.

Global Instance result_ret : MRet result := λ A a, Ok a.

Global Instance result_bind : MBind result := λ A B k m,
  match m with
  | Ok a => k a
  | Raise e => Raise e
  end.

(** [l[i]] for a Python integer [i]: a negative index counts from the end,
    an index outside the list raises [IndexError]. *)
Definition getitem {A} (l : list A) (i : Z) : result A :=
  let j := if decide (i < 0) then i + Z.of_nat (length l) else i in
  if decide (0 <= j) then
    match l !! Z.to_nat j with
    | Some x => Ok x
    | None => Raise IndexError
    end
  else Raise IndexError.

(** [l[i] = x] *)
Definition setitem_list {A} (l : list A) (i : Z) (x : A) : result (list A) :=
  let j := if decide (i < 0) then i + Z.of_nat (length l) else i in
  if decide (0 <= j < Z.of_nat (length l)) then Ok (<[Z.to_nat j := x]> l)
  else Raise IndexError.

(** [l.index(x)]: the position of the first occurrence, or [ValueError]. *)
Fixpoint index_of (l : list Z) (x : Z) : result Z :=
  match l with
  | [] => Raise ValueError
  | y :: l' =>
      if decide (y = x) then Ok 0
      else i ← index_of l' x; Ok (i + 1)
  end.

(** ** Integers as text *)

(** The number of decimal digits of [n]. *)
Definition str_digits (n : Z) : nat :=
  match Z.to_int n with
  | Decimal.Pos u | Decimal.Neg u => Decimal.nb_digits u
  end.

(** [sys.get_int_max_str_digits()] *)
Definition int_max_str_digits : nat := 4300.

(** The decimal text of [n]. *)
Definition decimal (n : Z) : string :=
  NilZero.string_of_int (Z.to_int n).

(** ["%d" % n], [str(n)] and, up to padding, [f"{n:3d}"]: the decimal
    text of [n].  An integer of more than [int_max_str_digits] digits
    raises [ValueError]. *)
Definition format_d (n : Z) : result string :=
  if decide (str_digits n <= int_max_str_digits)%nat then Ok (decimal n)
  else Raise ValueError.

(** ** The random source *)

(** The process-wide generator of [random]: an unbounded supply of raw
    numbers and the count of those already used. *)
Record RNG := mkRNG { supply : nat → Z; used : nat }.

(** [random.randint(a, b)]: an integer [N] with [a <= N <= b], decided by
    the next raw number. *)
Definition randint (a b : Z) (g : RNG) : Z * RNG :=
  (a + supply g (used g) `mod` (b - a + 1),
   {| supply := supply g; used := S (used g) |}).

(** [[random.randint(1, 6) for _ in range(n)]] *)
Fixpoint randints (n : nat) (g : RNG) : list Z * RNG :=
  match n with
  | O => ([], g)
  | S n' =>
      let '(d, g) := randint 1 6 g in
      let '(ds, g) := randints n' g in
      (d :: ds, g)
  end.

(** ** Dice: [class DiceState] *)

(** [rollmsk] is a bitmask with one bit per die of [dice]; a set bit means
    that the die is selected for rerolling. *)
Record DiceState := mkDiceState { dice : list Z; rollmsk : Z; rolls : Z }.

(** [DiceState.__init__] *)
Definition DiceState_init (g : RNG) : DiceState * RNG :=
  let '(d, g) := randints 5 g in
  ({| dice := d; rollmsk := 0; rolls := 2 |}, g).

(** [int.bit_length]: the number of bits of the absolute value. *)
Definition bit_length (x : Z) : Z :=
  if decide (x = 0) then 0 else Z.log2 (Z.abs x) + 1.

(** Keeps the equation of a case analysis in the context. *)
Definition inspect {A : Type} (x : A) : { y : A | x = y } := exist _ x eq_refl.

(** What the loop of [reroll_dice] decreases.  A mask that is not negative
    loses its highest bit; a negative mask first moves towards the next
    [- 2 ^ k] and from there its highest bit climbs until it leaves [dice]. *)
Definition reroll_measure (len : nat) (m : Z) : nat :=
  if decide (0 <= m) then Z.to_nat m
  else if decide (- m = 2 ^ Z.log2 (- m))
       then (len - Z.to_nat (Z.log2 (- m)))%nat
       else (len + 1 + Z.to_nat (- m))%nat.

(** One pass through the body of the loop of [reroll_dice]:
    [n = self.rollmsk.bit_length() - 1],
    [self.dice[n] = random.randint(1, 6)], [self.rollmsk ^= 1 << n]. *)
Definition reroll_pass (self : DiceState) (g : RNG)
    : result (DiceState * RNG) :=
  let n := bit_length (rollmsk self) - 1 in
  let '(v, g) := randint 1 6 g in
  d ← setitem_list (dice self) n v;
  Ok (mkDiceState d (Z.lxor (rollmsk self) (Z.shiftl 1 n)) (rolls self), g).

(** The [while self.rollmsk != 0] loop of [reroll_dice]. *)
Equations? reroll_loop (self : DiceState) (g : RNG)
    : result (DiceState * RNG)
    by wf (reroll_measure (length (dice self)) (rollmsk self)) lt :=
  reroll_loop self g with decide (rollmsk self = 0) := {
    | left _ => Ok (self, g)
    | right _ with inspect (reroll_pass self g) := {
        | exist _ (Raise e) _ => Raise e
        | exist _ (Ok (self', g')) Hpass => reroll_loop self' g' } }.
Proof.
  clear reroll_loop. destruct self as [dc m r].
  unfold reroll_pass, setitem_list in Hpass. simpl in *.
  assert (Hb : 0 <= bit_length m - 1).
  { unfold bit_length. destruct (decide (m = 0)); [done|].
    pose proof (Z.log2_nonneg (Z.abs m)). lia. }
  destruct (decide (bit_length m - 1 < 0)); [lia|].
  destruct (decide (0 <= bit_length m - 1 < Z.of_nat (length dc))) as [Hin|];
    [|discriminate].
  injection Hpass as <- _. simpl. rewrite length_insert.
  revert Hb Hin. unfold bit_length. destruct (decide (m = 0)) as [|_]; [done|].
  replace (Z.log2 (Z.abs m) + 1 - 1) with (Z.log2 (Z.abs m)) by lia.
  intros Hb Hin. rewrite Z.shiftl_1_l.
  assert (Hset : ∀ a k, 0 <= k → Z.testbit a k = true →
            Z.lxor a (2 ^ k) = a - 2 ^ k).
  { intros a k Hk Ha.
    assert (Z.land (Z.lxor a (2 ^ k)) (2 ^ k) = 0) as H.
    { apply Z.bits_inj'. intros j Hj.
      rewrite Z.land_spec, Z.lxor_spec, Z.bits_0.
      destruct (decide (j = k)) as [->|].
      - rewrite Ha, Z.pow2_bits_true by lia. reflexivity.
      - rewrite Z.pow2_bits_false by lia. apply andb_false_r. }
    apply Z.add_nocarry_lxor in H.
    rewrite Z.lxor_assoc, Z.lxor_nilpotent, Z.lxor_0_r in H. lia. }
  assert (Hclr : ∀ a k, 0 <= k → Z.testbit a k = false →
            Z.lxor a (2 ^ k) = a + 2 ^ k).
  { intros a k Hk Ha. symmetry. apply Z.add_nocarry_lxor.
    apply Z.bits_inj'. intros j Hj. rewrite Z.land_spec, Z.bits_0.
    destruct (decide (j = k)) as [->|].
    - rewrite Ha. reflexivity.
    - rewrite Z.pow2_bits_false by lia. apply andb_false_r. }
  destruct (Z.lt_trichotomy m 0) as [Hneg|[?|Hpos]]; [|done|].
  - rewrite Z.abs_neq in * by lia.
    set (k := Z.log2 (- m)) in *.
    destruct (Z.log2_spec (- m)) as [Hlo Hhi]; [lia|]. fold k in Hlo, Hhi.
    rewrite Z.pow_succ_r in Hhi by lia.
    assert (H2k : 0 < 2 ^ k) by (apply Z.pow_pos_nonneg; lia).
    assert (Hbit : Z.testbit m k = negb (Z.testbit (- m - 1) k)).
    { replace m with (- (- m)) at 1 by lia. rewrite Z.bits_opp by lia.
      f_equal. }
    destruct (decide (- m = 2 ^ k)) as [Hp|Hnp].
    + assert (Z.testbit m k = true) as Hk.
      { rewrite Hbit. replace (- m - 1) with (Z.pred (2 ^ k)) by lia.
        rewrite <- Z.ones_equiv, Z.ones_spec_high by lia. reflexivity. }
      rewrite Hset by first [lia | assumption].
      unfold reroll_measure.
      destruct (decide (0 <= m - 2 ^ k)); [lia|].
      destruct (decide (0 <= m)); [lia|].
      replace (- (m - 2 ^ k)) with (2 ^ (Z.succ k))
        by (rewrite Z.pow_succ_r by lia; lia).
      rewrite Z.log2_pow2 by lia.
      destruct (decide (2 ^ Z.succ k = 2 ^ Z.succ k)); [|done].
      fold k. destruct (decide (- m = 2 ^ k)); [|done]. lia.
    + assert (Z.testbit m k = false) as Hk.
      { rewrite Hbit. apply negb_false_iff.
        replace k with (Z.log2 (- m - 1)); [apply Z.bit_log2; lia|].
        apply Z.log2_unique; [lia | rewrite Z.pow_succ_r by lia; lia]. }
      rewrite Hclr by first [lia | assumption].
      unfold reroll_measure. fold k.
      destruct (decide (0 <= m + 2 ^ k)); [lia|].
      destruct (decide (0 <= m)); [lia|].
      destruct (decide (- m = 2 ^ k)); [done|].
      destruct (decide (- (m + 2 ^ k) = 2 ^ Z.log2 (- (m + 2 ^ k)))); lia.
  - rewrite Z.abs_eq in * by lia.
    set (k := Z.log2 m) in *.
    destruct (Z.log2_spec m) as [Hlo Hhi]; [lia|]. fold k in Hlo, Hhi.
    assert (H2k : 0 < 2 ^ k) by (apply Z.pow_pos_nonneg; lia).
    rewrite Hset by first [lia | apply Z.bit_log2; lia].
    unfold reroll_measure.
    destruct (decide (0 <= m - 2 ^ k)); [|lia].
    destruct (decide (0 <= m)); [|lia]. lia.
Qed.

(** [DiceState.reroll_dice]: reroll the dice according to the reroll mask,
    then [self.rolls -= 1]. *)
Definition reroll_dice (self : DiceState) (g : RNG)
    : result (DiceState * RNG) :=
  '(self, g) ← reroll_loop self g;
  Ok (mkDiceState (dice self) (rollmsk self) (rolls self - 1), g).

(** ** The game loop: [game_loop] *)

Definition BTNAP : Z := -1.
Definition BTNSG : Z := -2.
Definition BTNAPP : Z := -3.
Definition BTNRP : Z := -4.
Definition BTNRR : Z := -5.
Definition BTNKA : Z := -6.
Definition BTNSC : Z := -7.

(** [class RenderState]; of the help panel [hp] only the diagnostic
    message [hp.diag] is state. *)
Record RenderState := mkRenderState { sel : Z; togl : Z; diag : string }.

(** What [body_win.get_wch()] returns: a character, or the code of a
    function key. *)
Inductive Key :=
  | Ch (c : ascii)
  | KEY_UP | KEY_DOWN | KEY_LEFT | KEY_RIGHT
  | KEY_other.

Global Instance Key_eq_dec : EqDecision Key.
Proof. solve_decision. Defined.

Definition ctrl_A : Key := Ch "001".
Definition ctrl_K : Key := Ch "011".
Definition ctrl_Q : Key := Ch "017".
Definition ctrl_R : Key := Ch "018".
Definition ctrl_S : Key := Ch "019".
Definition newline : Key := Ch "010".

(** The variables of [game_loop] together with the globals it uses.
    [players] is the global roster, which holds the [Player] objects;
    [cursor] is the position of [playergen = itertools.cycle(players)], so
    that the local [player] is the object at [players[cursor]] and an
    assignment to [player.ss] is seen through [players] as well. *)
Record Game := mkGame {
  players : list Player;
  cursor : nat;
  ds : DiceState;
  rs : RenderState;
  picking_cat : bool;
  rng : RNG
}.

(** The object that the local variable [player] refers to. *)
Definition player (G : Game) : Player :=
  default (mkPlayer EmptyString ∅) (players G !! cursor G).

(** [player.ss[cat] = points] *)
Definition score (G : Game) (cat : Category) (points : Z) : list Player :=
  alter (λ p, mkPlayer (name p) (setitem (ss p) cat points))
    (cursor G) (players G).

(** [player = next(playergen)] *)
Definition next_cursor (G : Game) : nat :=
  (S (cursor G) `mod` length (players G))%nat.

(** [enumerate(l)] *)
Definition enumerate {A} (l : list A) : list (Z * A) :=
  imap (λ i x, (Z.of_nat i, x)) l.

(** [[len(Category) - i - 1 for i, cat in enumerate(Category)
      if cat not in player.ss]] *)
Definition can_select (sheet : ScoreSheet) : list Z :=
  (λ ic, len_Category - ic.1 - 1) <$>
    filter (λ ic, sheet !! ic.2 = None) (enumerate Category_members).

Definition with_rs (G : Game) (r : RenderState) : Game :=
  mkGame (players G) (cursor G) (ds G) r (picking_cat G) (rng G).

Definition with_sel (G : Game) (s : Z) : Game :=
  with_rs G (mkRenderState s (togl (rs G)) (diag (rs G))).

Definition with_togl (G : Game) (t : Z) : Game :=
  with_rs G (mkRenderState (sel (rs G)) t (diag (rs G))).

Definition with_diag (G : Game) (d : string) : Game :=
  with_rs G (mkRenderState (sel (rs G)) (togl (rs G)) d).

Definition with_rollmsk (G : Game) (m : Z) : Game :=
  mkGame (players G) (cursor G)
    (mkDiceState (dice (ds G)) m (rolls (ds G)))
    (rs G) (picking_cat G) (rng G).

(** How one pass through the [while True] loop of [game_loop] ends. *)
Inductive Outcome :=
  | Continue (G : Game)   (** the loop goes round again *)
  | GameEnd (G : Game)    (** [return game_end(rs, body_win)] *)
  | Exit                  (** [sys.exit(0)] *)
  | Crash (e : exn).      (** an exception leaves [game_loop] *)

(** The [^S] or Enter-on-[Select Category] branch. *)
Definition confirm_category (G : Game) : Outcome :=
  if decide (togl (rs G) = -1) then
    Continue (with_diag G "No category selected")
  else
    match getitem Category_members (togl (rs G)) with
    | Raise e => Crash e
    | Ok cat =>
        let ps := score G cat (compute cat (dice (ds G))) in
        let '(d, g) := DiceState_init (rng G) in
        let G' := mkGame ps (next_cursor G) d
                    (mkRenderState BTNRR (togl (rs G)) EmptyString) false g in
        if decide (cursor G' = 0%nat
                   ∧ Z.of_nat (size (ss (player G'))) = len_Category)
        then GameEnd G'
        else Continue G'
    end.

(** The [KEY_UP]/[KEY_DOWN] branch while picking a category: the cases of
    [match k], in their order. *)
Definition move_category (k : Key) (G : Game) : result Game :=
  let cs := can_select (ss (player G)) in
  let s := sel (rs G) in
  if decide (k = KEY_UP ∧ s = BTNSC) then
    s' ← getitem cs (-1); Ok (with_sel G s')
  else if decide (k = KEY_UP) then
    i ← index_of cs s; s' ← getitem cs (i - 1); Ok (with_sel G s')
  else if decide (k = KEY_DOWN) then
    last ← getitem cs (-1);
    if decide (s = last) then Ok (with_sel G BTNSC)
    else if decide (s ≠ BTNSC) then
      i ← index_of cs s; s' ← getitem cs (i + 1); Ok (with_sel G s')
    else Ok G
  else Ok G.

(** The [^R] or Enter-on-[Reroll] branch. *)
Definition reroll (G : Game) : Outcome :=
  if decide (rolls (ds G) = 0) then
    Continue (with_diag G "No more rolls remaining")
  else if decide (rollmsk (ds G) = 0) then
    Continue (with_diag G "No dice selected to reroll")
  else
    match reroll_dice (ds G) (rng G) with
    | Raise e => Crash e
    | Ok (d, g) =>
        Continue (mkGame (players G) (cursor G) d (rs G) (picking_cat G) g)
    end.

(** The arrow keys while rolling. *)
Definition move_dice (k : Key) (G : Game) : Game :=
  let s := sel (rs G) in
  match k with
  | KEY_UP =>
      if decide (s = BTNRR) then with_sel G 0
      else if decide (s = BTNKA) then with_sel G 4
      else G
  | KEY_DOWN => if decide (s >= 0) then with_sel G BTNRR else G
  | KEY_LEFT =>
      if decide (s = BTNKA) then with_sel G BTNRR
      else if decide (s > 0) then with_sel G (s - 1)
      else G
  | KEY_RIGHT =>
      if decide (s = BTNRR) then with_sel G BTNKA
      else if decide (0 <= s < 4) then with_sel G (s + 1)
      else G
  | _ => G
  end.

(** One pass through the loop body of [game_loop], from the key read by
    [get_wch] on.  In the category picker the second
    [elif k == curses.KEY_DOWN] stands behind
    [elif k == curses.KEY_UP or k == curses.KEY_DOWN] and is never taken,
    so it has no branch here. *)
Definition game_loop_step (k : Key) (G : Game) : Outcome :=
  let s := sel (rs G) in
  if decide (k = ctrl_Q) then Exit
  else if picking_cat G then
    if decide (k = ctrl_S ∨ (k = newline ∧ s = BTNSC)) then
      confirm_category G
    else if decide (k = newline ∧ s >= 0) then
      Continue (with_togl G (len_Category - s - 1))
    else if decide (k = KEY_UP ∨ k = KEY_DOWN) then
      match move_category k G with
      | Ok G' => Continue G'
      | Raise e => Crash e
      end
    else Continue G
  else
    if decide (k = ctrl_A) then Continue (with_rollmsk G 31)
    else if decide (k = ctrl_K ∨ (k = newline ∧ s = BTNKA)) then
      Continue (mkGame (players G) (cursor G) (ds G)
                  (mkRenderState BTNSC (-1) EmptyString) true (rng G))
    else if decide (k = ctrl_R ∨ (k = newline ∧ s = BTNRR)) then
      reroll G
    else if decide (k = newline ∧ s >= 0) then
      Continue (with_rollmsk G (Z.lxor (rollmsk (ds G)) (Z.shiftl 1 s)))
    else Continue (move_dice k G).

(** The state in which [game_loop] enters its loop: fresh dice, the first
    player, the [Reroll] button selected. *)
Definition game_start (ps : list Player) (r : RenderState) (g : RNG) : Game :=
  let '(d, g) := DiceState_init g in
  mkGame ps 0 d (mkRenderState BTNRR (togl r) (diag r)) false g.

(** The six pictures of [DICE_ART], of which only the number matters. *)
Definition DICE_ART : list unit := replicate 6 ().

(** The lines of the running tally,
    [[f"{p.ss.total():3d}  {p.name}" for p in rt]], and the [max] over
    their lengths, which raises [ValueError] when there is no line. *)
Fixpoint draw_tally_lines (rt : list Player) : result unit :=
  match rt with
  | [] => Ok ()
  | p :: rt' => format_d (total (ss p));; draw_tally_lines rt'
  end.

Definition draw_tally (rt : list Player) : result unit :=
  draw_tally_lines rt;;
  match rt with
  | [] => Raise ValueError
  | _ => Ok ()
  end.

(** One row of the score sheet, for [s = player.ss.get(category, -1)].
    The result tells whether the row assigns the local variable [arrow],
    which the row of a category without an entry does while a category is
    picked. *)
Definition draw_row (G : Game) (category : Category) : result bool :=
  let s := get (ss (player G)) category (-1) in
  if decide (s = -1) then
    if picking_cat G then
      format_d (compute category (dice (ds G)));; Ok true
    else Ok false
  else format_d s;; Ok false.

(** The rows in the order of [Category]; [arrow] tells whether the
    variable is bound so far. *)
Fixpoint draw_rows (G : Game) (cats : list Category) (arrow : bool)
    : result bool :=
  match cats with
  | [] => Ok arrow
  | category :: cats' =>
      a ← draw_row G category; draw_rows G cats' (arrow || a)
  end.

(** [DICE_ART[d - 1]] for every die. *)
Fixpoint draw_dice (dice : list Z) : result unit :=
  match dice with
  | [] => Ok ()
  | d :: dice' => getitem DICE_ART (d - 1);; draw_dice dice'
  end.

(** The frame that the loop body draws before it reads a key.  Nothing of
    the state changes; what is kept are the exceptions that depend on the
    state, in the order of the code: the texts of integers, the [max] over
    the tally, [list(Category)[rs.togl]], the read of [arrow], and
    [DICE_ART[d - 1]].  [arrow] is a local variable of [game_loop] that is
    assigned nowhere else, so it is unbound until a row assigns it and
    bound from then on: the argument tells whether it is bound when the
    frame begins and the result whether it is bound when the frame is
    done. *)
Definition draw_frame (arrow : bool) (G : Game) : result bool :=
  (if picking_cat G then Ok EmptyString else format_d (rolls (ds G)));;
  draw_tally (tally (players G));;
  arrow ← draw_rows G Category_members arrow;
  format_d (total (ss (player G)));;
  (if picking_cat G then
     cat ← getitem Category_members (togl (rs G));
     if arrow : bool then
       format_d (total (setitem (ss (player G)) cat
                          (compute cat (dice (ds G)))))
     else Raise UnboundLocalError
   else Ok EmptyString);;
  draw_dice (dice (ds G));;
  Ok arrow.

(** The loop over the keys that the user will press: the frame is drawn,
    then a key is read and handled.  [Continue G] is the loop waiting for
    the next key in state [G], the frame of [G] drawn. *)
Fixpoint game_loop_frames (arrow : bool) (keys : list Key) (G : Game)
    : Outcome :=
  match draw_frame arrow G with
  | Raise e => Crash e
  | Ok arrow' =>
      match keys with
      | [] => Continue G
      | k :: keys' =>
          match game_loop_step k G with
          | Continue G' => game_loop_frames arrow' keys' G'
          | o => o
          end
      end
  end.

(** The loop from its start, where [arrow] is unbound. *)
Definition game_loop (keys : list Key) (G : Game) : Outcome :=
  game_loop_frames false keys G.

(** ** The leaderboard: the merge of [game_end] *)

(** [type LBEntry = tuple[int, str]]: a score and a name. *)
Definition LBEntry : Type := Z * string.

(** [x < y] on [str]: lexicographic by code point. *)
Definition str_lt (x y : string) : bool := String.ltb x y.

(** [x < y] on tuples [(int, str)]: the first components that differ
    decide. *)
Definition tuple_lt (x y : Z * string) : bool :=
  if decide (x.1 = y.1) then str_lt x.2 y.2 else bool_decide (x.1 < y.1).

(** [lambda x: (-x[0], x[1])] *)
Definition hist_key (x : LBEntry) : Z * string := (- x.1, x.2).

Section bisect.
Context {A K : Type} (lt_K : K → K → bool) (key : A → K).

(** [bisect.bisect_right(a, x, lo, hi, key=key)]: the loop
    [while lo < hi: mid = (lo + hi) // 2;
       if x < key(a[mid]): hi = mid else: lo = mid + 1]. *)
Equations? bisect_right (a : list A) (x : K) (lo hi : nat) : result nat
  by wf (hi - lo)%nat lt :=
  bisect_right a x lo hi with decide (lo < hi)%nat := {
    | right _ => Ok lo
    | left _ with inspect (getitem a (Z.of_nat ((lo + hi) / 2))) := {
        | exist _ (Raise e) _ => Raise e
        | exist _ (Ok y) _ with lt_K x (key y) := {
            | true => bisect_right a x lo ((lo + hi) / 2)
            | false => bisect_right a x ((lo + hi) / 2 + 1) hi } } }.
Proof.
  all: change (Nat.divmod (lo + hi) 1 0 1).1 with ((lo + hi) / 2)%nat in *;
    pose proof (Nat.div_mod_eq (lo + hi) 2);
    pose proof (Nat.mod_upper_bound (lo + hi) 2); lia.
Qed.

(** [a.insert(i, x)] *)
Definition list_insert_at (a : list A) (i : nat) (x : A) : list A :=
  take i a ++ x :: drop i a.

(** [bisect.insort(a, x, key=key)], which is [insort_right]. *)
Definition insort (a : list A) (x : A) : result (list A) :=
  lo ← bisect_right a (key x) 0 (length a);
  Ok (list_insert_at a lo x).
End bisect.

(** [(p.ss.total(), p.name)]: the leaderboard entry of a player who has
    finished the game. *)
Definition final_entry (p : Player) : LBEntry := (total (ss p), name p).

(** The loop of [game_end] over the players:
    [bisect.insort(hist, (p.ss.total(), p.name), key=...)]. *)
Fixpoint merge_finals (hist : list LBEntry) (ps : list Player)
    : result (list LBEntry) :=
  match ps with
  | [] => Ok hist
  | p :: ps' =>
      hist' ← insort tuple_lt hist_key hist (final_entry p);
      merge_finals hist' ps'
  end.

(** ** The history file *)

Definition LF : ascii := "010".
Definition CR : ascii := "013".
(** The ASCII unit separator, [0x1F]. *)
Definition US : ascii := "031".

(** The two families of systems on which [histhandle] opens a file. *)
Inductive os_name := posix | nt.

(** [os.linesep] *)
Definition linesep (os : os_name) : string :=
  match os with
  | posix => String LF EmptyString
  | nt => String CR (String LF EmptyString)
  end.

(** The encoding of a text file, which [open(path, mode)] takes from the
    locale: the bytes that a character is written as, and the character
    at the front of a byte string together with the bytes behind it.
    [None] is [UnicodeEncodeError] and [UnicodeDecodeError].  A byte
    sequence that stands for a character outside the first 256 code
    points, for which [string] has no place, counts as not decodable. *)
Record Codec := mkCodec {
  encode : ascii → option (list byte);
  decode : list byte → option (ascii * list byte)
}.

(** UTF-8: one byte below [0x80], two bytes from there on. *)
Definition utf_8 : Codec :=
  mkCodec
    (λ c,
       let n := N_of_ascii c in
       if (n <? 128)%N then Some [byte_of_ascii c]
       else Some [byte_of_ascii (ascii_of_N (192 + n / 64));
                  byte_of_ascii (ascii_of_N (128 + n mod 64))])
    (λ bs,
       match bs with
       | [] => None
       | b0 :: bs' =>
           let n0 := Byte.to_N b0 in
           if (n0 <? 128)%N then Some (ascii_of_byte b0, bs')
           else if (n0 =? 194)%N || (n0 =? 195)%N then
             match bs' with
             | b1 :: bs'' =>
                 let n1 := Byte.to_N b1 in
                 if (128 <=? n1)%N && (n1 <? 192)%N
                 then Some (ascii_of_N ((n0 - 192) * 64 + (n1 - 128)), bs'')
                 else None
             | [] => None
             end
           else None
       end).

(** Windows-1252, the usual encoding of the locale on [nt]: one byte per
    character; the bytes from [0x80] to [0x9F] stand for characters
    outside the first 256 code points or for none, and the code points
    from [0x80] to [0x9F] have no byte. *)
Definition cp1252 : Codec :=
  mkCodec
    (λ c,
       let n := N_of_ascii c in
       if (n <? 128)%N || (160 <=? n)%N then Some [byte_of_ascii c] else None)
    (λ bs,
       match bs with
       | [] => None
       | b :: bs' =>
           let n := Byte.to_N b in
           if (n <? 128)%N || (160 <=? n)%N then Some (ascii_of_byte b, bs')
           else None
       end).

(** A file opened by [histhandle], that is by [open(path, mode)]: a text
    file with the default [newline=None] and the encoding of the locale.
    [before] are the bytes of the file in front of the position and
    [after] the bytes from the position on. *)
Record TextIO := mkTextIO {
  os : os_name;
  encoding : Codec;
  before : list byte;
  after : list byte
}.

(** The file just opened in one of the modes ["r"], ["r+"], ["x"]. *)
Definition open_ (o : os_name) (cd : Codec) (content : list byte) : TextIO :=
  mkTextIO o cd [] content.

(** What a text file does to written text: every ["\n"] becomes
    [os.linesep]. *)
Fixpoint translate_out (o : os_name) (s : string) : string :=
  match s with
  | EmptyString => EmptyString
  | String c s' =>
      (if decide (c = LF) then linesep o else String c EmptyString)
      +:+ translate_out o s'
  end.

(** [s.encode(encoding)] *)
Fixpoint encode_text (cd : Codec) (s : string) : result (list byte) :=
  match s with
  | EmptyString => Ok []
  | String c s' =>
      match encode cd c with
      | None => Raise UnicodeEncodeError
      | Some bs => bs' ← encode_text cd s'; Ok (bs ++ bs')
      end
  end.

(** [fp.write(s)]: the bytes of the text replace the bytes that were at
    the position, as many as there are; the file is not cut off behind
    them. *)
Definition write (fp : TextIO) (s : string) : result TextIO :=
  raw ← encode_text (encoding fp) (translate_out (os fp) s);
  Ok (mkTextIO (os fp) (encoding fp) (before fp ++ raw)
        (drop (length raw) (after fp))).

(** [fp.seek(0, io.SEEK_SET)] *)
Definition seek0 (fp : TextIO) : TextIO :=
  mkTextIO (os fp) (encoding fp) [] (before fp ++ after fp).

(** [bs.decode(encoding)]: the characters of a byte string, each with the
    number of bytes that it takes. *)
Fixpoint decode_text (cd : Codec) (fuel : nat) (bs : list byte)
    : result (list (ascii * nat)) :=
  match bs, fuel with
  | [], _ => Ok []
  | _, O => Raise UnicodeDecodeError
  | _, S fuel' =>
      match decode cd bs with
      | None => Raise UnicodeDecodeError
      | Some (c, rest) =>
          if decide (length rest < length bs)%nat then
            cs ← decode_text cd fuel' rest;
            Ok ((c, (length bs - length rest)%nat) :: cs)
          else Raise UnicodeDecodeError
      end
  end.

(** One line taken from the text at the position, in universal-newlines
    mode: a line ends at ["\n"], ["\r\n"] or ["\r"], each of which is
    handed over as ["\n"].  The result is the line, the text of the file
    that was consumed and the text that is left. *)
Fixpoint read_line (s : string) : string * string * string :=
  match s with
  | EmptyString => (EmptyString, EmptyString, EmptyString)
  | String c s' =>
      if decide (c = LF) then (String LF EmptyString, String LF EmptyString, s')
      else if decide (c = CR) then
        match s' with
        | String c' s'' =>
            if decide (c' = LF)
            then (String LF EmptyString, String CR (String LF EmptyString), s'')
            else (String LF EmptyString, String CR EmptyString, s')
        | EmptyString => (String LF EmptyString, String CR EmptyString, EmptyString)
        end
      else
        let '(line, raw, rest) := read_line s' in
        (String c line, String c raw, rest)
  end.

(** [fp.readline()].  The bytes from the position on are decoded as a
    whole, which is what Python does with a file of one chunk (8192 bytes
    unless the system says otherwise); of a longer file Python decodes
    the chunks one by one as it needs them, and meets bytes that are not
    text only in the chunk that holds them. *)
Definition readline (fp : TextIO) : result (string * TextIO) :=
  cs ← decode_text (encoding fp) (length (after fp)) (after fp);
  let '(line, raw, _) := read_line (string_of_list_ascii cs.*1) in
  let n := sum_list (take (String.length raw) cs.*2) in
  Ok (line, mkTextIO (os fp) (encoding fp)
              (before fp ++ take n (after fp)) (drop n (after fp))).

(** [s.rstrip(chars)] and [s.lstrip(chars)], for the set of characters
    that [P] selects. *)
Fixpoint rstrip (P : ascii → bool) (s : string) : string :=
  match s with
  | EmptyString => EmptyString
  | String c s' =>
      match rstrip P s' with
      | EmptyString => if P c then EmptyString else String c EmptyString
      | r => String c r
      end
  end.

Fixpoint lstrip (P : ascii → bool) (s : string) : string :=
  match s with
  | EmptyString => EmptyString
  | String c s' => if P c then lstrip P s' else s
  end.

(** [s.split(sep)] for a separator of one character. *)
Fixpoint split (sep : ascii) (s : string) : list string :=
  match s with
  | EmptyString => [EmptyString]
  | String c s' =>
      if decide (c = sep) then EmptyString :: split sep s'
      else
        match split sep s' with
        | w :: ws => String c w :: ws
        | [] => [String c EmptyString]
        end
  end.

(** [c.isspace()], among the first 256 code points: the characters that
    [str.strip] drops. *)
Definition is_space (c : ascii) : bool :=
  let n := nat_of_ascii c in
  bool_decide ((9 <= n <= 13) ∨ (28 <= n <= 32) ∨ n = 133 ∨ n = 160)%nat.

(** The characters that [int] takes for blanks, among the first 256 code
    points: the blanks of ASCII, without the separators from [0x1C] to
    [0x1F], and the two blanks above ASCII. *)
Definition int_space (c : ascii) : bool :=
  let n := nat_of_ascii c in
  bool_decide ((9 <= n <= 13) ∨ n = 32 ∨ n = 133 ∨ n = 160)%nat.

Definition digit_of (c : ascii) : option (Decimal.uint → Decimal.uint) :=
  match c with
  | "0" => Some Decimal.D0 | "1" => Some Decimal.D1 | "2" => Some Decimal.D2
  | "3" => Some Decimal.D3 | "4" => Some Decimal.D4 | "5" => Some Decimal.D5
  | "6" => Some Decimal.D6 | "7" => Some Decimal.D7 | "8" => Some Decimal.D8
  | "9" => Some Decimal.D9
  | _ => None
  end%char.

(** The digits of an integer literal: at least one digit, and single
    underscores only between two digits. *)
Fixpoint parse_uint (after_digit : bool) (s : string) : option Decimal.uint :=
  match s with
  | EmptyString => if after_digit then Some Decimal.Nil else None
  | String c s' =>
      if decide (c = "_"%char) then
        if after_digit then parse_uint false s' else None
      else
        d ← digit_of c; u ← parse_uint true s'; Some (d u)
  end.

(** [int(s)] for a string: blanks around the number are dropped, a sign
    may come first, and text that is not a decimal literal raises
    [ValueError], as does a literal of more than [int_max_str_digits]
    digits. *)
Definition int_of_str (s : string) : result Z :=
  let s := rstrip int_space (lstrip int_space s) in
  let '(sign, digits) :=
    match s with
    | String "-"%char s' => (Decimal.Neg, s')
    | String "+"%char s' => (Decimal.Pos, s')
    | _ => (Decimal.Pos, s)
    end in
  match parse_uint false digits with
  | Some u =>
      if decide (Decimal.nb_digits u <= int_max_str_digits)%nat
      then Ok (Z.of_int (sign u))
      else Raise ValueError
  | None => Raise ValueError
  end.

(** ["%d\x1F%s\n" % x] *)
Definition format_entry (x : LBEntry) : result string :=
  score ← format_d x.1;
  Ok (score +:+ String US (x.2 +:+ String LF EmptyString)).

(** [savehist]: save the history entries [xs] to the history file [fp]. *)
Fixpoint savehist (fp : TextIO) (xs : list LBEntry) : result TextIO :=
  match xs with
  | [] => Ok fp
  | x :: xs' =>
      line ← format_entry x; fp' ← write fp line; savehist fp' xs'
  end.

(** [score, name = line.rstrip("\n").split("\x1F")] followed by
    [(int(score), name)]. *)
Definition parse_entry (line : string) : result LBEntry :=
  match split US (rstrip (λ c, bool_decide (c = LF)) line) with
  | [score; name] => n ← int_of_str score; Ok (n, name)
  | _ => Raise ValueError
  end.

(** The loop [for i in itertools.count()] of [loadhist]. *)
Equations? loadhist_loop (fp : TextIO) (n i : Z) (xs : list LBEntry)
    : result (list LBEntry * TextIO)
    by wf (length (after fp)) lt :=
  loadhist_loop fp n i xs with decide (i = n) := {
    | left _ => Ok (xs, fp)
    | right _ with inspect (readline fp) := {
        | exist _ (Raise e) _ => Raise e
        | exist _ (Ok (line, fp')) _ with decide (line = EmptyString) := {
            | left _ => Ok (xs, fp')
            | right _ with parse_entry line := {
                | Raise e => Raise e
                | Ok x => loadhist_loop fp' n (i + 1) (xs ++ [x]) } } } }.
Proof.
  clear loadhist_loop.
  match goal with H : readline fp = _ |- _ => rename H into Hrd end.
  match goal with H : line ≠ EmptyString |- _ => rename H into Hne end.
  unfold readline in Hrd.
  destruct (decode_text (encoding fp) (length (after fp)) (after fp))
    as [cs|] eqn:Hcs; [|done].
  simpl in Hrd.
  destruct (read_line (string_of_list_ascii cs.*1)) as [[line' raw] rest]
    eqn:Hs.
  injection Hrd as -> <-. simpl.
  assert (String.length raw ≠ 0%nat) as Hraw.
  { clear Hcs. revert line raw rest Hs Hne.
    generalize (string_of_list_ascii cs.*1) as s.
    induction s as [|c s IH]; intros line raw rest Hs Hne; simpl in *.
    - injection Hs as <- <- <-. done.
    - repeat case_decide; try (injection Hs as <- <- <-; done).
      + destruct s; [|case_decide]; injection Hs as <- <- <-; done.
      + destruct (read_line s) as [[? ?] ?]. injection Hs as <- <- <-. done. }
  assert (String.length raw <= length cs)%nat as Hlen.
  { assert (String.length (string_of_list_ascii cs.*1) = length cs) as <-.
    { rewrite <- (length_fmap fst cs).
      generalize (cs.*1) as l. induction l; simpl; congruence. }
    clear Hcs Hraw Hne. revert line raw rest Hs.
    generalize (string_of_list_ascii cs.*1) as s.
    induction s as [|c s IH]; intros line raw rest Hs; simpl in *.
    - injection Hs as <- <- <-. done.
    - repeat case_decide; try (injection Hs as <- <- <-; simpl; lia).
      + destruct s; [|case_decide]; injection Hs as <- <- <-; simpl; lia.
      + destruct (read_line s) as [[l1 r1] t1]. injection Hs as <- <- <-.
        specialize (IH _ _ _ eq_refl). simpl. lia. }
  assert (∀ fuel bs cs0, decode_text (encoding fp) fuel bs = Ok cs0 →
            Forall (λ x, 1 <= x.2)%nat cs0 ∧ (bs = [] → cs0 = [])) as Hpos.
  { induction fuel as [|fuel IH]; intros bs cs0; destruct bs as [|b bs];
      simpl; try (intros [= <-]; done); try done.
    destruct (decode (encoding fp) (b :: bs)) as [[c rest']|]; [|done].
    case_decide; [|done].
    destruct (decode_text (encoding fp) fuel rest') as [cs1|] eqn:E1; [|done].
    simpl. intros [= <-]. split; [|done].
    constructor; [simpl in *; lia|]. by apply (IH _ _ E1). }
  destruct (Hpos _ _ _ Hcs) as [Hall Hnil].
  destruct cs as [|[c1 n1] cs]; [simpl in Hlen; lia|].
  destruct (after fp) as [|b bs] eqn:Hafter; [by specialize (Hnil eq_refl)|].
  destruct (String.length raw) as [|m]; [done|].
  apply Forall_cons in Hall as [Hn1 _]. simpl in Hn1.
  rewrite length_drop. simpl. lia.
Qed.

(** [loadhist(fp, n)]: load the first [n] history entries from [fp], all of
    them when [n] is [-1]. *)
Definition loadhist (fp : TextIO) (n : Z) : result (list LBEntry * TextIO) :=
  loadhist_loop fp n 0 [].

(** The history part of [game_end]: load the whole file, add the scores of
    the players, write everything back from the start. *)
Definition game_end_history (fp : TextIO) (ps : list Player)
    : result (list LBEntry * TextIO) :=
  '(hist, fp) ← loadhist fp (-1);
  hist ← merge_finals hist ps;
  fp ← savehist (seek0 fp) hist;
  Ok (hist, fp).

(** ** The player menu: [NewPlayerPanel] and [main] *)

(** The keys that the menus read: those of the game loop, and the
    backspace key, which the game loop takes for one of the other
    function keys. *)
Inductive MenuKey :=
  | MKey (k : Key)
  | KEY_BACKSPACE.
Coercion MKey : Key >-> MenuKey.

Global Instance MenuKey_eq_dec : EqDecision MenuKey.
Proof. solve_decision. Defined.

Definition ctrl_E : Key := Ch "005".

(** [c.isprintable()], among the first 256 code points: neither a control
    character, nor the no-break space, nor the soft hyphen. *)
Definition isprintable (c : ascii) : bool :=
  let n := nat_of_ascii c in
  bool_decide ((32 <= n <= 126) ∨ (161 <= n <= 255 ∧ n ≠ 173))%nat.

(** [s.strip()] *)
Definition strip (s : string) : string :=
  rstrip is_space (lstrip is_space s).

(** [s[:-1]] *)
Fixpoint str_init (s : string) : string :=
  match s with
  | EmptyString => EmptyString
  | String c s' =>
      match s' with
      | EmptyString => EmptyString
      | _ => String c (str_init s')
      end
  end.

(** [l.pop(i)], of which the program uses the list that is left. *)
Definition pop {A} (l : list A) (i : Z) : result (list A) :=
  let j := if decide (i < 0) then i + Z.of_nat (length l) else i in
  if decide (0 <= j < Z.of_nat (length l)) then Ok (delete (Z.to_nat j) l)
  else Raise IndexError.

(** [class NewPlayerPanel]: the fields that [show] sets, and the
    diagnostic message of its help panel.  [_start_text] is [None] when a
    player is added. *)
Record NewPlayerPanel := mkNewPlayerPanel {
  active : bool;
  _bi : Z;
  _pi : Z;
  _text : string;
  _start_text : option string;
  _hp_diag : string
}.

(** [NewPlayerPanel.renaming] *)
Definition renaming (self : NewPlayerPanel) : bool :=
  bool_decide (_pi self >= 0).

(** [NewPlayerPanel.show], over the global [players]. *)
Definition show (players : list Player) (i : Z) : result NewPlayerPanel :=
  if decide (i >= 0) then
    p ← getitem players (- i - 1);
    Ok (mkNewPlayerPanel true 0 i (name p) (Some (name p)) EmptyString)
  else
    Ok (mkNewPlayerPanel true 0 i EmptyString None EmptyString).

(** [NewPlayerPanel.hide] *)
Definition hide (self : NewPlayerPanel) : NewPlayerPanel :=
  mkNewPlayerPanel false (_bi self) (_pi self) (_text self)
    (_start_text self) (_hp_diag self).

Definition with_bi (self : NewPlayerPanel) (b : Z) : NewPlayerPanel :=
  mkNewPlayerPanel (active self) b (_pi self) (_text self)
    (_start_text self) (_hp_diag self).

Definition with_text (self : NewPlayerPanel) (t : string) : NewPlayerPanel :=
  mkNewPlayerPanel (active self) (_bi self) (_pi self) t
    (_start_text self) (_hp_diag self).

Definition with_hp_diag (self : NewPlayerPanel) (d : string)
    : NewPlayerPanel :=
  mkNewPlayerPanel (active self) (_bi self) (_pi self) (_text self)
    (_start_text self) d.

(** [NewPlayerPanel.handle_input], from the key read on: the panel and the
    global [players] afterwards. *)
Definition handle_input (k : MenuKey) (self : NewPlayerPanel)
    (players : list Player) : result (NewPlayerPanel * list Player) :=
  if decide (k = MKey ctrl_E) then Ok (hide self, players)
  else if decide (k = MKey ctrl_A
                  ∨ (k = MKey newline ∧ _bi self = BTNAPP)) then
    let pn := strip (_text self) in
    if decide (pn = EmptyString) then
      Ok (with_hp_diag self "Empty player name not allowed", players)
    else if decide (Some pn ≠ _start_text self
                    ∧ pn ∈ name <$> players) then
      Ok (with_hp_diag self "Name already taken", players)
    else if renaming self then
      p ← getitem players (_pi self);
      players' ← setitem_list players (_pi self) (mkPlayer pn (ss p));
      Ok (hide self, players')
    else
      Ok (hide self, players ++ [mkPlayer pn ∅])
  else
    match k with
    | MKey KEY_UP => Ok (with_bi self 0, players)
    | MKey KEY_DOWN => Ok (with_bi self BTNAPP, players)
    | KEY_BACKSPACE => Ok (with_text self (str_init (_text self)), players)
    | MKey (Ch c) =>
        if isprintable c
        then Ok (with_text self (_text self +:+ String c EmptyString),
                 players)
        else Ok (self, players)
    | _ => Ok (self, players)
    end.

(** The variables of the loop of [main] that its key handling uses: the
    global [players], [rs] and [npp]. *)
Record Main := mkMain {
  main_players : list Player;
  main_rs : RenderState;
  main_npp : NewPlayerPanel
}.

(** How one pass through the [while True] loop of [main] ends. *)
Inductive MainOutcome :=
  | MainContinue (M : Main)   (** the loop goes round again *)
  | MainGame (M : Main)       (** [game_loop(rs, body_win)] is called *)
  | MainExit                  (** [sys.exit(0)] *)
  | MainCrash (e : exn).      (** an exception leaves [main] *)

Definition main_with_sel (M : Main) (s : Z) : Main :=
  mkMain (main_players M)
    (mkRenderState s (togl (main_rs M)) (diag (main_rs M))) (main_npp M).

(** [npp.show(i)] in [main] *)
Definition main_show (M : Main) (i : Z) : MainOutcome :=
  match show (main_players M) i with
  | Ok npp' => MainContinue (mkMain (main_players M) (main_rs M) npp')
  | Raise e => MainCrash e
  end.

(** The [KEY_BACKSPACE] branch of [main]: the selected player is removed
    from the roster. *)
Definition main_remove (M : Main) : MainOutcome :=
  let s := sel (main_rs M) in
  match pop (main_players M) (Z.of_nat (length (main_players M)) - s - 1) with
  | Raise e => MainCrash e
  | Ok ps =>
      let s' := if decide (length ps = 0%nat) then BTNAP
                else if decide (s ≠ 0) then s - 1 else s in
      MainContinue
        (mkMain ps (mkRenderState s' (togl (main_rs M)) (diag (main_rs M)))
           (main_npp M))
  end.

(** One pass through the loop body of [main], from the key read on. *)
Definition main_step (k : MenuKey) (M : Main) : MainOutcome :=
  let s := sel (main_rs M) in
  let len := Z.of_nat (length (main_players M)) in
  if active (main_npp M) then
    match handle_input k (main_npp M) (main_players M) with
    | Ok (npp', ps) => MainContinue (mkMain ps (main_rs M) npp')
    | Raise e => MainCrash e
    end
  else if decide (k = MKey ctrl_A) then main_show M BTNAP
  else if decide (k = MKey ctrl_Q) then MainExit
  else if decide (k = MKey newline ∧ (s = BTNAP ∨ s >= 0)) then main_show M s
  else if decide (k = MKey ctrl_S ∨ (k = MKey newline ∧ s = BTNSG)) then
    if decide (len = 0) then
      MainContinue
        (mkMain (main_players M)
           (mkRenderState s (togl (main_rs M))
              "Cannot start game with no players")
           (main_npp M))
    else MainGame M
  else if decide (k = MKey KEY_UP) then
    if decide (s < 0 ∧ len > 0) then MainContinue (main_with_sel M 0)
    else if decide (0 <= s < len - 1) then
      MainContinue (main_with_sel M (s + 1))
    else MainContinue M
  else if decide (k = MKey KEY_DOWN) then
    if decide (s > 0) then MainContinue (main_with_sel M (s - 1))
    else if decide (s = 0) then MainContinue (main_with_sel M BTNAP)
    else MainContinue M
  else if decide (k = MKey KEY_LEFT ∧ s = BTNSG) then
    MainContinue (main_with_sel M BTNAP)
  else if decide (k = MKey KEY_RIGHT ∧ s = BTNAP) then
    MainContinue (main_with_sel M BTNSG)
  else if decide (k = KEY_BACKSPACE ∧ s >= 0) then main_remove M
  else MainContinue M.

(** The state in which [main] enters its loop: [rs = RenderState(BTNAP,
    -1, hp)] and a new player panel that has not been shown. *)
Definition main_start (ps : list Player) : Main :=
  mkMain ps (mkRenderState BTNAP (-1) EmptyString)
    (mkNewPlayerPanel false 0 BTNAP EmptyString None EmptyString).

(** The loop of [main] over the keys that the user will press, up to the
    start of a game. *)
Fixpoint main_loop (keys : list MenuKey) (M : Main) : MainOutcome :=
  match keys with
  | [] => MainContinue M
  | k :: keys' =>
      match main_step k M with
      | MainContinue M' => main_loop keys' M'
      | o => o
      end
  end.

(** [main] after [game_loop] has returned with the roster and the render
    state of [G]: [rs.sel = BTNAP]. *)
Definition main_resume (M : Main) (G : Game) : Main :=
  mkMain (players G) (mkRenderState BTNAP (togl (rs G)) (diag (rs G)))
    (main_npp M).

(** ** The place of the history file: [histhandle] *)

(** What [histhandle] asks of the system: [os.name], [sys.platform] and
    the environment [os.environ]. *)
Record System := mkSystem {
  os_dot_name : string;
  sys_platform : string;
  environ : gmap string string
}.

(** [os.getenv(key)] *)
Definition getenv (sys : System) (key : string) : option string :=
  environ sys !! key.

(** The exceptions that leave [histhandle] before it opens the file. *)
Inductive histhandle_exn := AssertionError | TypeError | NotImplementedError.

(** [assert (path := os.getenv(key))]: the value, which must be there and
    not empty. *)
Definition assert_getenv (sys : System) (key : string)
    : histhandle_exn + string :=
  match getenv sys key with
  | Some v => if decide (v = EmptyString) then inl AssertionError else inr v
  | None => inl AssertionError
  end.

(** The path that [histhandle] opens, [path / "history"], as the list of
    its parts: [Path(base) / a / b] is [[base; a; b]].  [Path(None)]
    raises [TypeError]. *)
Definition histhandle_path (sys : System) : histhandle_exn + list string :=
  if decide (os_dot_name sys = "nt") then
    match assert_getenv sys "LOCALAPPDATA" with
    | inr path => inr [path; "Yahoozy"; "history"]
    | inl e => inl e
    end
  else if decide (sys_platform sys = "darwin") then
    match assert_getenv sys "HOME" with
    | inr home =>
        inr [home; "Library"; "Application Support"; "Yahoozy"; "history"]
    | inl e => inl e
    end
  else if decide (os_dot_name sys = "posix") then
    match getenv sys "XDG_DATA_HOME" with
    | Some path =>
        if decide (path = EmptyString) then
          match assert_getenv sys "HOME" with
          | inr path => inr [path; ".local"; "share"; "yahoozy"; "history"]
          | inl e => inl e
          end
        else inr [path; "yahoozy"; "history"]
    | None => inl TypeError
    end
  else inl NotImplementedError.

(** ** The shortcuts of the help panel: [HelpPanel._key] *)

(** [s.find(c)] for a character: the first position, or -1. *)
Fixpoint find (c : ascii) (s : string) : Z :=
  match s with
  | EmptyString => -1
  | String c' s' =>
      if decide (c' = c) then 0
      else let i := find c s' in if decide (i < 0) then -1 else i + 1
  end.

(** [s[:j]] and [s[i:]]: a negative bound counts from the end, and bounds
    outside the string are clipped. *)
Definition slice_to (s : string) (j : Z) : string :=
  let len := Z.of_nat (String.length s) in
  let j := if decide (j < 0) then Z.max 0 (j + len) else Z.min j len in
  string_of_list_ascii (take (Z.to_nat j) (list_ascii_of_string s)).

Definition slice_from (s : string) (i : Z) : string :=
  let len := Z.of_nat (String.length s) in
  let i := if decide (i < 0) then Z.max 0 (i + len) else Z.min i len in
  string_of_list_ascii (drop (Z.to_nat i) (list_ascii_of_string s)).

(** [HelpPanel._key]: [s[s.find("*") + 1]] *)
Definition _key (s : string) : result ascii :=
  getitem (list_ascii_of_string s) (find "*" s + 1).

(** What [HelpPanel.draw] writes for one option, piece by piece, each
    with the mark of the underlined one: [f"^{ch}  {opt[:j]}"], the key
    [ch], underlined, and [opt[j + 2:]]. *)
Definition draw_opt (opt : string) : result (list (string * bool)) :=
  let j := find "*" opt in
  ch ← _key opt;
  Ok [(String "^" (String ch "  ") +:+ slice_to opt j, false);
      (String ch EmptyString, true);
      (slice_from opt (j + 2), false)].

(** ** Notions used in the statements *)
(** The sum of the entries of a sheet whose category satisfies [P]. *)
Definition entries_sum (P : Category → Prop) `{∀ c, Decision (P c)}
    (sheet : ScoreSheet) : Z :=
  map_fold (λ c v acc, if decide (P c) then v + acc else acc) 0 sheet.

(** The faces that make a roll a full house. *)
Definition full_house (dice : list Z) : Prop :=
  ∃ f2 f3, f2 ≠ f3 ∧ count f2 dice = 2 ∧ count f3 dice = 3.

(** What holds of the turn in every state that the loop reaches. *)
Record turn_inv (G : Game) : Prop := mk_turn_inv {
  inv_cursor : (cursor G < length (players G))%nat;
  inv_roll : is_roll (dice (ds G));
  inv_mask : 0 <= rollmsk (ds G) < 32;
  inv_rolls : 0 <= rolls (ds G) <= 2;
  inv_sel_rolling :
    picking_cat G = false →
    sel (rs G) = BTNRR ∨ sel (rs G) = BTNKA ∨ 0 <= sel (rs G) <= 4;
  inv_sel_picking :
    picking_cat G = true →
    sel (rs G) = BTNSC ∨ sel (rs G) ∈ can_select (ss (player G));
  inv_togl :
    picking_cat G = true →
    togl (rs G) = -1
    ∨ ∃ cat, getitem Category_members (togl (rs G)) = Ok cat
             ∧ ss (player G) !! cat = None
}.

(** The sheets during a game that began with empty sheets: the players in
    front of the cursor have had one turn more than the others. *)
Definition round_inv (G : Game) : Prop :=
  ∃ n : nat, ∀ i p, players G !! i = Some p →
    size (ss p) = if decide (i < cursor G)%nat then S n else n.

(** On key [k] in state [G] the loop asks for a reroll. *)
Definition reroll_key (k : Key) (G : Game) : Prop :=
  picking_cat G = false ∧ (k = ctrl_R ∨ (k = newline ∧ sel (rs G) = BTNRR)).

(** On key [k] in state [G] the loop calls [ds.reroll_dice()]. *)
Definition rerolls (k : Key) (G : Game) : Prop :=
  reroll_key k G ∧ rolls (ds G) ≠ 0 ∧ rollmsk (ds G) ≠ 0.

(** On key [k] in state [G] the loop asks to confirm the category. *)
Definition confirm_key (k : Key) (G : Game) : Prop :=
  picking_cat G = true ∧ (k = ctrl_S ∨ (k = newline ∧ sel (rs G) = BTNSC)).

(** On key [k] in state [G] the loop scores a category, which ends the
    turn. *)
Definition confirms (k : Key) (G : Game) : Prop :=
  confirm_key k G ∧ togl (rs G) ≠ -1.

Global Instance reroll_key_dec k G : Decision (reroll_key k G).
Proof. unfold reroll_key. apply _. Defined.
Global Instance rerolls_dec k G : Decision (rerolls k G).
Proof. unfold rerolls. apply _. Defined.
Global Instance confirm_key_dec k G : Decision (confirm_key k G).
Proof. unfold confirm_key. apply _. Defined.
Global Instance confirms_dec k G : Decision (confirms k G).
Proof. unfold confirms. apply _. Defined.

(** The number of rerolls carried out while the loop handles [keys], up to
    the end of the turn in which it starts. *)
Fixpoint rerolls_in_turn (keys : list Key) (G : Game) : nat :=
  match keys with
  | [] => 0
  | k :: keys' =>
      if decide (confirms k G) then 0%nat
      else
        match game_loop_step k G with
        | Continue G' =>
            ((if decide (rerolls k G) then 1 else 0)
             + rerolls_in_turn keys' G')%nat
        | _ => 0%nat
        end
  end.

(** The state after the players' sheet took the score of [cat]: the next
    player's turn, with fresh dice. *)
Definition next_turn (G : Game) (cat : Category) : Game :=
  mkGame (score G cat (compute cat (dice (ds G)))) (next_cursor G)
    (DiceState_init (rng G)).1
    (mkRenderState BTNRR (togl (rs G)) EmptyString) false
    (DiceState_init (rng G)).2.

(** [e1] may stand in front of [e2] on the leaderboard: it has the higher
    score, or the same score and a name that is not greater. *)
Definition entry_le (e1 e2 : LBEntry) : Prop :=
  e1.1 > e2.1 ∨ (e1.1 = e2.1 ∧ String.leb e1.2 e2.2 = true).

(** Ordered by score descending, then by name ascending. *)
Definition leaderboard_sorted (h : list LBEntry) : Prop :=
  StronglySorted entry_le h.

(** The character [c] occurs in [s]. *)
Fixpoint occurs (c : ascii) (s : string) : bool :=
  match s with
  | EmptyString => false
  | String c' s' => bool_decide (c' = c) || occurs c s'
  end.

(** A name as the record format asks for it: no newline and no
    separator. *)
Definition name_without_newline_or_separator (s : string) : Prop :=
  occurs LF s = false ∧ occurs US s = false.

(** A name that the history file hands back: in addition no carriage
    return. *)
Definition name_on_one_line (s : string) : Prop :=
  name_without_newline_or_separator s ∧ occurs CR s = false.

(** The line of the history file for the entry [x]. *)
Definition entry_text (x : LBEntry) : string :=
  decimal x.1 +:+ String US (x.2 +:+ String LF EmptyString).

(** The text of the entries [xs], one line each. *)
Fixpoint history_text (xs : list LBEntry) : string :=
  match xs with
  | [] => EmptyString
  | x :: xs' => entry_text x +:+ history_text xs'
  end.

(** The bytes of the text [s] in the encoding [cd]; a character that the
    encoding does not have contributes none. *)
Fixpoint text_bytes (cd : Codec) (s : string) : list byte :=
  match s with
  | EmptyString => []
  | String c s' => default [] (encode cd c) ++ text_bytes cd s'
  end.

(** What the encoding [cd] writes for the character [c] is read in the
    encoding [cd'] as [c] again. *)
Definition reads_back (cd cd' : Codec) (c : ascii) : Prop :=
  ∃ bs, encode cd c = Some bs ∧ bs ≠ []
        ∧ ∀ rest, decode cd' (bs ++ rest) = Some (c, rest).

(** The same of every character of ASCII, and of every character of the
    text [s]. *)
Definition reads_ascii (cd cd' : Codec) : Prop :=
  ∀ c, (nat_of_ascii c < 128)%nat → reads_back cd cd' c.

Definition text_reads_back (cd cd' : Codec) (s : string) : Prop :=
  ∀ c, occurs c s = true → reads_back cd cd' c.

(** A score that can be written as text: at most [int_max_str_digits]
    digits. *)
Definition score_fits (n : Z) : Prop :=
  (str_digits n <= int_max_str_digits)%nat.

(** An entry that a history file written in the encoding [cd] hands back
    when it is read in the encoding [cd']: the name is on one line and of
    characters that are read back, and the score can be written. *)
Definition entry_kept (cd cd' : Codec) (e : LBEntry) : Prop :=
  name_on_one_line e.2 ∧ text_reads_back cd cd' e.2 ∧ score_fits e.1.

(** Every character of the text [s] has bytes in the encoding [cd]. *)
Definition encodable (cd : Codec) (s : string) : Prop :=
  ∀ c, occurs c s = true → is_Some (encode cd c).

(** The characters of the text [s], each with the number of bytes that it
    has in the encoding [cd]. *)
Definition text_chars (cd : Codec) (s : string) : list (ascii * nat) :=
  (λ c, (c, length (default [] (encode cd c)))) <$> list_ascii_of_string s.

(** The name Zoé, with a character outside ASCII. *)
Definition Zoe_acute : string :=
  String "Z" (String "o" (String "233" EmptyString)).

(** A roster, a random source and a run of keys to try the loop on: each
    turn opens the category picker, moves up to the last open category,
    highlights it and confirms. *)
Definition demo_players : list Player := [mkPlayer "Ann" ∅; mkPlayer "Bob" ∅].
Definition demo_rng : RNG := mkRNG (λ n, Z.of_nat n * 7 + 3) 0.
Definition demo_start : Game :=
  game_start demo_players (mkRenderState BTNAP (-1) EmptyString) demo_rng.
Definition demo_turn : list Key := [ctrl_K; KEY_UP; newline; ctrl_S].
Definition demo_keys (turns : nat) : list Key :=
  concat (replicate turns demo_turn).

(** A sheet that totals 100 points. *)
Definition sheet_100 : ScoreSheet :=
  {[LSTRAIGHT := 20; CHANCE := 30; YATZY := 50]}.

(** The face that a category of the upper section counts. *)
Definition upper_face (c : Category) : option Z :=
  match c with
  | ONES => Some 1 | TWOS => Some 2 | THREES => Some 3
  | FOURS => Some 4 | FIVES => Some 5 | SIXES => Some 6
  | _ => None
  end.

(** How often a face must show for One Pair, Three of a Kind and Four of
    a Kind. *)
Definition of_a_kind (c : Category) : option Z :=
  match c with
  | ONE_PAIR => Some 2 | TOAK => Some 3 | FOAK => Some 4
  | _ => None
  end.

(** A sheet whose upper section lacks the Sixes and sums to 45. *)
Definition sheet_45 : ScoreSheet :=
  {[ONES := 3; TWOS := 6; THREES := 9; FOURS := 12; FIVES := 15]}.

(** The sheets after [n] full rounds of a game that began with empty
    sheets, while the game goes on: the players in front of the cursor
    have scored [n + 1] categories, the others [n], and [n] is below 15. *)
Definition round_at (n : nat) (G : Game) : Prop :=
  (n < 15)%nat
  ∧ ∀ i p, players G !! i = Some p →
      size (ss p) = if decide (i < cursor G)%nat then S n else n.

(** Every entry of every sheet is a score of five dice, between 0 and
    50. *)
Definition scores_inv (G : Game) : Prop :=
  ∀ i p, players G !! i = Some p →
    ∀ c v, ss p !! c = Some v → 0 <= v <= 50.

(** The number of turns that end, each by a category scored, while the
    loop handles [keys]. *)
Fixpoint turns (keys : list Key) (G : Game) : nat :=
  match keys with
  | [] => 0
  | k :: keys' =>
      ((if decide (confirms k G) then 1 else 0)
       + match game_loop_step k G with
         | Continue G' => turns keys' G'
         | _ => 0
         end)%nat
  end.

(** A sheet with an entry for every category, as the players have after a
    game. *)
Definition full_sheet : ScoreSheet :=
  list_to_map ((λ c, (c, 0)) <$> Category_members).

(** How often the character [c] occurs in [s]. *)
Fixpoint occurrences (c : ascii) (s : string) : nat :=
  match s with
  | EmptyString => 0
  | String c' s' => ((if decide (c' = c) then 1 else 0) + occurrences c s')%nat
  end.

(** What holds of the menu in every state that the loop of [main]
    reaches: the selection is one of the two buttons or a row of the
    roster, and a panel that is shown edits a player of the roster or
    adds one. *)
Definition menu_inv (M : Main) : Prop :=
  let len := Z.of_nat (length (main_players M)) in
  (sel (main_rs M) = BTNAP ∨ sel (main_rs M) = BTNSG
   ∨ 0 <= sel (main_rs M) < len)
  ∧ (active (main_npp M) = true → _pi (main_npp M) < len).

(** All characters of [s] are printable. *)
Fixpoint printable (s : string) : bool :=
  match s with
  | EmptyString => true
  | String c s' => isprintable c && printable s'
  end.

(** * Properties *)

(** ** Scoring *)

Lemma count_nil x : count x [] = 0.
Proof. reflexivity. Qed.

Lemma count_cons x d dice :
  count x (d :: dice) = (if decide (d = x) then 1 else 0) + count x dice.
Proof.
  unfold count. rewrite filter_cons. case_decide; simpl length; lia.
Qed.

Lemma count_bounds x dice : 0 <= count x dice <= Z.of_nat (length dice).
Proof.
  induction dice as [|d dice IH]; [rewrite count_nil; simpl; lia|].
  rewrite count_cons. simpl length. case_decide; lia.
Qed.

Lemma count_pos_elem x dice : 0 < count x dice → x ∈ dice.
Proof.
  induction dice as [|d dice IH]; [rewrite count_nil; lia|].
  rewrite count_cons. case_decide; [subst; left|].
  intros. right. apply IH. lia.
Qed.

Lemma roll_face dice x : is_roll dice → 0 < count x dice → 1 <= x <= 6.
Proof.
  intros [_ Hf] Hx. apply count_pos_elem in Hx.
  rewrite Forall_forall in Hf. auto.
Qed.

Lemma sum_bounds dice :
  Forall (λ d, 1 <= d <= 6) dice →
  Z.of_nat (length dice) <= sum dice <= 6 * Z.of_nat (length dice).
Proof.
  induction 1 as [|d dice Hd _ IH]; [simpl; lia|].
  change (sum (d :: dice)) with (d + sum dice). simpl length. lia.
Qed.

Lemma roll_sum dice : is_roll dice → 5 <= sum dice <= 30.
Proof. intros [Hl Hf]. apply sum_bounds in Hf. rewrite Hl in Hf. lia. Qed.

Lemma face_in_range x : x ∈ range_6_0 ↔ x = 6 ∨ x = 5 ∨ x = 4 ∨ x = 3 ∨ x = 2 ∨ x = 1.
Proof. unfold range_6_0. rewrite !elem_of_cons, elem_of_nil. tauto. Qed.

Lemma elem_of_faces_where (P : Z → Prop) `{∀ n, Decision (P n)} dice x :
  x ∈ faces_where P dice ↔ P (count x dice) ∧ 1 <= x <= 6.
Proof.
  unfold faces_where. rewrite list_elem_of_filter, face_in_range. 
  split; intros [? ?]; split; auto; lia.
Qed.

Lemma range_6_0_desc : StronglySorted Z.gt range_6_0.
Proof. unfold range_6_0. repeat constructor; lia. Qed.

(** The first value of a filtered, strictly descending list is its largest
    member that passes the filter; the values after it are the smaller
    ones that pass. *)
Lemma desc_filter_head (P : Z → Prop) `{∀ n, Decision (P n)} l a g :
  StronglySorted Z.gt l → filter P l = a :: g →
  P a ∧ a ∈ l ∧ (∀ x, x ∈ l → P x → x <= a)
  ∧ (∀ x, x ∈ g ↔ x ∈ l ∧ P x ∧ x < a)
  ∧ StronglySorted Z.gt g.
Proof.
  induction 1 as [|y l Hs IH Hy]; [done|].
  rewrite filter_cons. rewrite Forall_forall in Hy. case_decide as HP.
  - intros [= <- <-]. split_and!; [done|left| | |].
    + intros x [->|Hx]%elem_of_cons _; [lia|]. apply Hy in Hx. lia.
    + intros x. rewrite list_elem_of_filter, elem_of_cons. split.
      * intros [? Hx]. pose proof (Hy _ Hx). split_and!; auto; lia.
      * intros ([->|?] & ? & ?); [lia|done].
    + clear IH Hy HP. induction Hs as [|z l Hs IH Hz]; [constructor|].
      rewrite filter_cons. case_decide; [|done].
      constructor; [done|]. rewrite Forall_forall in *.
      intros x [_ Hx]%list_elem_of_filter. auto.
  - intros Hf. destruct (IH Hf) as (Ha & Hin & Hmax & Hg & Hsg).
    split_and!; [done|by right| | |done].
    + intros x [->|Hx]%elem_of_cons Hx'; [done|auto].
    + intros x. rewrite Hg, elem_of_cons. split.
      * intros (? & ? & ?). auto.
      * intros ([->|?] & ? & ?); [done|auto].
Qed.

Lemma desc_head_max (a : Z) (g : list Z) :
  StronglySorted Z.gt (a :: g) → ∀ x, x ∈ a :: g → x <= a.
Proof.
  intros Hs x [->|Hx]%elem_of_cons; [lia|].
  apply StronglySorted_inv in Hs as [_ Hs]. rewrite Forall_forall in Hs.
  apply Hs in Hx. lia.
Qed.

(** What [next] finds in a generator over the faces, from 6 downwards:
    the highest face that passes, and then the second highest. *)
Lemma next_faces_where (P : Z → Prop) `{∀ n, Decision (P n)} dice :
  match next (faces_where P dice) with
  | Some (a, g) =>
      P (count a dice) ∧ 1 <= a <= 6
      ∧ (∀ x, 1 <= x <= 6 → P (count x dice) → x <= a)
      ∧ match next g with
        | Some (b, _) =>
            P (count b dice) ∧ 1 <= b < a
            ∧ (∀ x, 1 <= x < a → P (count x dice) → x <= b)
        | None => ∀ x, 1 <= x < a → ¬ P (count x dice)
        end
  | None => ∀ x, 1 <= x <= 6 → ¬ P (count x dice)
  end.
Proof.
  unfold faces_where.
  destruct (filter _ range_6_0) as [|a g] eqn:Hf; simpl.
  - intros x Hx HP.
    assert (x ∈ filter (λ x, P (count x dice)) range_6_0) as Hin
      by (apply list_elem_of_filter; split; [done|apply face_in_range; lia]).
    rewrite Hf in Hin. by apply elem_of_nil in Hin.
  - apply desc_filter_head in Hf as (Ha & Hin & Hmax & Hg & Hsg);
      [|apply range_6_0_desc].
    apply face_in_range in Hin.
    split_and!; [done|lia|lia| |].
    { intros x Hx. apply Hmax, face_in_range. lia. }
    destruct g as [|b g']; simpl.
    + intros x Hx HP. assert (x ∈ @nil Z) as Hn; [|by apply elem_of_nil in Hn].
      apply Hg. split_and!; [apply face_in_range; lia|done|lia].
    + assert (b ∈ b :: g') as Hb by left.
      apply Hg in Hb as (Hb1%face_in_range & Hb2 & Hb3).
      split_and!; [done|lia|lia|].
      intros x Hx HP. apply (desc_head_max b g' Hsg).
      apply Hg. split_and!; [apply face_in_range; lia|done|lia].
Qed.

(** C5.  For a roll of five dice the Full House score is the sum of the
    dice when some face shows exactly twice and a different face exactly
    three times, and 0 otherwise; (2,2,3,3,3) scores 13 and (5,5,5,5,5)
    scores 0. *)
Theorem full_house_score :
  (∀ dice, is_roll dice →
     (full_house dice → compute FHOUSE dice = sum dice)
     ∧ (¬ full_house dice → compute FHOUSE dice = 0))
  ∧ compute FHOUSE [2; 2; 3; 3; 3] = 13
  ∧ compute FHOUSE [5; 5; 5; 5; 5] = 0.
Proof.
  split; [|split; vm_compute; reflexivity].
  intros dice Hroll. unfold compute.
  pose proof (next_faces_where (λ n, n = 2) dice) as H2.
  pose proof (next_faces_where (λ n, n = 3) dice) as H3.
  destruct (next (faces_where (λ n, n = 2) dice)) as [[a ga]|]; simpl.
  - destruct (next (faces_where (λ n, n = 3) dice)) as [[b gb]|]; simpl.
    + split; [done|]. intros []. exists a, b.
      destruct H2 as (? & _), H3 as (? & _). split_and!; [congruence|done..].
    + split; [|done]. intros (f2 & f3 & _ & _ & Hf3).
      destruct (H3 f3); [|done]. apply (roll_face dice); [done|lia].
  - split; [|done]. intros (f2 & f3 & _ & Hf2 & _).
    destruct (H2 f2); [|done]. apply (roll_face dice); [done|lia].
Qed.

Lemma full_house_score_witness :
  compute FHOUSE [3; 2; 3; 2; 3] = sum [3; 2; 3; 2; 3].
Proof.
  apply (proj1 full_house_score [3; 2; 3; 2; 3]).
  - split; [reflexivity|]. repeat constructor; lia.
  - exists 2, 3. split_and!; [lia|reflexivity..].
Defined.

(** C6.  For a roll of five dice the Two Pairs score is [2 * (f1 + f2)]
    for the two highest distinct faces [f1 > f2] that each show at least
    twice, and 0 when fewer than two distinct faces show at least twice;
    (2,2,5,5,6) scores 14 and (2,2,2,5,6) scores 0. *)
Theorem two_pairs_score :
  (∀ dice, is_roll dice →
     (∀ f1 f2, f1 > f2 → count f1 dice >= 2 → count f2 dice >= 2 →
        (∀ f, count f dice >= 2 → f <= f1 ∧ (f ≠ f1 → f <= f2)) →
        compute TWO_PAIRS dice = 2 * (f1 + f2))
     ∧ ((∀ f1 f2, count f1 dice >= 2 → count f2 dice >= 2 → f1 = f2) →
        compute TWO_PAIRS dice = 0))
  ∧ compute TWO_PAIRS [2; 2; 5; 5; 6] = 14
  ∧ compute TWO_PAIRS [2; 2; 2; 5; 6] = 0.
Proof.
  split; [|split; vm_compute; reflexivity].
  intros dice Hroll. unfold compute.
  pose proof (next_faces_where (λ n, n >= 2) dice) as Hn.
  destruct (next (faces_where (λ n, n >= 2) dice)) as [[a g]|]; simpl.
  - destruct Hn as (Ha & Ha6 & Hmax & Hn).
    destruct (next g) as [[b g']|]; simpl.
    + destruct Hn as (Hb & Hba & Hmaxb). split.
      * intros f1 f2 Hgt H1 H2 Htop.
        assert (1 <= f1 <= 6) by (apply (roll_face dice); [done|lia]).
        assert (1 <= f2 <= 6) by (apply (roll_face dice); [done|lia]).
        assert (f1 = a) as -> by
          (pose proof (Htop a Ha); pose proof (Hmax f1); lia).
        assert (f2 = b) as -> by
          (pose proof (Htop b Hb); pose proof (Hmaxb f2); lia).
        lia.
      * intros Hone. specialize (Hone a b Ha Hb). lia.
    + split; [|done]. intros f1 f2 Hgt H1 H2 _.
      assert (1 <= f1 <= 6) by (apply (roll_face dice); [done|lia]).
      assert (1 <= f2 <= 6) by (apply (roll_face dice); [done|lia]).
      pose proof (Hmax f1). destruct (Hn f2); [lia|done].
  - split; [|done]. intros f1 f2 _ H1 _ _.
    destruct (Hn f1); [|done]. apply (roll_face dice); [done|lia].
Qed.

Lemma two_pairs_score_witness : compute TWO_PAIRS [5; 2; 6; 2; 5] = 2 * (5 + 2).
Proof.
  apply (proj1 two_pairs_score [5; 2; 6; 2; 5]).
  - split; [reflexivity|]. repeat constructor; lia.
  - lia.
  - vm_compute. discriminate.
  - vm_compute. discriminate.
  - intros f Hf.
    assert (1 <= f <= 6) as Hr.
    { apply (roll_face [5; 2; 6; 2; 5]); [|lia].
      split; [reflexivity|]. repeat constructor; lia. }
    assert (f = 1 ∨ f = 2 ∨ f = 3 ∨ f = 4 ∨ f = 5 ∨ f = 6) as Hc by lia.
    destruct Hc as [->|[->|[->|[->|[->| ->]]]]];
      first [lia | exfalso; apply Hf; reflexivity].
Defined.

(** C8.  On every category and every roll of five dice [compute] yields a
    value, the same for the same arguments, between 0 and 50; only Yatzy
    yields 50, and it does so on five equal dice. *)
Theorem compute_range :
  (∀ c dice, is_roll dice →
     (∃ v, compute c dice = v ∧ 0 <= v <= 50)
     ∧ (compute c dice = 50 → c = YATZY))
  ∧ (∀ c dice1 dice2, dice1 = dice2 → compute c dice1 = compute c dice2)
  ∧ compute YATZY [4; 4; 4; 4; 4] = 50.
Proof.
  split_and!; [|by intros c ? ? ->|vm_compute; reflexivity].
  intros c dice Hroll.
  assert (compute c dice = 50 ∧ c = YATZY
          ∨ 0 <= compute c dice <= 30) as Hc.
  { pose proof (roll_sum dice Hroll) as Hs. destruct Hroll as [Hl _].
    assert (∀ x, 0 <= count x dice <= 5) as Hcnt
      by (intros x; pose proof (count_bounds x dice); lia).
    assert (∀ (P : Z → Prop) `{∀ n, Decision (P n)} k, 0 <= k <= 4 →
              0 <= except_StopIteration
                     ('(a, _) ← next (faces_where P dice); Some (a * k))
                <= 30) as Hgen.
    { intros P ? k Hk. pose proof (next_faces_where P dice) as Hn.
      destruct (next (faces_where P dice)) as [[a g]|]; simpl; [|lia].
      destruct Hn as (_ & ? & _). nia. }
    destruct c; unfold compute; try (right; apply Hgen; lia).
    - right. specialize (Hcnt 1). lia.
    - right. specialize (Hcnt 2). lia.
    - right. specialize (Hcnt 3). lia.
    - right. specialize (Hcnt 4). lia.
    - right. specialize (Hcnt 5). lia.
    - right. specialize (Hcnt 6). lia.
    - right. pose proof (next_faces_where (λ n, n >= 2) dice) as Hn.
      destruct (next (faces_where _ dice)) as [[a g]|]; simpl; [|lia].
      destruct Hn as (_ & ? & _ & Hn).
      destruct (next g) as [[b ?]|]; simpl; [|lia].
      destruct Hn as (_ & ? & _). lia.
    - right. case_bool_decide; lia.
    - right. case_bool_decide; lia.
    - right.
      destruct (next (faces_where (λ n, n = 2) dice)) as [[? ?]|]; simpl; [|lia].
      destruct (next (faces_where (λ n, n = 3) dice)) as [[? ?]|]; simpl; lia.
    - right. lia.
    - case_bool_decide; [left; done|right; lia]. }
  split; [exists (compute c dice); split; [done|]|]; destruct Hc as [[? ?]|?];
    auto; lia.
Qed.

Lemma compute_range_witness :
  (∃ v, compute CHANCE [1; 6; 3; 3; 2] = v ∧ 0 <= v <= 50)
  ∧ (compute CHANCE [1; 6; 3; 3; 2] = 50 → CHANCE = YATZY).
Proof.
  apply (proj1 compute_range CHANCE [1; 6; 3; 3; 2]).
  split; [reflexivity|]. repeat constructor; lia.
Defined.

Example compute_small_straight :
  compute SSTRAIGHT [1; 2; 3; 4; 5] = 15 ∧ compute LSTRAIGHT [1; 2; 3; 4; 5] = 0.
Proof. split; vm_compute; reflexivity. Qed.

Example compute_large_straight :
  compute SSTRAIGHT [2; 3; 4; 5; 6] = 0 ∧ compute LSTRAIGHT [2; 3; 4; 5; 6] = 20.
Proof. split; vm_compute; reflexivity. Qed.

(** ** More on scoring *)

Lemma sum_cons d dice : sum (d :: dice) = d + sum dice.
Proof. reflexivity. Qed.

Lemma sum_filter_face k dice :
  sum (filter (λ d, d = k) dice) = k * count k dice.
Proof.
  induction dice as [|d dice IH]; [rewrite count_nil; simpl; lia|].
  rewrite count_cons, filter_cons. case_decide; [subst; rewrite sum_cons|]; lia.
Qed.

(** The dice that show one face, or one of two faces, are part of the
    sum. *)
Lemma sum_two_faces f1 f2 dice :
  f1 ≠ f2 → Forall (λ d, 1 <= d <= 6) dice →
  f1 * count f1 dice + f2 * count f2 dice <= sum dice.
Proof.
  intros Hne. induction 1 as [|d dice Hd _ IH]; [rewrite !count_nil; simpl; lia|].
  rewrite !count_cons, sum_cons. repeat case_decide; subst; lia.
Qed.

Lemma sum_one_face f dice :
  Forall (λ d, 1 <= d <= 6) dice → f * count f dice <= sum dice.
Proof.
  induction 1 as [|d dice Hd _ IH]; [rewrite !count_nil; simpl; lia|].
  rewrite !count_cons, sum_cons. repeat case_decide; subst; lia.
Qed.

Lemma count_Permutation x d1 d2 : d1 ≡ₚ d2 → count x d1 = count x d2.
Proof. intros Hp. unfold count. by rewrite Hp. Qed.

Lemma sum_Permutation d1 d2 : d1 ≡ₚ d2 → sum d1 = sum d2.
Proof.
  induction 1 as [|x l l' _ IH|x y l|l l' l'' _ IH1 _ IH2];
    rewrite ?sum_cons; [done|lia|lia|congruence].
Qed.

Lemma faces_where_Permutation (P : Z → Prop) `{∀ n, Decision (P n)} d1 d2 :
  d1 ≡ₚ d2 → faces_where P d1 = faces_where P d2.
Proof.
  intros Hp. unfold faces_where. apply list_filter_iff.
  intros x. by rewrite (count_Permutation x d1 d2 Hp).
Qed.

(** Five dice that show five given distinct faces are those faces in some
    order. *)
Lemma set_of_Permutation dice l :
  NoDup l → length dice = length l →
  set_of dice = list_to_set l ↔ dice ≡ₚ l.
Proof.
  intros Hnd Hlen. unfold set_of. split.
  - intros Hset. symmetry. apply submseteq_length_Permutation; [|lia].
    apply NoDup_submseteq; [done|].
    intros x Hx. apply (elem_of_list_to_set (C:=gset Z)).
    rewrite Hset. by apply elem_of_list_to_set.
  - intros Hp. by apply list_to_set_perm_L.
Qed.

Lemma straight_sum dice l :
  NoDup l → length dice = length l → set_of dice = list_to_set l →
  sum dice = sum l.
Proof.
  intros Hnd Hlen Hset. apply sum_Permutation.
  by apply set_of_Permutation.
Qed.

Lemma compute_le_sum c dice :
  is_roll dice → c ≠ YATZY → compute c dice <= sum dice.
Proof.
  intros Hroll Hc. pose proof Hroll as [Hlen Hf].
  pose proof (roll_sum dice Hroll) as Hsum.
  pose proof (λ f, sum_one_face f dice Hf) as H1.
  destruct c; try done; unfold compute.
  - specialize (H1 1). lia.
  - specialize (H1 2). lia.
  - specialize (H1 3). lia.
  - specialize (H1 4). lia.
  - specialize (H1 5). lia.
  - specialize (H1 6). lia.
  - pose proof (next_faces_where (λ n, n >= 2) dice) as Hn.
    destruct (next _) as [[a g]|]; simpl; [|lia].
    destruct Hn as (Ha & ? & _). specialize (H1 a). nia.
  - pose proof (next_faces_where (λ n, n >= 2) dice) as Hn.
    destruct (next _) as [[a g]|]; simpl; [|lia].
    destruct Hn as (Ha & ? & _ & Hn).
    destruct (next g) as [[b g']|]; simpl; [|lia].
    destruct Hn as (Hb & ? & _).
    pose proof (sum_two_faces a b dice ltac:(lia) Hf). nia.
  - pose proof (next_faces_where (λ n, n >= 3) dice) as Hn.
    destruct (next _) as [[a g]|]; simpl; [|lia].
    destruct Hn as (Ha & ? & _). specialize (H1 a). nia.
  - pose proof (next_faces_where (λ n, n >= 4) dice) as Hn.
    destruct (next _) as [[a g]|]; simpl; [|lia].
    destruct Hn as (Ha & ? & _). specialize (H1 a). nia.
  - case_bool_decide as Hset; [|lia].
    rewrite (straight_sum dice [1; 2; 3; 4; 5]); [unfold sum; simpl; lia| |done|].
    + apply (bool_decide_unpack _); vm_compute; exact I.
    + simpl. by rewrite (right_id_L ∅ (∪)).
  - case_bool_decide as Hset; [|lia].
    rewrite (straight_sum dice [2; 3; 4; 5; 6]); [unfold sum; simpl; lia| |done|].
    + apply (bool_decide_unpack _); vm_compute; exact I.
    + simpl. by rewrite (right_id_L ∅ (∪)).
  - destruct (next (faces_where (λ n, n = 2) dice)) as [[? ?]|]; simpl;
      [|lia].
    destruct (next (faces_where (λ n, n = 3) dice)) as [[? ?]|]; simpl; lia.
Qed.

Lemma compute_nonneg c dice : is_roll dice → 0 <= compute c dice.
Proof.
  intros Hroll. pose proof (roll_sum dice Hroll) as Hsum.
  pose proof (λ f, count_bounds f dice) as Hc.
  destruct c; unfold compute.
  - specialize (Hc 1). lia.
  - specialize (Hc 2). lia.
  - specialize (Hc 3). lia.
  - specialize (Hc 4). lia.
  - specialize (Hc 5). lia.
  - specialize (Hc 6). lia.
  - pose proof (next_faces_where (λ n, n >= 2) dice) as Hn.
    destruct (next _) as [[a g]|]; simpl; [|lia].
    destruct Hn as (_ & ? & _). lia.
  - pose proof (next_faces_where (λ n, n >= 2) dice) as Hn.
    destruct (next _) as [[a g]|]; simpl; [|lia].
    destruct Hn as (_ & ? & _ & Hn).
    destruct (next g) as [[b g']|]; simpl; [|lia].
    destruct Hn as (_ & ? & _). lia.
  - pose proof (next_faces_where (λ n, n >= 3) dice) as Hn.
    destruct (next _) as [[a g]|]; simpl; [|lia].
    destruct Hn as (_ & ? & _). lia.
  - pose proof (next_faces_where (λ n, n >= 4) dice) as Hn.
    destruct (next _) as [[a g]|]; simpl; [|lia].
    destruct Hn as (_ & ? & _). lia.
  - case_bool_decide; lia.
  - case_bool_decide; lia.
  - destruct (next (faces_where (λ n, n = 2) dice)) as [[? ?]|]; simpl;
      [|lia].
    destruct (next (faces_where (λ n, n = 3) dice)) as [[? ?]|]; simpl; lia.
  - lia.
  - case_bool_decide; lia.
Qed.

Lemma compute_bounds c dice : is_roll dice → 0 <= compute c dice <= 50.
Proof.
  intros Hroll. split; [by apply compute_nonneg|].
  destruct (decide (c = YATZY)) as [->|Hc].
  - unfold compute. case_bool_decide; lia.
  - pose proof (compute_le_sum c dice Hroll Hc).
    pose proof (roll_sum dice Hroll). lia.
Qed.

(** X1.  A category of the upper section scores its face times the number of
    dice that show it, which is the sum of those dice; the other dice add
    nothing. *)
Theorem compute_upper_section c k dice :
  upper_face c = Some k →
  compute c dice = k * count k dice
  ∧ compute c dice = sum (filter (λ d, d = k) dice).
Proof.
  intros Hc. rewrite sum_filter_face.
  assert (compute c dice = k * count k dice) as ->; [|done].
  destruct c; simplify_eq/=; lia.
Qed.

Lemma compute_upper_section_witness :
  compute FOURS [4; 1; 4; 6; 4] = 4 * count 4 [4; 1; 4; 6; 4]
  ∧ compute FOURS [4; 1; 4; 6; 4]
    = sum (filter (λ d, d = 4) [4; 1; 4; 6; 4]).
Proof. apply (compute_upper_section FOURS 4 [4; 1; 4; 6; 4]). reflexivity. Defined.

(** X2.  One Pair, Three of a Kind and Four of a Kind score, on a roll, 2, 3
    and 4 times the highest face that shows at least that often, also when
    it shows more often, and 0 when no face does. *)
Theorem compute_of_a_kind c m dice :
  of_a_kind c = Some m → is_roll dice →
  (∀ f, count f dice >= m → (∀ x, count x dice >= m → x <= f) →
        compute c dice = m * f)
  ∧ ((∀ f, count f dice < m) → compute c dice = 0).
Proof.
  intros Hc Hroll.
  assert (2 <= m) as Hm by (destruct c; simplify_eq/=; lia).
  assert (compute c dice
          = except_StopIteration
              ('(a, _) ← next (faces_where (λ n, n >= m) dice); Some (a * m)))
    as -> by (destruct c; simplify_eq/=; done).
  pose proof (next_faces_where (λ n, n >= m) dice) as Hnext.
  destruct (next (faces_where (λ n, n >= m) dice)) as [[a g]|]; simpl.
  - destruct Hnext as (Ha & Hra & Hmax & _). split.
    + intros f Hf Hbest. pose proof (Hbest a Ha).
      assert (1 <= f <= 6) by (apply (roll_face dice); [done|lia]).
      pose proof (Hmax f ltac:(done) Hf). assert (a = f) as -> by lia. lia.
    + intros Hnone. specialize (Hnone a). lia.
  - split; [|done]. intros f Hf _.
    assert (1 <= f <= 6) by (apply (roll_face dice); [done|lia]).
    by destruct (Hnext f).
Qed.

Lemma compute_of_a_kind_witness :
  compute TOAK [5; 2; 5; 5; 5] = 3 * 5.
Proof.
  apply (proj1 (compute_of_a_kind TOAK 3 [5; 2; 5; 5; 5] eq_refl
                  ltac:(split; [reflexivity|repeat constructor; lia]))).
  - vm_compute. discriminate.
  - intros x Hx.
    assert (0 < count x [5; 2; 5; 5; 5]) as Hin by lia.
    apply count_pos_elem in Hin.
    repeat (apply elem_of_cons in Hin as [->|Hin]; [lia|]).
    by apply elem_of_nil in Hin.
Defined.

(** X3.  Five dice score the Small Straight exactly when they are 1 to 5 in
    some order, and the Large Straight exactly when they are 2 to 6 in some
    order; any other five dice score 0 there. *)
Theorem compute_straights dice :
  length dice = 5%nat →
  (dice ≡ₚ [1; 2; 3; 4; 5] → compute SSTRAIGHT dice = 15)
  ∧ (¬ dice ≡ₚ [1; 2; 3; 4; 5] → compute SSTRAIGHT dice = 0)
  ∧ (dice ≡ₚ [2; 3; 4; 5; 6] → compute LSTRAIGHT dice = 20)
  ∧ (¬ dice ≡ₚ [2; 3; 4; 5; 6] → compute LSTRAIGHT dice = 0).
Proof.
  intros Hlen.
  assert (NoDup [1; 2; 3; 4; 5]) as Hs
    by (apply (bool_decide_unpack _); vm_compute; exact I).
  assert (NoDup [2; 3; 4; 5; 6]) as Hl
    by (apply (bool_decide_unpack _); vm_compute; exact I).
  pose proof (set_of_Permutation dice _ Hs Hlen) as Hss.
  pose proof (set_of_Permutation dice _ Hl Hlen) as Hls.
  assert (list_to_set [1; 2; 3; 4; 5] = ({[1; 2; 3; 4; 5]} : gset Z)) as E1
    by (simpl; by rewrite (right_id_L ∅ (∪))).
  assert (list_to_set [2; 3; 4; 5; 6] = ({[2; 3; 4; 5; 6]} : gset Z)) as E2
    by (simpl; by rewrite (right_id_L ∅ (∪))).
  rewrite E1 in Hss. rewrite E2 in Hls. simpl.
  split_and!; intros Hp; case_bool_decide as Hset; try done.
  - by apply Hss in Hp.
  - by apply Hss in Hset.
  - by apply Hls in Hp.
  - by apply Hls in Hset.
Qed.

Lemma compute_straights_witness :
  compute SSTRAIGHT [2; 1; 3; 4; 5] = 15
  ∧ compute LSTRAIGHT [2; 1; 3; 4; 5] = 0.
Proof.
  destruct (compute_straights [2; 1; 3; 4; 5] eq_refl) as (H1 & _ & _ & H4).
  split.
  - apply H1, Permutation_swap.
  - apply H4. intros Hp.
    assert (1 ∈ [2; 3; 4; 5; 6]) as Hin by (rewrite <- Hp; right; left).
    repeat (apply elem_of_cons in Hin as [Hin|Hin]; [lia|]).
    by apply elem_of_nil in Hin.
Defined.

(** X4.  The score of a roll does not depend on the order of the dice. *)
Theorem compute_Permutation c d1 d2 :
  d1 ≡ₚ d2 → compute c d1 = compute c d2.
Proof.
  intros Hp. unfold compute.
  rewrite !(count_Permutation _ d1 d2 Hp), (sum_Permutation d1 d2 Hp),
    !(faces_where_Permutation _ d1 d2 Hp).
  unfold set_of. by rewrite (list_to_set_perm_L d1 d2 Hp).
Qed.

Lemma compute_Permutation_witness :
  compute FHOUSE [2; 3; 2; 3; 3] = compute FHOUSE [3; 2; 2; 3; 3].
Proof. apply compute_Permutation, Permutation_swap. Defined.

(** X5.  On a roll, no category but Yatzy scores more than Chance, the sum of
    the dice. *)
Theorem chance_scores_most c dice :
  is_roll dice → c ≠ YATZY → compute c dice <= compute CHANCE dice.
Proof. apply compute_le_sum. Qed.

Lemma chance_scores_most_witness :
  compute FOAK [6; 6; 6; 6; 1] <= compute CHANCE [6; 6; 6; 6; 1].
Proof.
  apply chance_scores_most; [|discriminate].
  split; [reflexivity|repeat constructor; lia].
Defined.

(** X6.  Yatzy scores 50 exactly on dice that all show one face, and 0 on any
    others. *)
Theorem compute_yatzy dice :
  dice ≠ [] →
  (Forall (λ d, Some d = head dice) dice → compute YATZY dice = 50)
  ∧ (¬ Forall (λ d, Some d = head dice) dice → compute YATZY dice = 0).
Proof.
  intros Hne. unfold compute, set_of.
  destruct dice as [|f dice]; [done|]. simpl head.
  split; intros Hall; case_bool_decide as Hsize; try done; exfalso.
  - apply Hsize.
    assert (list_to_set (f :: dice) = ({[f]} : gset Z)) as ->;
      [|apply size_singleton].
    apply set_eq. intros x.
    rewrite elem_of_list_to_set, elem_of_singleton. split.
    + intros Hx. rewrite Forall_forall in Hall.
      apply Hall in Hx. simpl in Hx. congruence.
    + intros ->. left.
  - apply Hall. apply size_1_elem_of in Hsize as [x Hx].
    apply Forall_forall. intros d Hd.
    assert (d ∈ (list_to_set (f :: dice) : gset Z)) as Hd'
      by by apply elem_of_list_to_set.
    assert (f ∈ (list_to_set (f :: dice) : gset Z)) as Hf'
      by (apply elem_of_list_to_set; left).
    rewrite Hx in Hd', Hf'. apply elem_of_singleton in Hd', Hf'.
    simpl. congruence.
Qed.

Lemma compute_yatzy_witness :
  compute YATZY [3; 3; 3; 3; 3] = 50 ∧ compute YATZY [3; 3; 3; 3; 4] = 0.
Proof.
  split.
  - apply (proj1 (compute_yatzy [3; 3; 3; 3; 3] ltac:(discriminate))).
    repeat constructor.
  - apply (proj2 (compute_yatzy [3; 3; 3; 3; 4] ltac:(discriminate))).
    intros H. rewrite Forall_forall in H.
    specialize (H 4 ltac:(do 4 right; left)). discriminate.
Defined.

(** ** Score sheets *)

Lemma entries_sum_empty (P : Category → Prop) `{∀ c, Decision (P c)} :
  entries_sum P ∅ = 0.
Proof. unfold entries_sum. apply map_fold_empty. Qed.

Lemma entries_sum_insert (P : Category → Prop) `{∀ c, Decision (P c)}
    (sheet : ScoreSheet) c v :
  sheet !! c = None →
  entries_sum P (<[c := v]> sheet)
  = (if decide (P c) then v else 0) + entries_sum P sheet.
Proof.
  intros Hc. unfold entries_sum. rewrite map_fold_insert_L; [|..|done].
  - case_decide; lia.
  - intros. repeat case_decide; lia.
Qed.

(** Summing [get] over a list of distinct categories adds up the entries
    of the sheet that belong to the list. *)
Lemma sum_get_entries (P : Category → Prop) `{∀ c, Decision (P c)}
    (l : list Category) (sheet : ScoreSheet) :
  NoDup l → (∀ c, c ∈ l ↔ P c) →
  sum ((λ c, get sheet c 0) <$> l) = entries_sum P sheet.
Proof.
  intros Hnd HP. induction sheet as [|c v sheet Hc IH] using map_ind.
  - rewrite entries_sum_empty. clear. induction l as [|c l IH]; [done|].
    rewrite fmap_cons. change (get ∅ c 0 + sum ((λ c, get ∅ c 0) <$> l) = 0).
    rewrite IH. unfold get. by rewrite lookup_empty.
  - rewrite entries_sum_insert by done. rewrite <- IH.
    destruct (decide (P c)) as [Hin%HP|Hout].
    + clear IH HP. induction Hnd as [|c' l Hc' Hnd IH]; [by apply elem_of_nil in Hin|].
      rewrite !fmap_cons.
      change (sum (?a :: ?b)) with (a + sum b). unfold get at 1 3.
      destruct (decide (c' = c)) as [->|Hne].
      * rewrite lookup_insert_eq, Hc. simpl.
        assert (sum ((λ c0, get (<[c:=v]> sheet) c0 0) <$> l)
                = sum ((λ c0, get sheet c0 0) <$> l)) as ->; [|lia].
        f_equal. apply list_fmap_ext. intros i c0 Hi.
        unfold get. rewrite lookup_insert_ne; [done|].
        intros <-. apply Hc'. eapply list_elem_of_lookup_2; eauto.
      * rewrite lookup_insert_ne by done.
        apply elem_of_cons in Hin as [?|Hin]; [congruence|].
        rewrite (IH Hin). lia.
    + assert (c ∉ l) as Hn by (by rewrite HP).
      rewrite Z.add_0_l. f_equal. apply list_fmap_ext. intros i c0 Hi.
      unfold get. rewrite lookup_insert_ne; [done|].
      intros <-. apply Hn. eapply list_elem_of_lookup_2; eauto.
Qed.

Lemma elem_of_LOWER_SECTION c : c ∈ LOWER_SECTION ↔ c ∉ UPPER_SECTION.
Proof.
  unfold LOWER_SECTION. rewrite list_elem_of_filter.
  split; [tauto|]. intros ?. split; [done|].
  destruct c; apply (bool_decide_unpack _); vm_compute; exact I.
Qed.

(** C9.  The total of a sheet is [lower_sum + upper_sum + bonus]: the
    upper sum adds the entries of Ones to Sixes, the lower sum adds all
    other entries, categories without an entry add nothing, and the bonus
    is 50 exactly when the upper sum is at least 63 and 0 otherwise; upper
    entries that sum to 63 earn the bonus, to 62 they do not. *)
Theorem total_spec :
  (∀ sheet : ScoreSheet,
     let upper_sum := entries_sum (λ c, c ∈ UPPER_SECTION) sheet in
     let lower_sum := entries_sum (λ c, c ∉ UPPER_SECTION) sheet in
     ∃ bonus,
       total sheet = lower_sum + upper_sum + bonus
       ∧ (bonus = 50 ∨ bonus = 0)
       ∧ (bonus = 50 ↔ upper_sum >= 63))
  ∧ total {[ONES := 3; TWOS := 6; THREES := 9; FOURS := 12; FIVES := 15;
            SIXES := 18]} = 63 + 50
  ∧ total {[ONES := 2; TWOS := 6; THREES := 9; FOURS := 12; FIVES := 15;
            SIXES := 18]} = 62
  ∧ total (∅ : ScoreSheet) = 0.
Proof.
  split; [|split_and!; vm_compute; reflexivity].
  intros sheet upper_sum lower_sum. unfold total.
  rewrite (sum_get_entries (λ c, c ∈ UPPER_SECTION) UPPER_SECTION);
    [|apply (bool_decide_unpack _); vm_compute; exact I|done].
  rewrite (sum_get_entries (λ c, c ∉ UPPER_SECTION) LOWER_SECTION);
    [|apply (bool_decide_unpack _); vm_compute; exact I
     |apply elem_of_LOWER_SECTION].
  fold upper_sum lower_sum.
  exists (if decide (upper_sum >= 63) then 50 else 0).
  case_decide; split_and!; auto; split; intros; lia.
Qed.

(** ** More on score sheets *)

Lemma total_entries_sum (sheet : ScoreSheet) :
  total sheet
  = entries_sum (λ c, c ∉ UPPER_SECTION) sheet
    + entries_sum (λ c, c ∈ UPPER_SECTION) sheet
    + (if decide (entries_sum (λ c, c ∈ UPPER_SECTION) sheet >= 63)
       then 50 else 0).
Proof.
  unfold total.
  rewrite (sum_get_entries (λ c, c ∈ UPPER_SECTION) UPPER_SECTION);
    [|apply (bool_decide_unpack _); vm_compute; exact I|done].
  by rewrite (sum_get_entries (λ c, c ∉ UPPER_SECTION) LOWER_SECTION);
    [|apply (bool_decide_unpack _); vm_compute; exact I
     |apply elem_of_LOWER_SECTION].
Qed.

(** X7.  Scoring [v] points, not negative, in a category that the sheet does
    not hold yet raises the total by [v], and by 50 more when the category
    is of the upper section and takes the upper sum from below 63 to 63 or
    more.  The total never goes down. *)
Theorem total_setitem (sheet : ScoreSheet) c v :
  sheet !! c = None → 0 <= v →
  let upper := entries_sum (λ c, c ∈ UPPER_SECTION) sheet in
  total (setitem sheet c v)
  = total sheet + v
    + (if decide (c ∈ UPPER_SECTION ∧ upper < 63 <= upper + v)
       then 50 else 0)
  ∧ total sheet <= total (setitem sheet c v).
Proof.
  intros Hc Hv upper.
  assert (total (setitem sheet c v)
          = total sheet + v
            + (if decide (c ∈ UPPER_SECTION ∧ upper < 63 <= upper + v)
               then 50 else 0)) as ->; [|case_decide; lia].
  unfold setitem. rewrite !total_entries_sum, !entries_sum_insert by done.
  fold upper. repeat case_decide; intuition lia.
Qed.

Lemma total_setitem_witness :
  total (setitem sheet_45 SIXES 18) = total sheet_45 + 18 + 50.
Proof.
  assert (sheet_45 !! SIXES = None) as Hc by (vm_compute; reflexivity).
  destruct (total_setitem sheet_45 SIXES 18 Hc ltac:(lia)) as [H _].
  rewrite H. vm_compute. reflexivity.
Defined.

(** ** Dice *)

Lemma randint_range a b g : a <= b → a <= (randint a b g).1 <= b.
Proof.
  intros Hab. unfold randint. simpl.
  pose proof (Z.mod_pos_bound (supply g (used g)) (b - a + 1)). lia.
Qed.

Lemma randint_supply a b g : supply (randint a b g).2 = supply g.
Proof. reflexivity. Qed.

Lemma randints_spec n g :
  length (randints n g).1 = n ∧ Forall (λ d, 1 <= d <= 6) (randints n g).1.
Proof.
  revert g. induction n as [|n IH]; intros g; simpl; [by split|].
  destruct (randints n _) as [l g'] eqn:Hr. simpl.
  specialize (IH {| supply := supply g; used := S (used g) |}).
  rewrite Hr in IH. destruct IH as [IH1 IH2]. simpl in *.
  split; [by rewrite IH1|]. constructor; [|done].
  pose proof (Z.mod_pos_bound (supply g (used g)) (6 - 1 + 1)). lia.
Qed.

Lemma DiceState_init_spec g :
  let d := (DiceState_init g).1 in
  is_roll (dice d) ∧ rollmsk d = 0 ∧ rolls d = 2.
Proof.
  unfold DiceState_init. pose proof (randints_spec 5 g) as [? ?].
  destruct (randints 5 g). simpl in *. done.
Qed.

Lemma testbit_lxor_pow2 m n i :
  0 <= n → 0 <= i →
  Z.testbit (Z.lxor m (2 ^ n)) i = xorb (Z.testbit m i) (bool_decide (i = n)).
Proof.
  intros Hn Hi. rewrite Z.lxor_spec, Z.pow2_bits_eqb by done.
  f_equal. case_bool_decide; [subst; apply Z.eqb_refl|by apply Z.eqb_neq].
Qed.

Lemma lxor_top_bit m :
  0 < m → Z.lxor m (2 ^ Z.log2 m) = m - 2 ^ Z.log2 m.
Proof.
  intros Hm. pose proof (Z.log2_nonneg m).
  assert (Z.land (Z.lxor m (2 ^ Z.log2 m)) (2 ^ Z.log2 m) = 0) as H0.
  { apply Z.bits_inj'. intros j Hj.
    rewrite Z.land_spec, testbit_lxor_pow2, Z.bits_0, Z.pow2_bits_eqb by done.
    case_bool_decide as Hjn.
    - subst. rewrite Z.bit_log2 by done. reflexivity.
    - apply not_eq_sym, Z.eqb_neq in Hjn. rewrite Hjn. apply andb_false_r. }
  apply Z.add_nocarry_lxor in H0.
  rewrite Z.lxor_assoc, Z.lxor_nilpotent, Z.lxor_0_r in H0. lia.
Qed.

Lemma setitem_list_Ok {A} (l d : list A) i x :
  0 <= i → setitem_list l i x = Ok d →
  i < Z.of_nat (length l) ∧ d = <[Z.to_nat i := x]> l.
Proof.
  intros Hi. unfold setitem_list.
  destruct (decide (i < 0)); [lia|]. case_decide; [|done].
  intros [= <-]. split; [lia|done].
Qed.

Lemma setitem_list_Raise {A} (l : list A) i x e :
  0 <= i → setitem_list l i x = Raise e →
  e = IndexError ∧ Z.of_nat (length l) <= i.
Proof.
  intros Hi. unfold setitem_list.
  destruct (decide (i < 0)); [lia|]. case_decide; [done|].
  intros [= <-]. split; [done|lia].
Qed.

Lemma bit_length_pos m : 0 < m → bit_length m - 1 = Z.log2 m.
Proof.
  intros Hm. unfold bit_length. destruct (decide (m = 0)); [lia|].
  rewrite Z.abs_eq by lia. lia.
Qed.

Lemma bit_length_nonneg m : m ≠ 0 → 0 <= bit_length m - 1.
Proof.
  intros Hm. unfold bit_length. destruct (decide (m = 0)); [done|].
  pose proof (Z.log2_nonneg (Z.abs m)). lia.
Qed.

(** What one pass of the loop does when the highest selected die
    exists. *)
Lemma reroll_pass_Ok self g self' g' :
  rollmsk self ≠ 0 → reroll_pass self g = Ok (self', g') →
  let n := bit_length (rollmsk self) - 1 in
  0 <= n ∧ n < Z.of_nat (length (dice self))
  ∧ dice self' = <[Z.to_nat n := (randint 1 6 g).1]> (dice self)
  ∧ rollmsk self' = Z.lxor (rollmsk self) (2 ^ n)
  ∧ rolls self' = rolls self
  ∧ g' = (randint 1 6 g).2.
Proof.
  intros Hm. pose proof (bit_length_nonneg _ Hm) as Hn0.
  unfold reroll_pass. simpl.
  destruct (setitem_list _ _ _) as [d|] eqn:Hset; [|done].
  apply setitem_list_Ok in Hset as [Hlen ->]; [|done].
  intros [= <- <-]. simpl. by rewrite Z.shiftl_1_l.
Qed.

Lemma reroll_pass_Raise self g e :
  rollmsk self ≠ 0 → reroll_pass self g = Raise e →
  0 <= bit_length (rollmsk self) - 1 ∧ e = IndexError
  ∧ Z.of_nat (length (dice self)) <= bit_length (rollmsk self) - 1.
Proof.
  intros Hm. pose proof (bit_length_nonneg _ Hm) as Hn0.
  unfold reroll_pass. simpl.
  destruct (setitem_list _ _ _) as [d|] eqn:Hset; [done|].
  apply setitem_list_Raise in Hset as [-> Hlen]; [|done].
  by intros [= <-].
Qed.

(** What the loop of [reroll_dice] does, for every dice state: it comes to
    an end exactly on the masks that select dice that exist; it then has
    cleared the mask, left the unselected dice alone and given every
    selected die a face from 1 to 6. *)
Lemma reroll_loop_spec self g :
  match reroll_loop self g with
  | Ok (self', g') =>
      0 <= rollmsk self < 2 ^ Z.of_nat (length (dice self))
      ∧ rollmsk self' = 0 ∧ rolls self' = rolls self
      ∧ length (dice self') = length (dice self)
      ∧ (∀ i, Z.testbit (rollmsk self) (Z.of_nat i) = false →
              dice self' !! i = dice self !! i)
      ∧ (∀ i v, Z.testbit (rollmsk self) (Z.of_nat i) = true →
                dice self' !! i = Some v → 1 <= v <= 6)
      ∧ supply g' = supply g
  | Raise e =>
      e = IndexError ∧ ¬ 0 <= rollmsk self < 2 ^ Z.of_nat (length (dice self))
  end.
Proof.
  funelim (reroll_loop self g).
  - rewrite e.
    assert (0 < 2 ^ Z.of_nat (length (dice self)))
      by (apply Z.pow_pos_nonneg; lia).
    split_and!; try done; try lia.
    intros i v. rewrite Z.bits_0. done.
  - clear Heqcall H0 Heq. rename H into IH.
    apply reroll_pass_Ok in Hpass as (Hn0 & Hlen & Hd & Hm & Hr & ->);
      [|done].
    rewrite Hd, Hm, Hr, length_insert in IH.
    pose proof (randint_range 1 6 g ltac:(lia)) as Hv.
    set (len := Z.of_nat (length (dice self))) in *.
    destruct (reroll_loop _ _) as [[self'' g'']|e'].
    + destruct IH as ([Hx0 Hx1] & Hm0 & Hro & Hl & Hkeep & Hnew & Hsup).
      assert (0 < rollmsk self) as Hpos.
      { apply Z.lxor_nonneg in Hx0. cut (0 <= rollmsk self); [lia|].
        apply Hx0. apply Z.pow_nonneg. lia. }
      rewrite bit_length_pos in * by done.
      destruct (Z.log2_spec _ Hpos) as [Hlo Hhi].
      assert (2 ^ Z.succ (Z.log2 (rollmsk self)) <= 2 ^ len)
        by (apply Z.pow_le_mono_r; lia).
      split_and!; [lia|lia|done..| | |done].
      * intros i Hi.
        assert (Z.of_nat i ≠ Z.log2 (rollmsk self)) as Hne
          by (intros Hq; rewrite Hq, Z.bit_log2 in Hi; done).
        rewrite Hkeep.
        -- apply list_lookup_insert_ne. lia.
        -- rewrite testbit_lxor_pow2, Hi by lia. by case_bool_decide.
      * intros i v Hi Hv'.
        destruct (decide (Z.of_nat i = Z.log2 (rollmsk self))) as [Hq|Hne].
        -- rewrite Hkeep in Hv'.
           ++ rewrite <- Hq, Nat2Z.id, list_lookup_insert_eq in Hv' by lia.
              injection Hv' as <-. done.
           ++ rewrite testbit_lxor_pow2, Hi by lia. by case_bool_decide.
        -- apply (Hnew i v); [|done].
           rewrite testbit_lxor_pow2, Hi by lia. by case_bool_decide.
    + destruct IH as [-> Hout]. split; [done|]. intros [Hx0 Hx1].
      assert (0 < rollmsk self) as Hpos by lia.
      rewrite bit_length_pos in * by done.
      destruct (Z.log2_spec _ Hpos) as [Hlo Hhi].
      apply Hout. rewrite lxor_top_bit by done. lia.
  - clear Heqcall H Heq.
    match goal with H : reroll_pass _ _ = Raise _ |- _ =>
      apply reroll_pass_Raise in H as (Hn0 & -> & Hlen); [|done]
    end.
    split; [done|]. intros [Hx0 Hx1].
    assert (0 < rollmsk self) as Hpos by lia.
    rewrite bit_length_pos in * by done.
    destruct (Z.log2_spec _ Hpos) as [Hlo Hhi].
    assert (2 ^ Z.of_nat (length (dice self)) <= 2 ^ Z.log2 (rollmsk self))
      by (apply Z.pow_le_mono_r; lia).
    lia.
Qed.

(** ** The running tally *)

Section sorted_spec.
Context {A : Type} (key : A → Z) (lt : A → A → bool).
Context (ge : A → A → Prop).
Hypothesis lt_key : ∀ x y, lt x y = bool_decide (key x < key y).
Hypothesis ge_key : ∀ x y, ge x y ↔ key x >= key y.

Lemma insert_reverse_Permutation x l : insert_reverse lt x l ≡ₚ x :: l.
Proof.
  induction l as [|y l IH]; [done|]. simpl. destruct (lt y x); [done|].
  rewrite IH. apply Permutation_swap.
Qed.

Lemma insert_reverse_sorted x l :
  StronglySorted ge l → StronglySorted ge (insert_reverse lt x l).
Proof.
  induction 1 as [|y l Hs IH Hy]; [by repeat constructor|]. simpl.
  rewrite lt_key. case_bool_decide as Hlt.
  - constructor; [by constructor|]. constructor; [apply ge_key; lia|].
    eapply Forall_impl; [exact Hy|]. intros z Hz%ge_key. apply ge_key. lia.
  - constructor; [done|]. rewrite insert_reverse_Permutation.
    constructor; [apply ge_key; lia|done].
Qed.

(** The elements of one key stay in the order in which they came. *)
Lemma insert_reverse_filter x l t :
  StronglySorted ge l →
  filter (λ z, key z = t) (insert_reverse lt x l)
  = filter (λ z, key z = t) l ++ filter (λ z, key z = t) [x].
Proof.
  induction 1 as [|y l Hs IH Hy]; [done|]. simpl.
  rewrite lt_key. case_bool_decide as Hlt.
  - rewrite !filter_cons.
    destruct (decide (key x = t)) as [Hx|Hx]; [|by rewrite app_nil_r].
    rewrite decide_False by lia.
    assert (filter (λ z, key z = t) l = []) as ->; [|done].
    apply elem_of_nil_inv. intros z [Hz Hin]%list_elem_of_filter.
    rewrite Forall_forall in Hy. specialize (Hy z Hin).
    apply ge_key in Hy. lia.
  - rewrite !(filter_cons _ y), IH. by case_decide.
Qed.

Lemma sorted_reverse_spec l :
  sorted_reverse lt l ≡ₚ l
  ∧ StronglySorted ge (sorted_reverse lt l)
  ∧ ∀ t, filter (λ z, key z = t) (sorted_reverse lt l)
         = filter (λ z, key z = t) l.
Proof.
  unfold sorted_reverse.
  assert (∀ acc, StronglySorted ge acc →
            foldl (λ acc x, insert_reverse lt x acc) acc l ≡ₚ acc ++ l
            ∧ StronglySorted ge
                (foldl (λ acc x, insert_reverse lt x acc) acc l)
            ∧ ∀ t, filter (λ z, key z = t)
                     (foldl (λ acc x, insert_reverse lt x acc) acc l)
                   = filter (λ z, key z = t) (acc ++ l)) as H.
  { induction l as [|x l IH]; intros acc Hacc; simpl.
    - by rewrite app_nil_r.
    - destruct (IH (insert_reverse lt x acc)) as (Hp & Hs & Hf);
        [by apply insert_reverse_sorted|].
      split_and!; [|done|].
      + rewrite Hp, insert_reverse_Permutation. simpl.
        apply Permutation_middle.
      + intros t. rewrite Hf, !filter_app, insert_reverse_filter by done.
        rewrite <- app_assoc. f_equal.
        change (x :: l) with ([x] ++ l). by rewrite filter_app. }
  apply (H []). constructor.
Qed.
End sorted_spec.

(** X12.  The running tally and the final results list every player of the
    roster once, by total from the highest down, and players with the
    same total in the order of the roster. *)
Theorem tally_order ps :
  tally ps ≡ₚ ps
  ∧ StronglySorted (λ p q, total (ss p) >= total (ss q)) (tally ps)
  ∧ ∀ t, filter (λ p, total (ss p) = t) (tally ps)
         = filter (λ p, total (ss p) = t) ps.
Proof. by apply (sorted_reverse_spec (λ p, total (ss p))). Qed.

Example tally_demo :
  name <$> tally [mkPlayer "Ann" sheet_45; mkPlayer "Bob" sheet_100;
                  mkPlayer "Cy" sheet_45]
  = ["Bob"; "Ann"; "Cy"].
Proof. vm_compute. reflexivity. Qed.

(** ** The game loop *)

(** The control keys by code point: [^A], [^K], [^Q], [^R], [^S] and the
    newline. *)
Example control_keys :
  [ctrl_A; ctrl_K; ctrl_Q; ctrl_R; ctrl_S; newline]
  = (λ n, Ch (ascii_of_nat n)) <$> [1; 11; 17; 18; 19; 10]%nat.
Proof. reflexivity. Qed.

Lemma getitem_Ok {A} (l : list A) i x :
  getitem l i = Ok x →
  ∃ j : nat, l !! j = Some x
    ∧ Z.of_nat j = if decide (i < 0) then i + Z.of_nat (length l) else i.
Proof.
  unfold getitem. case_decide as Hj; [|done].
  destruct (l !! _) as [y|] eqn:Hl; [|done]. intros [= <-].
  eexists. split; [exact Hl|]. lia.
Qed.

Lemma getitem_elem {A} (l : list A) i x : getitem l i = Ok x → x ∈ l.
Proof.
  intros (j & Hj & _)%getitem_Ok. by eapply list_elem_of_lookup_2.
Qed.

Lemma getitem_nat {A} (l : list A) (j : nat) x :
  l !! j = Some x → getitem l (Z.of_nat j) = Ok x.
Proof.
  intros Hj. unfold getitem. destruct (decide (Z.of_nat j < 0)); [lia|].
  case_decide; [|lia]. by rewrite Nat2Z.id, Hj.
Qed.

Lemma elem_of_can_select s sheet :
  s ∈ can_select sheet ↔
  ∃ (i : nat) cat, Category_members !! i = Some cat ∧ sheet !! cat = None
                   ∧ s = len_Category - Z.of_nat i - 1.
Proof.
  unfold can_select, enumerate. rewrite list_elem_of_fmap. split.
  - intros ([i cat] & -> & [Hn Hin]%list_elem_of_filter).
    apply elem_of_lookup_imap in Hin as (j & c & [= -> ->] & Hj).
    by exists j, c.
  - intros (i & cat & Hi & Hn & ->). exists (Z.of_nat i, cat).
    split; [done|]. apply list_elem_of_filter. split; [done|].
    apply elem_of_lookup_imap. by exists i, cat.
Qed.

(** A row that can be selected stands for a category without an entry. *)
Lemma can_select_togl s sheet :
  s ∈ can_select sheet →
  0 <= s
  ∧ ∃ cat, getitem Category_members (len_Category - s - 1) = Ok cat
           ∧ sheet !! cat = None.
Proof.
  intros (i & cat & Hi & Hn & ->)%elem_of_can_select.
  pose proof (lookup_lt_Some _ _ _ Hi) as Hlt. unfold len_Category.
  split; [lia|]. exists cat. split; [|done].
  match goal with |- getitem _ ?j = _ =>
    replace j with (Z.of_nat i) by lia end.
  by apply getitem_nat.
Qed.

Lemma with_sel_same G : with_sel G (sel (rs G)) = G.
Proof. by destruct G as [? ? ? [] ? ?]. Qed.

Lemma move_category_spec k G G' :
  move_category k G = Ok G' →
  ∃ s, G' = with_sel G s
       ∧ (s = BTNSC ∨ s ∈ can_select (ss (player G)) ∨ s = sel (rs G)).
Proof.
  unfold move_category.
  set (cs := can_select (ss (player G))).
  assert (∀ i, getitem cs i ≫= (λ s', Ok (with_sel G s')) = Ok G' →
            ∃ s, G' = with_sel G s ∧ (s = BTNSC ∨ s ∈ cs ∨ s = sel (rs G)))
    as Hget.
  { intros i. destruct (getitem cs i) as [s'|] eqn:Hs; [|done].
    intros [= <-]. exists s'. split; [done|]. right; left.
    by eapply getitem_elem. }
  assert (Ok G = Ok G' →
            ∃ s, G' = with_sel G s ∧ (s = BTNSC ∨ s ∈ cs ∨ s = sel (rs G)))
    as Hsame.
  { intros [= <-]. exists (sel (rs G)). by rewrite with_sel_same; auto. }
  destruct (decide (k = KEY_UP ∧ _)); [apply Hget|].
  destruct (decide (k = KEY_UP)).
  { destruct (index_of cs _) as [i|]; [apply Hget|done]. }
  destruct (decide (k = KEY_DOWN)); [|done].
  destruct (getitem cs (-1)) as [lst|]; [|done]. simpl.
  destruct (decide (_ = lst)).
  { intros [= <-]. exists BTNSC. auto. }
  destruct (decide (_ ≠ BTNSC)); [|done].
  destruct (index_of cs _) as [i|]; [apply Hget|done].
Qed.

Lemma lxor_bit_range m s :
  0 <= m < 32 → 0 <= s <= 4 → 0 <= Z.lxor m (1 ≪ s) < 32.
Proof.
  intros Hm Hs. rewrite Z.shiftl_1_l.
  assert (0 < 2 ^ s) by (apply Z.pow_pos_nonneg; lia).
  assert (0 <= Z.lxor m (2 ^ s)) as H0 by (apply Z.lxor_nonneg; lia).
  split; [done|].
  destruct (decide (Z.lxor m (2 ^ s) = 0)) as [->|]; [lia|].
  change 32 with (2 ^ 5). apply Z.log2_lt_pow2; [lia|].
  pose proof (Z.log2_lxor m (2 ^ s) ltac:(lia) ltac:(lia)) as Hl.
  rewrite Z.log2_pow2 in Hl by lia.
  assert (Z.log2 m < 5).
  { destruct (decide (m = 0)) as [->|]; [done|].
    apply Z.log2_lt_pow2; [lia|]. change (2 ^ 5) with 32. lia. }
  lia.
Qed.

Lemma turn_inv_with_diag G d : turn_inv G → turn_inv (with_diag G d).
Proof. intros []. by constructor. Qed.

Lemma length_score G cat v : length (score G cat v) = length (players G).
Proof. unfold score. apply length_alter. Qed.

Lemma confirm_category_turn_inv G :
  turn_inv G →
  match confirm_category G with
  | Continue G' | GameEnd G' => turn_inv G'
  | _ => True
  end.
Proof.
  intros HG. unfold confirm_category.
  case_decide; [by apply turn_inv_with_diag|].
  destruct (getitem _ _) as [cat|]; [|done].
  pose proof (DiceState_init_spec (rng G)) as (Hr & Hm & Hro).
  destruct (DiceState_init (rng G)) as [d g]. simpl in *.
  assert (turn_inv (mkGame (score G cat (compute cat (dice (ds G))))
            (next_cursor G) d (mkRenderState BTNRR (togl (rs G)) EmptyString) false g)).
  { constructor; simpl; try done; try lia.
    rewrite length_score. unfold next_cursor.
    apply Nat.mod_upper_bound. destruct HG. lia. }
  by case_decide.
Qed.

Lemma reroll_turn_inv G :
  turn_inv G →
  match reroll G with
  | Continue G' | GameEnd G' => turn_inv G'
  | _ => True
  end.
Proof.
  intros HG. unfold reroll.
  case_decide; [by apply turn_inv_with_diag|].
  case_decide; [by apply turn_inv_with_diag|].
  unfold reroll_dice. pose proof (reroll_loop_spec (ds G) (rng G)) as Hl.
  destruct (reroll_loop _ _) as [[d g]|]; simpl; [|done].
  destruct Hl as (_ & Hm0 & Hr & Hlen & Hkeep & Hnew & _).
  destruct HG as [? [Hl5 Hf] ? ? ? ? ?]. constructor; simpl; try done; try lia.
  split; [congruence|]. apply Forall_lookup. intros i v Hv.
  destruct (Z.testbit (rollmsk (ds G)) (Z.of_nat i)) eqn:Hb.
  - by apply (Hnew i v).
  - rewrite Hkeep in Hv by done. rewrite Forall_lookup in Hf. by apply (Hf i).
Qed.

(** Every pass through the loop keeps the turn well formed. *)
Lemma step_turn_inv k G :
  turn_inv G →
  match game_loop_step k G with
  | Continue G' | GameEnd G' => turn_inv G'
  | _ => True
  end.
Proof.
  intros HG. unfold game_loop_step.
  case_decide; [done|].
  destruct (picking_cat G) eqn:Hpick.
  - case_decide; [by apply confirm_category_turn_inv|].
    case_decide as Hk.
    { destruct HG as [? ? ? ? ? Hsel ?].
      destruct (Hsel Hpick) as [Hs|Hs]; [unfold BTNSC in Hs; lia|].
      apply can_select_togl in Hs as [_ Hcat].
      constructor; simpl; auto. }
    case_decide; [|done].
    destruct (move_category k G) as [G'|] eqn:Hmv; [|done].
    apply move_category_spec in Hmv as (s & -> & Hs).
    destruct HG as [? ? ? ? ? Hsel ?]. constructor; simpl; try done.
    + rewrite Hpick. done.
    + intros _. destruct Hs as [?|[?| ->]]; auto.
  - case_decide.
    { destruct HG. constructor; simpl; try done; lia. }
    case_decide.
    { destruct HG. constructor; simpl; try done; auto. }
    case_decide; [by apply reroll_turn_inv|].
    case_decide as Hk.
    { destruct HG as [? ? ? ? Hsel ? ?]. constructor; simpl; try done.
      apply lxor_bit_range; [done|].
      destruct (Hsel Hpick) as [Hs|[Hs|Hs]];
        [unfold BTNRR in Hs; lia|unfold BTNKA in Hs; lia|lia]. }
    destruct HG as [? ? ? ? Hsel ? ?]. specialize (Hsel Hpick).
    unfold move_dice, BTNRR, BTNKA in *.
    destruct k; try (by constructor); repeat case_decide;
      constructor; simpl; rewrite ?Hpick; try done; intros _;
      unfold BTNRR, BTNKA; lia.
Qed.

(** Closes a case whose assumptions about the key and the selected button
    contradict each other. *)
Ltac key_contra :=
  exfalso;
  unfold BTNRR, BTNKA, BTNSC, ctrl_A, ctrl_K, ctrl_Q, ctrl_R, ctrl_S,
    newline in *;
  intuition (first [discriminate | congruence | lia]).

Lemma step_reroll_key k G : reroll_key k G → game_loop_step k G = reroll G.
Proof.
  intros [Hp Hk]. unfold game_loop_step. rewrite Hp.
  repeat case_decide; first [done | key_contra].
Qed.

Lemma step_confirm_key k G :
  confirm_key k G → game_loop_step k G = confirm_category G.
Proof.
  intros [Hp Hk]. unfold game_loop_step. rewrite Hp.
  repeat case_decide; first [done | key_contra].
Qed.

(** A pass through the loop that is neither a confirmation nor a reroll
    changes at most the selection, the highlight and the mask. *)
Lemma step_other_key k G G' :
  ¬ reroll_key k G → ¬ confirm_key k G →
  game_loop_step k G = Continue G' →
  players G' = players G ∧ cursor G' = cursor G
  ∧ rolls (ds G') = rolls (ds G) ∧ dice (ds G') = dice (ds G).
Proof.
  unfold reroll_key, confirm_key, game_loop_step. intros Hr Hc.
  case_decide; [done|]. destruct (picking_cat G).
  - case_decide; [tauto|]. case_decide; [by intros [= <-]|].
    case_decide; [|by intros [= <-]].
    destruct (move_category k G) as [G1|] eqn:Hmv; [|done].
    apply move_category_spec in Hmv as (s & -> & _). by intros [= <-].
  - case_decide; [by intros [= <-]|]. case_decide; [by intros [= <-]|].
    case_decide; [tauto|]. case_decide; [by intros [= <-]|].
    intros [= <-]. unfold move_dice.
    destruct k; try done; by repeat case_decide.
Qed.

Lemma step_GameEnd k G G' :
  game_loop_step k G = GameEnd G' →
  confirms k G
  ∧ cursor G' = 0%nat
  ∧ Z.of_nat (size (ss (player G'))) = len_Category.
Proof.
  intros Hstep. destruct (decide (confirm_key k G)) as [Hc|Hc].
  - rewrite (step_confirm_key _ _ Hc) in Hstep. revert Hstep.
    unfold confirm_category, confirms. case_decide; [done|].
    destruct (getitem _ _); [|done]. destruct (DiceState_init _).
    case_decide as Hend; [|done]. intros [= <-]. by destruct Hend.
  - destruct (decide (reroll_key k G)) as [Hr|Hr].
    + rewrite (step_reroll_key _ _ Hr) in Hstep. revert Hstep.
      unfold reroll. repeat case_decide; try done.
      by destruct (reroll_dice _ _) as [[? ?]|].
    + revert Hstep. unfold reroll_key, confirm_key, game_loop_step in *.
      case_decide; [done|]. destruct (picking_cat G).
      * case_decide; [tauto|]. case_decide; [done|]. case_decide; [|done].
        by destruct (move_category k G).
      * repeat case_decide; try done; tauto.
Qed.

(** A pass that does not score a category leaves the roster and the cursor
    alone, and takes one roll away exactly when it rerolls. *)
Lemma step_same_turn k G G' :
  game_loop_step k G = Continue G' → ¬ confirms k G →
  players G' = players G ∧ cursor G' = cursor G
  ∧ rolls (ds G') = rolls (ds G) - (if decide (rerolls k G) then 1 else 0).
Proof.
  intros Hstep Hnc. destruct (decide (confirm_key k G)) as [Hc|Hc].
  { rewrite (step_confirm_key _ _ Hc) in Hstep. revert Hstep.
    unfold confirm_category. case_decide as Ht; [|by destruct Hnc].
    intros [= <-]. simpl. rewrite decide_False; [by rewrite Z.sub_0_r|].
    intros [[Hp _] _]. destruct Hc as [Hp' _]. congruence. }
  destruct (decide (reroll_key k G)) as [Hr|Hr].
  - rewrite (step_reroll_key _ _ Hr) in Hstep. revert Hstep.
    unfold reroll, rerolls. case_decide as H0.
    { intros [= <-]. simpl. rewrite decide_False by tauto.
      by rewrite Z.sub_0_r. }
    case_decide as Hm.
    { intros [= <-]. simpl. rewrite decide_False by tauto.
      by rewrite Z.sub_0_r. }
    rewrite decide_True by done. unfold reroll_dice.
    pose proof (reroll_loop_spec (ds G) (rng G)) as Hl.
    destruct (reroll_loop _ _) as [[d g]|]; simpl; [|done].
    intros [= <-]. simpl. destruct Hl as (_ & _ & -> & _). done.
  - destruct (step_other_key _ _ _ Hr Hc Hstep) as (? & ? & ? & _).
    unfold rerolls. rewrite decide_False by tauto. rewrite Z.sub_0_r. done.
Qed.

(** No reroll beyond the rolls that remain. *)
Lemma rerolls_in_turn_le keys G :
  0 <= rolls (ds G) → Z.of_nat (rerolls_in_turn keys G) <= rolls (ds G).
Proof.
  revert G. induction keys as [|k keys IH]; intros G Hr; simpl; [done|].
  case_decide as Hc; [done|].
  destruct (game_loop_step k G) as [G'| | |] eqn:Hstep; try done.
  destruct (step_same_turn _ _ _ Hstep Hc) as (_ & _ & Hrolls).
  case_decide as Hrr.
  - destruct Hrr as (_ & ? & _). specialize (IH G'). lia.
  - specialize (IH G'). lia.
Qed.

(** What the passes keep, the loop keeps, whether [arrow] is bound or
    not. *)
Lemma game_loop_frames_inv (I E : Game → Prop) :
  (∀ k G, I G → match game_loop_step k G with
                 | Continue G' => I G'
                 | GameEnd G' => E G'
                 | _ => True
                 end) →
  ∀ keys a G, I G → match game_loop_frames a keys G with
                     | Continue G' => I G'
                     | GameEnd G' => E G'
                     | _ => True
                     end.
Proof.
  intros Hstep keys.
  induction keys as [|k keys IH]; intros a G HG; simpl;
    destruct (draw_frame a G) as [a'|]; try done.
  specialize (Hstep k G HG).
  destruct (game_loop_step k G) as [G1|G1| |]; [by apply IH|done..].
Qed.

(** An invariant of the passes is an invariant of the loop. *)
Lemma game_loop_inv (I : Game → Prop) :
  (∀ k G, I G → match game_loop_step k G with
                 | Continue G' | GameEnd G' => I G'
                 | _ => True
                 end) →
  ∀ keys G, I G → match game_loop keys G with
                   | Continue G' | GameEnd G' => I G'
                   | _ => True
                   end.
Proof.
  intros Hstep keys G. by apply (game_loop_frames_inv I I).
Qed.

Lemma game_start_turn_inv ps r g : ps ≠ [] → turn_inv (game_start ps r g).
Proof.
  intros Hps. unfold game_start.
  pose proof (DiceState_init_spec g) as (? & ? & ?).
  destruct (DiceState_init g) as [d g']. simpl in *.
  constructor; simpl; try done; try lia.
  destruct ps; [done|simpl; lia].
Qed.

Lemma reachable_turn_inv ps r g keys G :
  ps ≠ [] → game_loop keys (game_start ps r g) = Continue G → turn_inv G.
Proof.
  intros Hps Hrun.
  pose proof (game_loop_inv turn_inv step_turn_inv keys _
                (game_start_turn_inv ps r g Hps)) as H.
  by rewrite Hrun in H.
Qed.

Lemma confirm_category_scores G cat :
  togl (rs G) ≠ -1 → getitem Category_members (togl (rs G)) = Ok cat →
  let G' := next_turn G cat in
  confirm_category G
  = if decide (cursor G' = 0%nat
               ∧ Z.of_nat (size (ss (player G'))) = len_Category)
    then GameEnd G' else Continue G'.
Proof.
  intros Ht Hcat. unfold confirm_category.
  rewrite decide_False by done. rewrite Hcat. unfold next_turn.
  by destruct (DiceState_init (rng G)).
Qed.

Lemma player_lookup G p : players G !! cursor G = Some p → player G = p.
Proof. unfold player. by intros ->. Qed.

(** Scoring a category that has no entry and moving on to the next player
    keeps the sheets in step. *)
Lemma round_inv_score G G' cat v :
  (cursor G < length (players G))%nat → ss (player G) !! cat = None →
  players G' = score G cat v → cursor G' = next_cursor G →
  round_inv G → round_inv G'.
Proof.
  intros Hc Hcat Hps Hcur [n Hn]. unfold round_inv.
  rewrite Hps, Hcur. unfold score, next_cursor.
  destruct (lookup_lt_is_Some_2 _ _ Hc) as [q Hq].
  rewrite (player_lookup _ _ Hq) in Hcat.
  assert (size (setitem (ss q) cat v) = S n) as Hsz.
  { unfold setitem. rewrite map_size_insert_None by done.
    rewrite (Hn _ _ Hq). by rewrite decide_False by lia. }
  destruct (decide (S (cursor G) < length (players G))%nat) as [Hlt|Hge].
  - rewrite Nat.mod_small by done. exists n. intros i p Hi.
    destruct (decide (i = cursor G)) as [->|Hne].
    + rewrite list_lookup_alter, Hq in Hi. simpl in Hi.
      rewrite decide_True in Hi by done.
      injection Hi as <-. simpl.
      rewrite Hsz. by rewrite decide_True by lia.
    + rewrite list_lookup_alter_ne in Hi by done. rewrite (Hn _ _ Hi).
      repeat case_decide; (done || lia).
  - replace (length (players G)) with (S (cursor G)) by lia.
    rewrite Nat.Div0.mod_same. exists (S n). intros i p Hi.
    rewrite decide_False by lia.
    destruct (decide (i = cursor G)) as [->|Hne].
    + rewrite list_lookup_alter, Hq in Hi. simpl in Hi.
      rewrite decide_True in Hi by done.
      injection Hi as <-. done.
    + rewrite list_lookup_alter_ne in Hi by done. rewrite (Hn _ _ Hi).
      apply lookup_lt_Some in Hi. rewrite decide_True by lia. done.
Qed.

Lemma step_round_inv k G :
  turn_inv G ∧ round_inv G →
  match game_loop_step k G with
  | Continue G' | GameEnd G' => turn_inv G' ∧ round_inv G'
  | _ => True
  end.
Proof.
  intros [HG HR]. pose proof (step_turn_inv k G HG) as HG'.
  destruct (game_loop_step k G) as [G'|G'| |] eqn:Hstep; [| |done..].
  - split; [done|]. destruct (decide (confirms k G)) as [[Hk Ht]|Hnc].
    + rewrite (step_confirm_key _ _ Hk) in Hstep.
      destruct (inv_togl G HG (proj1 Hk)) as [?|(cat & Hcat & Hnone)]; [done|].
      rewrite (confirm_category_scores G cat Ht Hcat) in Hstep.
      case_decide; [done|]. injection Hstep as <-.
      eapply round_inv_score; eauto. by destruct HG.
    + destruct (step_same_turn _ _ _ Hstep Hnc) as (Hps & Hcur & _).
      destruct HR as [n Hn]. exists n. by rewrite Hps, Hcur.
  - split; [done|]. destruct (step_GameEnd _ _ _ Hstep) as ([Hk Ht] & _).
    rewrite (step_confirm_key _ _ Hk) in Hstep.
    destruct (inv_togl G HG (proj1 Hk)) as [?|(cat & Hcat & Hnone)]; [done|].
    rewrite (confirm_category_scores G cat Ht Hcat) in Hstep.
    case_decide; [|done]. injection Hstep as <-.
    eapply round_inv_score; eauto. by destruct HG.
Qed.

Lemma game_start_round_inv ps r g :
  Forall (λ p, ss p = ∅) ps → round_inv (game_start ps r g).
Proof.
  intros Hps. unfold game_start. destruct (DiceState_init g) as [d g'].
  exists 0%nat. simpl. intros i p Hi. rewrite Forall_lookup in Hps.
  rewrite (Hps _ _ Hi). rewrite map_size_empty. by destruct i.
Qed.

(** When the loop ends the game every sheet is full. *)
Lemma game_end_full G :
  turn_inv G → round_inv G → cursor G = 0%nat →
  Z.of_nat (size (ss (player G))) = len_Category →
  Forall (λ p, size (ss p) = 15%nat) (players G).
Proof.
  intros HG [n Hn] Hc Hfull. apply Forall_lookup. intros i p Hi.
  destruct (lookup_lt_is_Some_2 _ _ (inv_cursor G HG)) as [q Hq].
  rewrite (player_lookup _ _ Hq) in Hfull.
  rewrite (Hn _ _ Hq) in Hfull. rewrite (Hn _ _ Hi).
  rewrite Hc in *. rewrite decide_False in * by lia.
  unfold len_Category in Hfull. simpl in Hfull. lia.
Qed.

Lemma length_players_step k G :
  match game_loop_step k G with
  | Continue G' | GameEnd G' => length (players G') = length (players G)
  | _ => True
  end.
Proof.
  destruct (game_loop_step k G) as [G'|G'| |] eqn:Hstep; [| |done..].
  - destruct (decide (confirms k G)) as [[Hk Ht]|Hnc].
    + rewrite (step_confirm_key _ _ Hk) in Hstep. revert Hstep.
      unfold confirm_category. rewrite decide_False by done.
      destruct (getitem _ _); [|done]. destruct (DiceState_init _).
      case_decide; [done|]. intros [= <-]. simpl. apply length_score.
    + by destruct (step_same_turn _ _ _ Hstep Hnc) as (-> & _).
  - destruct (step_GameEnd _ _ _ Hstep) as ([Hk Ht] & _).
    rewrite (step_confirm_key _ _ Hk) in Hstep. revert Hstep.
    unfold confirm_category. rewrite decide_False by done.
    destruct (getitem _ _); [|done]. destruct (DiceState_init _).
    case_decide; [|done]. intros [= <-]. simpl. apply length_score.
Qed.

Lemma game_loop_length keys G G' :
  game_loop keys G = Continue G' → length (players G') = length (players G).
Proof.
  intros Hrun.
  pose proof (game_loop_inv (λ G', length (players G') = length (players G)))
    as Hinv.
  specialize (Hinv) with (keys := keys) (G := G). rewrite Hrun in Hinv.
  apply Hinv; [|done]. intros k G1 HG1.
  pose proof (length_players_step k G1) as Hl.
  destruct (game_loop_step k G1); try done; congruence.
Qed.

Lemma game_loop_GameEnd keys G G' :
  turn_inv G → round_inv G → game_loop keys G = GameEnd G' →
  Forall (λ p, size (ss p) = 15%nat) (players G')
  ∧ length (players G') = length (players G).
Proof.
  unfold game_loop. generalize false as a. intros a. revert G a.
  induction keys as [|k keys IH]; intros G a HG HR; simpl;
    destruct (draw_frame a G) as [a'|]; try done.
  pose proof (step_round_inv k G (conj HG HR)) as Hinv.
  pose proof (length_players_step k G) as Hlen.
  destruct (game_loop_step k G) as [G1|G1| |] eqn:Hstep; [| |done..].
  - intros Hrun. destruct Hinv as [HG1 HR1].
    destruct (IH G1 a' HG1 HR1 Hrun) as [? ?]. split; [done|congruence].
  - intros [= <-]. destruct Hinv as [HG1 HR1]. split; [|done].
    destruct (step_GameEnd _ _ _ Hstep) as (_ & Hc & Hfull).
    by apply game_end_full.
Qed.

(** C1.  A confirmation that scores a category hands the turn to the next
    player in cyclic order, with fresh dice and two rolls left, and the
    game ends exactly when that player is the first of the roster and has
    a sheet with all 15 categories; otherwise play goes on with the dice
    of the next player.  A game that began with empty sheets, of two
    players or of any number, therefore ends only once every sheet has 15
    entries, and after the first player's turn the second one rolls. *)
Theorem game_end_detection :
  (∀ G k cat,
     confirm_key k G → togl (rs G) ≠ -1 →
     getitem Category_members (togl (rs G)) = Ok cat →
     ∃ G',
       players G' = score G cat (compute cat (dice (ds G)))
       ∧ cursor G' = (S (cursor G) `mod` length (players G))%nat
       ∧ picking_cat G' = false
       ∧ rolls (ds G') = 2 ∧ rollmsk (ds G') = 0 ∧ is_roll (dice (ds G'))
       ∧ (cursor G' = 0%nat ∧ size (ss (player G')) = 15%nat
          → game_loop_step k G = GameEnd G')
       ∧ (¬ (cursor G' = 0%nat ∧ size (ss (player G')) = 15%nat)
          → game_loop_step k G = Continue G'))
  ∧ (∀ ps r g keys G,
       ps ≠ [] → Forall (λ p, ss p = ∅) ps →
       game_loop keys (game_start ps r g) = GameEnd G →
       Forall (λ p, size (ss p) = 15%nat) (players G)
       ∧ length (players G) = length ps)
  ∧ (∀ a b r g keys G k,
       game_loop keys (game_start [a; b] r g) = Continue G →
       cursor G = 0%nat → confirms k G →
       ∃ G', game_loop_step k G = Continue G'
             ∧ cursor G' = 1%nat ∧ picking_cat G' = false).
Proof.
  split_and!.
  - intros G k cat Hk Ht Hcat.
    rewrite (step_confirm_key _ _ Hk), (confirm_category_scores G cat Ht Hcat).
    pose proof (DiceState_init_spec (rng G)) as (? & ? & ?).
    exists (next_turn G cat). split_and!; [done..| |]; simpl.
    + intros [? Hsz]. rewrite decide_True; [done|].
      split; [done|]. simpl. rewrite Hsz. done.
    + intros Hn. rewrite decide_False; [done|].
      intros [? Hsz]. apply Hn. split; [done|].
      unfold len_Category in Hsz. simpl in *. lia.
  - intros ps r g keys G Hps Hempty Hrun.
    destruct (game_loop_GameEnd keys _ G (game_start_turn_inv ps r g Hps)
                (game_start_round_inv ps r g Hempty) Hrun) as [? Hl].
    split; [done|]. rewrite Hl. unfold game_start.
    by destruct (DiceState_init g).
  - intros a b r g keys G k Hrun Hc [Hk Ht].
    pose proof (reachable_turn_inv [a; b] r g keys G ltac:(done) Hrun) as HG.
    destruct (inv_togl G HG (proj1 Hk)) as [?|(cat & Hcat & _)]; [done|].
    rewrite (step_confirm_key _ _ Hk), (confirm_category_scores G cat Ht Hcat).
    assert (length (players G) = 2%nat) as Hlen.
    { rewrite (game_loop_length _ _ _ Hrun). unfold game_start.
      by destruct (DiceState_init g). }
    exists (next_turn G cat).
    rewrite decide_False; [split_and!; [done| |done]|];
      simpl; unfold next_cursor; rewrite Hc, Hlen; [done|].
    intros [[=] _].
Qed.

Lemma game_end_detection_witness :
  ∃ G, game_loop (demo_keys 30) demo_start = GameEnd G
       ∧ Forall (λ p, size (ss p) = 15%nat) (players G)
       ∧ length (players G) = 2%nat.
Proof.
  assert (∃ G, game_loop (demo_keys 30) demo_start = GameEnd G) as [G HG].
  { vm_compute. eexists. reflexivity. }
  exists G. split; [exact HG|].
  apply (proj1 (proj2 game_end_detection) demo_players
           (mkRenderState BTNAP (-1) EmptyString) demo_rng (demo_keys 30) G).
  - discriminate.
  - repeat constructor.
  - exact HG.
Defined.

Example game_goes_on_after_29_turns :
  match game_loop (demo_keys 29) demo_start with
  | Continue G =>
      cursor G = 1%nat ∧ picking_cat G = false
      ∧ (λ p, size (ss p)) <$> players G = [15; 14]%nat
  | _ => False
  end.
Proof. vm_compute. split_and!; reflexivity. Qed.

(** C7.  While rolling, a reroll with no rolls left only sets the message
    "No more rolls remaining", and one with rolls left but no die selected
    only sets "No dice selected to reroll": the diagnostic of the state
    that follows is that message, and dice, mask, rolls, roster, turn and
    selection stay as they are.  Otherwise every selected die gets a face
    from 1 to 6, the other dice stay, the mask is cleared, the rolls go
    down by exactly one and the diagnostic is not touched.  A turn starts
    with two rolls, the states that the loop reaches have a mask that
    selects among the five dice, and no run of keys rerolls more than
    twice within one turn. *)
Theorem reroll_rules :
  (∀ G k, reroll_key k G →
     (rolls (ds G) = 0 →
      game_loop_step k G = Continue (with_diag G "No more rolls remaining"))
     ∧ (rolls (ds G) ≠ 0 → rollmsk (ds G) = 0 →
        game_loop_step k G
        = Continue (with_diag G "No dice selected to reroll"))
     ∧ (rolls (ds G) ≠ 0 → rollmsk (ds G) ≠ 0 →
        0 <= rollmsk (ds G) < 2 ^ Z.of_nat (length (dice (ds G))) →
        ∃ d g,
          game_loop_step k G
          = Continue (mkGame (players G) (cursor G) d (rs G) false g)
          ∧ rollmsk d = 0 ∧ rolls d = rolls (ds G) - 1
          ∧ length (dice d) = length (dice (ds G))
          ∧ (∀ i v, Z.testbit (rollmsk (ds G)) (Z.of_nat i) = true →
                    dice d !! i = Some v → 1 <= v <= 6)
          ∧ (∀ i, Z.testbit (rollmsk (ds G)) (Z.of_nat i) = false →
                  dice d !! i = dice (ds G) !! i)))
  ∧ (∀ G msg,
       diag (rs (with_diag G msg)) = msg
       ∧ ds (with_diag G msg) = ds G
       ∧ players (with_diag G msg) = players G
       ∧ cursor (with_diag G msg) = cursor G
       ∧ picking_cat (with_diag G msg) = picking_cat G
       ∧ sel (rs (with_diag G msg)) = sel (rs G)
       ∧ togl (rs (with_diag G msg)) = togl (rs G)
       ∧ rng (with_diag G msg) = rng G)
  ∧ (∀ ps r g, rolls (ds (game_start ps r g)) = 2)
  ∧ (∀ G cat, rolls (ds (next_turn G cat)) = 2)
  ∧ (∀ ps r g keys G,
       ps ≠ [] → game_loop keys (game_start ps r g) = Continue G →
       length (dice (ds G)) = 5%nat
       ∧ 0 <= rollmsk (ds G) < 2 ^ 5 ∧ 0 <= rolls (ds G) <= 2)
  ∧ (∀ keys G, rolls (ds G) = 2 → (rerolls_in_turn keys G <= 2)%nat).
Proof.
  split_and!.
  - intros G k Hk. rewrite (step_reroll_key _ _ Hk). unfold reroll.
    split_and!.
    + intros H0. by rewrite decide_True.
    + intros H0 Hm. by rewrite decide_False, decide_True.
    + intros H0 Hm Hrange. rewrite !decide_False by done.
      unfold reroll_dice.
      pose proof (reroll_loop_spec (ds G) (rng G)) as Hl.
      destruct (reroll_loop _ _) as [[d g]|]; simpl.
      * destruct Hl as (_ & ? & ? & ? & ? & ? & _).
        eexists _, _. destruct Hk as [-> _].
        split; [reflexivity|]. simpl. split_and!; auto. lia.
      * by destruct Hl as [_ []].
  - done.
  - intros ps r g. pose proof (DiceState_init_spec g) as (_ & _ & H).
    unfold game_start. by destruct (DiceState_init g).
  - intros G cat. by pose proof (DiceState_init_spec (rng G)) as (_ & _ & H).
  - intros ps r g keys G Hps Hrun.
    destruct (reachable_turn_inv ps r g keys G Hps Hrun) as [_ [? _] ? ? _ _ _].
    done.
  - intros keys G H2. pose proof (rerolls_in_turn_le keys G). lia.
Qed.

Lemma reroll_rules_witness :
  ∃ G, game_loop_step ctrl_R demo_start = Continue G
       ∧ diag (rs G) = "No dice selected to reroll"%string
       ∧ ds G = ds demo_start.
Proof.
  exists (with_diag demo_start "No dice selected to reroll").
  split; [|split; apply (proj1 (proj2 reroll_rules))].
  assert (reroll_key ctrl_R demo_start) as Hk
    by (split; [reflexivity|left; reflexivity]).
  destruct (proj1 reroll_rules demo_start ctrl_R Hk) as (_ & Hempty & _).
  apply Hempty.
  - vm_compute. discriminate.
  - vm_compute. reflexivity.
Defined.

Example third_reroll_fails :
  match game_loop [ctrl_A; newline; ctrl_A; newline; ctrl_A] demo_start with
  | Continue G =>
      rolls (ds G) = 0 ∧ rollmsk (ds G) = 31
      ∧ game_loop_step newline G
        = Continue (with_diag G "No more rolls remaining")
  | _ => False
  end.
Proof. vm_compute. split_and!; reflexivity. Qed.

(** C2, as the code has it.  Scoring a category that already has an entry
    does not fail: the new points replace the stored ones, and every other
    entry and the number of entries stay as they were.  The loop never
    does so, because a confirmation in a state that it reaches scores a
    category that the active player's sheet does not hold. *)
Theorem setitem_overwrites :
  (∀ (sheet : ScoreSheet) c old pts,
     sheet !! c = Some old →
     setitem sheet c pts !! c = Some pts
     ∧ (∀ c', c' ≠ c → setitem sheet c pts !! c' = sheet !! c')
     ∧ size (setitem sheet c pts) = size sheet)
  ∧ (∀ ps r g keys G k,
       ps ≠ [] → game_loop keys (game_start ps r g) = Continue G →
       confirms k G →
       ∃ cat, getitem Category_members (togl (rs G)) = Ok cat
              ∧ ss (player G) !! cat = None
              ∧ (game_loop_step k G = Continue (next_turn G cat)
                 ∨ game_loop_step k G = GameEnd (next_turn G cat))).
Proof.
  split.
  - intros sheet c old pts Hc. unfold setitem. split_and!.
    + apply lookup_insert_eq.
    + intros c' Hne. by apply lookup_insert_ne.
    + by rewrite map_size_insert_Some.
  - intros ps r g keys G k Hps Hrun [Hk Ht].
    pose proof (reachable_turn_inv ps r g keys G Hps Hrun) as HG.
    destruct (inv_togl G HG (proj1 Hk)) as [?|(cat & Hcat & Hnone)]; [done|].
    exists cat. split_and!; [done..|].
    rewrite (step_confirm_key _ _ Hk), (confirm_category_scores G cat Ht Hcat).
    case_decide; auto.
Qed.

Lemma setitem_overwrites_witness :
  setitem {[ONES := 3]} ONES 5 !! ONES = Some 5
  ∧ (∀ c', c' ≠ ONES →
       setitem {[ONES := 3]} ONES 5 !! c' = ({[ONES := 3]} : ScoreSheet) !! c')
  ∧ size (setitem {[ONES := 3]} ONES 5) = size ({[ONES := 3]} : ScoreSheet).
Proof.
  exact (proj1 setitem_overwrites {[ONES := 3]} ONES 3 5 eq_refl).
Defined.

(** C2, as the claim has it, fails: scoring Ones again on a sheet that
    holds 3 points for Ones is not rejected and the stored points are not
    kept; the sheet then holds 5. *)
Lemma setitem_present_not_preserved :
  ¬ (∀ (sheet : ScoreSheet) c pts,
       is_Some (sheet !! c) → setitem sheet c pts !! c = sheet !! c).
Proof.
  intros H. specialize (H {[ONES := 3]} ONES 5 ltac:(by eexists)).
  vm_compute in H. discriminate.
Qed.

(** ** The frame of a reroll *)

(** C10.  [reroll_dice] changes no die outside the mask and leaves the
    mask 0 (and one roll fewer) on every dice state whose mask selects only
    dice that exist, and raises [IndexError] on any other mask.  The dice
    states of the program are of the first kind: a new one has five dice
    and mask 0, and in every state that the game loop reaches the mask
    selects among the dice of that state. *)
Theorem reroll_dice_frame :
  (∀ st g,
     (0 <= rollmsk st < 2 ^ Z.of_nat (length (dice st)) →
      ∃ st' g',
        reroll_dice st g = Ok (st', g')
        ∧ rollmsk st' = 0
        ∧ length (dice st') = length (dice st)
        ∧ (∀ i, Z.testbit (rollmsk st) (Z.of_nat i) = false →
                dice st' !! i = dice st !! i)
        ∧ rolls st' = rolls st - 1)
     ∧ (¬ 0 <= rollmsk st < 2 ^ Z.of_nat (length (dice st)) →
        reroll_dice st g = Raise IndexError))
  ∧ (∀ g, rollmsk (DiceState_init g).1 = 0
          ∧ length (dice (DiceState_init g).1) = 5%nat)
  ∧ (∀ ps r g keys G,
       ps ≠ [] → game_loop keys (game_start ps r g) = Continue G →
       0 <= rollmsk (ds G) < 2 ^ Z.of_nat (length (dice (ds G)))).
Proof.
  split_and!.
  - intros st g. unfold reroll_dice.
    pose proof (reroll_loop_spec st g) as H.
    destruct (reroll_loop st g) as [[st' g']|e]; simpl.
    + destruct H as (Hm & Hm0 & Hr & Hl & Hkeep & _ & _). split; [|done].
      intros _. eexists _, _. split; [done|]. simpl. split_and!; auto. lia.
    + destruct H as [-> Hout]. split; [done|]. done.
  - intros g. pose proof (DiceState_init_spec g) as ([Hlen _] & Hm & _).
    done.
  - intros ps r g keys G Hps Hrun.
    destruct (reachable_turn_inv ps r g keys G Hps Hrun)
      as [_ [Hlen _] Hmask _ _ _ _].
    rewrite Hlen. exact Hmask.
Qed.

Lemma reroll_dice_frame_witness :
  (∃ st' g',
     reroll_dice (mkDiceState [1; 2; 3; 4; 5] 21 2) (mkRNG (λ n, Z.of_nat n) 0)
     = Ok (st', g')
     ∧ rollmsk st' = 0
     ∧ length (dice st') = 5%nat
     ∧ (∀ i, Z.testbit 21 (Z.of_nat i) = false →
             dice st' !! i = [1; 2; 3; 4; 5] !! i)
     ∧ rolls st' = 2 - 1)
  ∧ 0 <= rollmsk (ds demo_start) < 2 ^ 5.
Proof.
  split.
  - apply (proj1 (proj1 reroll_dice_frame (mkDiceState [1; 2; 3; 4; 5] 21 2)
                    (mkRNG (λ n, Z.of_nat n) 0))).
    simpl. lia.
  - apply (proj2 (proj2 reroll_dice_frame) demo_players
             (mkRenderState BTNAP (-1) EmptyString) demo_rng [] demo_start).
    + discriminate.
    + reflexivity.
Defined.

(** ** More on the game loop *)

Lemma getitem_in_range {A} (l : list A) i :
  - Z.of_nat (length l) <= i < Z.of_nat (length l) →
  ∃ x, getitem l i = Ok x.
Proof.
  intros Hi. unfold getitem.
  set (j := if decide (i < 0) then i + Z.of_nat (length l) else i).
  assert (0 <= j < Z.of_nat (length l)) as Hj
    by (unfold j; case_decide; lia).
  rewrite decide_True by lia.
  destruct (lookup_lt_is_Some_2 l (Z.to_nat j)) as [x ->]; [lia|].
  by exists x.
Qed.

Lemma index_of_elem l x :
  x ∈ l → ∃ i : nat, index_of l x = Ok (Z.of_nat i) ∧ l !! i = Some x.
Proof.
  induction l as [|y l IH]; [by intros ?%elem_of_nil|].
  intros Hx. simpl. case_decide as Hy; [subst; by exists 0%nat|].
  apply elem_of_cons in Hx as [?|Hx]; [congruence|].
  destruct (IH Hx) as (i & -> & Hi). exists (S i). simpl.
  split; [f_equal; lia|done].
Qed.

(** A sheet with fewer than 15 entries lacks a category, and a sheet with
    15 entries lacks none. *)
Lemma sheet_open_category (sheet : ScoreSheet) :
  (size sheet < 15)%nat → ∃ cat, sheet !! cat = None.
Proof.
  intros Hsz.
  destruct (decide (Exists (λ c, sheet !! c = None) Category_members))
    as [(cat & _ & Hc)%Exists_exists|Hall]; [by exists cat|].
  exfalso. apply not_Exists_Forall in Hall; [|intros c; apply _].
  rewrite Forall_forall in Hall.
  assert (list_to_set Category_members ⊆ dom sheet) as Hsub.
  { intros c Hc%elem_of_list_to_set. apply elem_of_dom.
    specialize (Hall c Hc). simpl in Hall.
    destruct (sheet !! c); [done|by destruct Hall]. }
  apply subseteq_size in Hsub. rewrite size_dom in Hsub.
  rewrite size_list_to_set in Hsub
    by (apply (bool_decide_unpack _); vm_compute; exact I).
  simpl in Hsub. lia.
Qed.

Lemma sheet_full (sheet : ScoreSheet) cat :
  size sheet = 15%nat → is_Some (sheet !! cat).
Proof.
  intros Hsz. apply elem_of_dom.
  assert (dom sheet ⊆ list_to_set Category_members) as Hsub.
  { intros c _. apply elem_of_list_to_set.
    destruct c; apply (bool_decide_unpack _); vm_compute; exact I. }
  apply set_subseteq_size_eq in Hsub as ->.
  - apply elem_of_list_to_set.
    destruct cat; apply (bool_decide_unpack _); vm_compute; exact I.
  - rewrite size_dom, Hsz.
    rewrite size_list_to_set
      by (apply (bool_decide_unpack _); vm_compute; exact I).
    done.
Qed.

Lemma can_select_nonempty (sheet : ScoreSheet) :
  (size sheet < 15)%nat → can_select sheet ≠ [].
Proof.
  intros [cat Hc]%sheet_open_category Hnil.
  assert (cat ∈ Category_members) as [i Hi]%list_elem_of_lookup_1
    by (destruct cat; apply (bool_decide_unpack _); vm_compute; exact I).
  assert (len_Category - Z.of_nat i - 1 ∈ can_select sheet) as Hin
    by (apply elem_of_can_select; eauto).
  rewrite Hnil in Hin. by apply elem_of_nil in Hin.
Qed.

Lemma can_select_full (sheet : ScoreSheet) :
  size sheet = 15%nat → can_select sheet = [].
Proof.
  intros Hsz. apply elem_of_nil_inv.
  intros s (i & cat & _ & Hn & _)%elem_of_can_select.
  destruct (sheet_full sheet cat Hsz) as [v Hv]. congruence.
Qed.

(** With a category left to pick, the arrow keys of the picker raise
    nothing. *)
Lemma move_category_Ok k G :
  can_select (ss (player G)) ≠ [] →
  sel (rs G) = BTNSC ∨ sel (rs G) ∈ can_select (ss (player G)) →
  ∃ G', move_category k G = Ok G'.
Proof.
  intros Hne Hsel. unfold move_category.
  set (cs := can_select (ss (player G))) in *.
  assert (0 < length cs)%nat as Hlen by (destruct cs; [done|simpl; lia]).
  destruct (getitem_in_range cs (-1)) as [lst Hlst]; [lia|].
  case_decide as H1; [rewrite Hlst; simpl; eauto|].
  case_decide as H2.
  { destruct Hsel as [?|Hin]; [tauto|].
    destruct (index_of_elem _ _ Hin) as (i & -> & Hi). simpl.
    apply lookup_lt_Some in Hi.
    destruct (getitem_in_range cs (Z.of_nat i - 1)) as [s' ->]; [lia|].
    simpl. eauto. }
  case_decide as H3; [|eauto].
  rewrite Hlst. simpl. case_decide as H4; [eauto|].
  case_decide as H5; [|eauto].
  destruct Hsel as [?|Hin]; [done|].
  destruct (index_of_elem _ _ Hin) as (i & -> & Hi). simpl.
  apply getitem_Ok in Hlst as (j & Hj & Hjl).
  rewrite decide_True in Hjl by lia.
  assert (i ≠ j) by (intros ->; congruence).
  apply lookup_lt_Some in Hi.
  destruct (getitem_in_range cs (Z.of_nat i + 1)) as [s' ->]; [lia|].
  simpl. eauto.
Qed.

Lemma reroll_no_crash G e : turn_inv G → reroll G ≠ Crash e.
Proof.
  intros HG. unfold reroll. repeat case_decide; try done.
  unfold reroll_dice. pose proof (reroll_loop_spec (ds G) (rng G)) as Hl.
  destruct (reroll_loop _ _) as [[d g]|]; simpl; [done|].
  destruct Hl as [_ Hout]. exfalso. apply Hout.
  destruct HG as [_ [Hlen _] Hm _ _ _ _]. by rewrite Hlen.
Qed.

(** The sizes of the sheets once the active player has scored a category
    that was open. *)
Lemma round_at_score G cat v n :
  (cursor G < length (players G))%nat → ss (player G) !! cat = None →
  (∀ i p, players G !! i = Some p →
     size (ss p) = if decide (i < cursor G)%nat then S n else n) →
  ∀ i p, score G cat v !! i = Some p →
    size (ss p) = if decide (i < S (cursor G))%nat then S n else n.
Proof.
  intros Hc Hcat Hn i p. unfold score.
  destruct (lookup_lt_is_Some_2 _ _ Hc) as [q Hq].
  rewrite (player_lookup _ _ Hq) in Hcat.
  destruct (decide (i = cursor G)) as [->|Hne].
  - rewrite list_lookup_alter, Hq. rewrite decide_True by done.
    intros [= <-]. simpl. unfold setitem.
    rewrite map_size_insert_None by done. rewrite (Hn _ _ Hq).
    rewrite decide_False by lia. by rewrite decide_True by lia.
  - rewrite list_lookup_alter_ne by done. intros Hi. rewrite (Hn _ _ Hi).
    repeat case_decide; (done || lia).
Qed.

(** One pass through the loop in a game that began with empty sheets: it
    raises nothing, and it ends a turn exactly on a confirmation that
    scores, which ends the game after the last turn of round 15. *)
Lemma step_round_at k G n :
  turn_inv G → round_at n G →
  let len := length (players G) in
  let t := if decide (confirms k G) then 1%nat else 0%nat in
  match game_loop_step k G with
  | Continue G' =>
      ∃ n', round_at n' G'
            ∧ (n' * len + cursor G' = n * len + cursor G + t)%nat
  | GameEnd G' => (n * len + cursor G + t = 15 * len)%nat
  | Exit => True
  | Crash e => False
  end.
Proof.
  intros HG [Hn15 Hn] len. cbv zeta.
  pose proof (inv_cursor G HG) as Hcur.
  destruct (decide (confirms k G)) as [[Hk Ht]|Hnc].
  - rewrite (step_confirm_key _ _ Hk).
    destruct (inv_togl G HG (proj1 Hk)) as [?|(cat & Hcat & Hnone)]; [done|].
    rewrite (confirm_category_scores G cat Ht Hcat).
    pose proof (round_at_score G cat (compute cat (dice (ds G))) n
                  Hcur Hnone Hn) as Hn'.
    cbv zeta. set (G' := next_turn G cat).
    assert (players G' = score G cat (compute cat (dice (ds G)))) as Hps
      by done.
    assert (cursor G' = (S (cursor G) `mod` len)%nat) as Hc' by done.
    clearbody G'.
    destruct (decide (S (cursor G) < len)%nat) as [Hlt|Hge].
    + rewrite Nat.mod_small in Hc' by done.
      rewrite decide_False by (rewrite Hc'; intros [[=] _]).
      exists n. split; [split; [done|]|lia].
      rewrite Hps, Hc'. done.
    + assert (S (cursor G) = len) as HS by (unfold len in *; lia).
      rewrite HS, Nat.Div0.mod_same in Hc'.
      assert (∀ i p, players G' !! i = Some p → size (ss p) = S n) as Hall.
      { intros i p Hi. rewrite Hps in Hi. rewrite (Hn' i p Hi).
        apply lookup_lt_Some in Hi. rewrite length_score in Hi.
        rewrite decide_True; [done|]. fold len in Hi. lia. }
      destruct (lookup_lt_is_Some_2 (players G') 0)
        as [q Hq]; [rewrite Hps, length_score; lia|].
      assert (size (ss (player G')) = S n) as Hsz.
      { rewrite <- Hc' in Hq. rewrite (player_lookup _ _ Hq).
        by apply (Hall (cursor G')). }
      rewrite Hsz. unfold len_Category. simpl length.
      case_decide as Hend.
      * destruct Hend as [_ Hend]. lia.
      * exists (S n). split; [split|].
        -- destruct (decide (S n = 15)%nat) as [E|]; [|lia].
           exfalso. apply Hend. split; [done|lia].
        -- intros i p Hi. rewrite (Hall _ _ Hi), Hc'.
           by rewrite decide_False by lia.
        -- rewrite Hc'. lia.
  - destruct (game_loop_step k G) as [G'|G'| |e] eqn:Hstep.
    + destruct (step_same_turn _ _ _ Hstep Hnc) as (Hps & Hc & _).
      exists n. split; [split; [done|by rewrite Hps, Hc]|]. lia.
    + by destruct (step_GameEnd _ _ _ Hstep).
    + done.
    + revert Hstep. unfold game_loop_step.
      case_decide; [done|]. destruct (picking_cat G) eqn:Hpick.
      * case_decide as Hck.
        { unfold confirm_category. case_decide as Ht; [done|].
          destruct Hnc. by split. }
        case_decide; [done|]. case_decide; [|done].
        destruct (move_category_Ok k G) as [G' ->]; [| |done].
        -- apply can_select_nonempty.
           destruct (lookup_lt_is_Some_2 _ _ Hcur) as [q Hq].
           rewrite (player_lookup _ _ Hq), (Hn _ _ Hq).
           rewrite decide_False by lia. done.
        -- by apply (inv_sel_picking G HG).
      * case_decide; [done|]. case_decide; [done|].
        case_decide; [intros Hr; by apply reroll_no_crash in Hr|].
        by case_decide.
Qed.

Lemma game_start_round_at ps r g :
  Forall (λ p, ss p = ∅) ps → round_at 0 (game_start ps r g).
Proof.
  intros Hps. unfold game_start. destruct (DiceState_init g) as [d g'].
  split; [lia|]. simpl. intros i p Hi. rewrite Forall_lookup in Hps.
  rewrite (Hps _ _ Hi). rewrite map_size_empty. by destruct i.
Qed.

(** What a pass through the loop does to the roster: nothing, or one
    entry, the score of the dice, in a category that the active player's
    sheet did not hold. *)
Lemma step_players k G :
  turn_inv G →
  match game_loop_step k G with
  | Continue G' | GameEnd G' =>
      players G' = players G
      ∨ ∃ cat, ss (player G) !! cat = None
               ∧ players G' = score G cat (compute cat (dice (ds G)))
  | _ => True
  end.
Proof.
  intros HG. destruct (decide (confirms k G)) as [[Hk Ht]|Hnc].
  - rewrite (step_confirm_key _ _ Hk).
    destruct (inv_togl G HG (proj1 Hk)) as [?|(cat & Hcat & Hnone)]; [done|].
    rewrite (confirm_category_scores G cat Ht Hcat). cbv zeta.
    case_decide; right; by exists cat.
  - destruct (game_loop_step k G) as [G'|G'| |e] eqn:Hstep; [| |done..].
    + left. by destruct (step_same_turn _ _ _ Hstep Hnc) as (-> & _).
    + by destruct (step_GameEnd _ _ _ Hstep).
Qed.

(** The sheets of roster [ps'] hold what those of [ps] hold, under the
    same names, and what they hold in addition is between 0 and 50. *)
Lemma roster_grows_score G cat :
  turn_inv G → ss (player G) !! cat = None →
  ∀ i p, players G !! i = Some p →
    ∃ p', score G cat (compute cat (dice (ds G))) !! i = Some p'
          ∧ name p' = name p ∧ ss p ⊆ ss p'
          ∧ ∀ c v, ss p' !! c = Some v →
                   ss p !! c = Some v ∨ 0 <= v <= 50.
Proof.
  intros HG Hnone i p Hi. unfold score.
  destruct (decide (i = cursor G)) as [->|Hne].
  - rewrite list_lookup_alter, Hi. rewrite decide_True by done.
    eexists. split; [done|]. simpl.
    rewrite (player_lookup _ _ Hi) in Hnone. unfold setitem.
    split_and!; [done|by apply insert_subseteq|].
    intros c v. destruct (decide (c = cat)) as [->|Hc].
    + rewrite lookup_insert_eq. intros [= <-]. right.
      apply compute_bounds, (inv_roll G HG).
    + rewrite lookup_insert_ne by done. auto.
  - rewrite list_lookup_alter_ne by done. exists p. auto.
Qed.

(** ** The frame in a game that began with empty sheets *)

Lemma str_digits_small n : -1000 < n < 1000 → (str_digits n <= 3)%nat.
Proof.
  intros Hn.
  assert (forallb (λ k, (str_digits (Z.of_nat k) <=? 3)%nat
                        && (str_digits (- Z.of_nat k) <=? 3)%nat)
            (seq 0 1000) = true) as H by (vm_compute; reflexivity).
  rewrite forallb_forall in H.
  assert (In (Z.to_nat (Z.abs n)) (seq 0 1000)) as Hin
    by (apply in_seq; lia).
  apply H in Hin. apply andb_true_iff in Hin as [H1 H2].
  apply Nat.leb_le in H1, H2.
  destruct (decide (0 <= n)).
  - by replace n with (Z.of_nat (Z.to_nat (Z.abs n))) by lia.
  - by replace n with (- Z.of_nat (Z.to_nat (Z.abs n))) by lia.
Qed.

(** An integer of at most three digits has a text. *)
Lemma format_d_small n : -1000 < n < 1000 → format_d n = Ok (decimal n).
Proof.
  intros Hn. unfold format_d. rewrite decide_True; [done|].
  pose proof (str_digits_small n Hn). unfold int_max_str_digits. lia.
Qed.

Lemma bind_Ok {A B} (x : A) (k : A → result B) : Ok x ≫= k = k x.
Proof. reflexivity. Qed.

Lemma sum_fmap_bounds {A} (f : A → Z) l lo hi :
  (∀ x, lo <= f x <= hi) →
  Z.of_nat (length l) * lo <= sum (f <$> l) <= Z.of_nat (length l) * hi.
Proof.
  intros Hf. induction l as [|x l IH]; [simpl; lia|].
  specialize (Hf x). cbn [fmap list_fmap length sum foldr] in *.
  fold (sum (f <$> l)). lia.
Qed.

(** The total of a sheet of scores of five dice. *)
Lemma total_bounded (sheet : ScoreSheet) :
  (∀ c v, sheet !! c = Some v → 0 <= v <= 50) → 0 <= total sheet <= 800.
Proof.
  intros H.
  assert (∀ c, 0 <= get sheet c 0 <= 50) as Hg.
  { intros c. unfold get. destruct (sheet !! c) as [v|] eqn:E; simpl;
      [by apply (H c)|lia]. }
  unfold total.
  pose proof (sum_fmap_bounds (λ c, get sheet c 0) LOWER_SECTION 0 50 Hg)
    as Hl.
  pose proof (sum_fmap_bounds (λ c, get sheet c 0) UPPER_SECTION 0 50 Hg)
    as Hu.
  assert (length LOWER_SECTION = 9%nat) as E1 by (vm_compute; reflexivity).
  assert (length UPPER_SECTION = 6%nat) as E2 by reflexivity.
  rewrite E1 in Hl. rewrite E2 in Hu. cbv zeta. case_decide; lia.
Qed.

Lemma tally_Permutation ps : tally ps ≡ₚ ps.
Proof.
  apply (sorted_reverse_spec (λ p, total (ss p)) _
           (λ p q, total (ss p) >= total (ss q))); [|done].
  intros x y. unfold ScoreSheet_lt. done.
Qed.

Lemma draw_tally_lines_Ok rt :
  Forall (λ p, -1000 < total (ss p) < 1000) rt → draw_tally_lines rt = Ok ().
Proof.
  induction 1 as [|p rt Hp _ IH]; [done|]. simpl.
  by rewrite (format_d_small _ Hp).
Qed.

Lemma draw_row_Ok G c :
  is_roll (dice (ds G)) →
  (∀ v, ss (player G) !! c = Some v → 0 <= v <= 50) →
  draw_row G c
  = Ok (picking_cat G && bool_decide (ss (player G) !! c = None)).
Proof.
  intros Hroll Hv. unfold draw_row, get.
  destruct (ss (player G) !! c) as [v|] eqn:E; simpl.
  - specialize (Hv v eq_refl). rewrite decide_False by lia.
    rewrite format_d_small by lia. simpl. by rewrite andb_false_r.
  - destruct (picking_cat G); [|done].
    pose proof (compute_bounds c _ Hroll).
    by rewrite format_d_small by lia.
Qed.

Lemma draw_rows_Ok G cats a :
  is_roll (dice (ds G)) →
  (∀ c v, ss (player G) !! c = Some v → 0 <= v <= 50) →
  draw_rows G cats a
  = Ok (a || picking_cat G
             && existsb (λ c, bool_decide (ss (player G) !! c = None)) cats).
Proof.
  intros Hroll Hv. revert a.
  induction cats as [|c cats IH]; intros a; simpl.
  - by rewrite andb_false_r, orb_false_r.
  - rewrite (draw_row_Ok G c Hroll (Hv c)). simpl. rewrite IH.
    f_equal. destruct a, (picking_cat G), (bool_decide _); done.
Qed.

Lemma draw_dice_Ok dice : Forall (λ d, 1 <= d <= 6) dice → draw_dice dice = Ok ().
Proof.
  induction 1 as [|d dice Hd _ IH]; [done|]. simpl. rewrite IH.
  assert (d = 1 ∨ d = 2 ∨ d = 3 ∨ d = 4 ∨ d = 5 ∨ d = 6) as Hc by lia.
  by destruct Hc as [->|[->|[->|[->|[->| ->]]]]].
Qed.

Lemma players_scores G p :
  scores_inv G → players G !! cursor G = Some p →
  ∀ c v, ss (player G) !! c = Some v → 0 <= v <= 50.
Proof.
  intros HS Hp c v. rewrite (player_lookup _ _ Hp). by apply (HS _ _ Hp).
Qed.

(** The frame of a state of a game that began with empty sheets is drawn
    without an exception, whether [arrow] is bound or not: in the picker a
    row without an entry binds it. *)
Lemma draw_frame_Ok a G n :
  turn_inv G → round_at n G → scores_inv G → ∃ a', draw_frame a G = Ok a'.
Proof.
  intros HG [Hn15 Hn] HS.
  pose proof (inv_cursor G HG) as Hcur.
  destruct (lookup_lt_is_Some_2 _ _ Hcur) as [q Hq].
  pose proof (players_scores G q HS Hq) as Hv.
  pose proof (inv_roll G HG) as Hroll.
  pose proof (inv_rolls G HG) as Hrolls.
  pose proof (total_bounded _ Hv) as Htot.
  unfold draw_frame.
  assert ((if picking_cat G then Ok EmptyString
           else format_d (rolls (ds G)))
          = Ok (if picking_cat G then EmptyString
                else decimal (rolls (ds G)))) as ->.
  { destruct (picking_cat G); [done|]. by rewrite format_d_small by lia. }
  rewrite bind_Ok.
  assert (draw_tally (tally (players G)) = Ok ()) as ->.
  { unfold draw_tally. rewrite draw_tally_lines_Ok.
    - rewrite bind_Ok. destruct (tally (players G)) eqn:E; [|done].
      pose proof (tally_Permutation (players G)) as Hp. rewrite E in Hp.
      apply Permutation_nil in Hp. rewrite Hp in Hq. done.
    - rewrite tally_Permutation. apply Forall_lookup. intros i p Hp.
      pose proof (total_bounded (ss p) (HS i p Hp)). lia. }
  rewrite bind_Ok, (draw_rows_Ok G _ a Hroll Hv), bind_Ok.
  rewrite format_d_small by lia. rewrite bind_Ok.
  rewrite draw_dice_Ok by apply Hroll.
  destruct (picking_cat G) eqn:Hpick; [|by eexists].
  assert (∃ cat, getitem Category_members (togl (rs G)) = Ok cat)
    as [cat Hcat].
  { destruct (inv_togl G HG Hpick) as [->|(cat & ? & _)]; [|by exists cat].
    by exists YATZY. }
  rewrite Hcat, !bind_Ok.
  assert (existsb (λ c, bool_decide (ss (player G) !! c = None))
            Category_members = true) as ->.
  { destruct (sheet_open_category (ss (player G))) as [c Hc].
    - rewrite (player_lookup _ _ Hq), (Hn _ _ Hq).
      by rewrite decide_False by lia.
    - apply existsb_exists. exists c. split.
      + destruct c; apply (bool_decide_unpack _); vm_compute; exact I.
      + by apply bool_decide_eq_true. }
  rewrite orb_true_r.
  assert (0 <= total (setitem (ss (player G)) cat
                    (compute cat (dice (ds G)))) <= 800) as Ht.
  { apply total_bounded. intros c v. unfold setitem.
    destruct (decide (c = cat)) as [->|Hne].
    - rewrite lookup_insert_eq. intros [= <-]. by apply compute_bounds.
    - rewrite lookup_insert_ne by done. apply Hv. }
  rewrite format_d_small by lia. rewrite ?bind_Ok. by eexists.
Qed.

Lemma game_start_scores_inv ps r g :
  Forall (λ p, ss p = ∅) ps → scores_inv (game_start ps r g).
Proof.
  intros Hps. unfold game_start. destruct (DiceState_init g) as [d g'].
  intros i p Hi c v. simpl in Hi. rewrite Forall_lookup in Hps.
  by rewrite (Hps _ _ Hi).
Qed.

Lemma step_scores_inv k G :
  turn_inv G → scores_inv G →
  match game_loop_step k G with
  | Continue G' | GameEnd G' => scores_inv G'
  | _ => True
  end.
Proof.
  intros HG HS. pose proof (step_players k G HG) as Hpl.
  assert (∀ G', players G' = players G
                ∨ (∃ cat, ss (player G) !! cat = None
                          ∧ players G'
                            = score G cat (compute cat (dice (ds G)))) →
                scores_inv G') as Hcase.
  { intros G' [E|(cat & Hnone & E)]; unfold scores_inv; rewrite E; [done|].
    intros i p' Hi c v Hc.
    destruct (lookup_lt_is_Some_2 (players G) i) as [p Hp].
    { apply lookup_lt_Some in Hi. by rewrite length_score in Hi. }
    destruct (roster_grows_score G cat HG Hnone i p Hp)
      as (p2 & Hp2 & _ & _ & Hv2).
    rewrite Hi in Hp2. injection Hp2 as <-.
    destruct (Hv2 c v Hc) as [Hold|?]; [|done]. by apply (HS i p Hp c). }
  destruct (game_loop_step k G); auto.
Qed.

(** The loop as a whole, from a state of round [n]. *)
Lemma game_loop_round_at keys :
  ∀ a G n, turn_inv G → round_at n G → scores_inv G →
    let len := length (players G) in
    match game_loop_frames a keys G with
    | Continue G' =>
        ∃ n', round_at n' G' ∧ turn_inv G'
              ∧ length (players G') = len
              ∧ (n' * len + cursor G' = n * len + cursor G + turns keys G)%nat
    | GameEnd G' => (n * len + cursor G + turns keys G = 15 * len)%nat
    | Exit => True
    | Crash e => False
    end.
Proof.
  induction keys as [|k keys IH]; intros a G n HG HR HS len; simpl;
    destruct (draw_frame_Ok a G n HG HR HS) as [a' ->].
  { exists n. split_and!; auto. }
  pose proof (step_round_at k G n HG HR) as Hstep.
  pose proof (step_turn_inv k G HG) as HG'.
  pose proof (step_scores_inv k G HG HS) as HS'.
  pose proof (length_players_step k G) as Hlen.
  destruct (game_loop_step k G) as [G1|G1| |e]; simpl in *; [| |done..].
  - destruct Hstep as (n1 & HR1 & Ht).
    specialize (IH a' G1 n1 HG' HR1 HS'). simpl in IH. rewrite Hlen in IH.
    fold len in IH, Ht.
    destruct (game_loop_frames a' keys G1) as [G2|G2| |e]; [| |done..].
    + destruct IH as (n2 & ? & ? & ? & ?). exists n2.
      split_and!; [done..|]. lia.
    + lia.
  - fold len in Hstep. lia.
Qed.

(** X8.  A game that begins with empty sheets raises no exception, whatever
    keys are pressed: the picker always has a category to move to, the
    category confirmed exists, and the reroll mask selects dice that
    exist. *)
Theorem game_never_crashes ps r g keys e :
  ps ≠ [] → Forall (λ p, ss p = ∅) ps →
  game_loop keys (game_start ps r g) ≠ Crash e.
Proof.
  intros Hps Hempty Hrun.
  pose proof (game_loop_round_at keys false _ 0
                (game_start_turn_inv ps r g Hps)
                (game_start_round_at ps r g Hempty)
                (game_start_scores_inv ps r g Hempty)) as H.
  fold (game_loop keys (game_start ps r g)) in H.
  simpl in H. by rewrite Hrun in H.
Qed.

Lemma game_never_crashes_witness :
  game_loop [ctrl_K; KEY_UP; KEY_UP; KEY_DOWN; KEY_DOWN; ctrl_S] demo_start
  ≠ Crash IndexError.
Proof.
  apply (game_never_crashes demo_players
           (mkRenderState BTNAP (-1) EmptyString) demo_rng).
  - discriminate.
  - repeat constructor.
Defined.

(** X9.  In a game that begins with empty sheets the turns go round the
    roster: after [t] turns it is the turn of player [t mod len], every
    player has scored [t / len] categories and those in front of the
    cursor one more, and the game ends with turn [15 * len], not before
    and not later. *)
Theorem game_takes_15_rounds ps r g keys :
  ps ≠ [] → Forall (λ p, ss p = ∅) ps →
  let t := turns keys (game_start ps r g) in
  let len := length ps in
  match game_loop keys (game_start ps r g) with
  | Continue G =>
      (t < 15 * len)%nat
      ∧ cursor G = (t `mod` len)%nat
      ∧ ∀ i p, players G !! i = Some p →
          size (ss p)
          = (t `div` len + if decide (i < t `mod` len) then 1 else 0)%nat
  | GameEnd G => t = (15 * len)%nat
  | _ => True
  end.
Proof.
  intros Hps Hempty t len.
  pose proof (game_loop_round_at keys false _ 0
                (game_start_turn_inv ps r g Hps)
                (game_start_round_at ps r g Hempty)
                (game_start_scores_inv ps r g Hempty)) as H.
  fold (game_loop keys (game_start ps r g)) in H.
  assert (length (players (game_start ps r g)) = len
          ∧ cursor (game_start ps r g) = 0%nat) as [Hl Hc]
    by (unfold game_start; by destruct (DiceState_init g)).
  cbv zeta in H. rewrite Hl, Hc in H. fold t in H.
  assert (0 < len)%nat by (unfold len; destruct ps; [done|simpl; lia]).
  destruct (game_loop keys (game_start ps r g)) as [G|G| |]; [|lia|done..].
  destruct H as (n & [Hn15 Hn] & HG & Hlen & Ht).
  pose proof (inv_cursor G HG) as Hcur. rewrite Hlen in Hcur.
  assert (t `div` len = n ∧ t `mod` len = cursor G)%nat as [Hdiv Hmod].
  { assert (t = cursor G + n * len)%nat as -> by lia.
    rewrite Nat.div_add, Nat.Div0.mod_add by lia.
    rewrite Nat.div_small, Nat.mod_small by done. done. }
  split_and!; [nia|done|].
  intros i p Hi. rewrite (Hn i p Hi), Hdiv, Hmod. case_decide; lia.
Qed.

Lemma game_takes_15_rounds_witness :
  turns (demo_keys 30) demo_start = 30%nat.
Proof.
  pose proof (game_takes_15_rounds demo_players
                (mkRenderState BTNAP (-1) EmptyString) demo_rng (demo_keys 30)
                ltac:(discriminate) ltac:(repeat constructor)) as H.
  cbv zeta in H.
  assert (∃ G, game_loop (demo_keys 30)
                 (game_start demo_players
                    (mkRenderState BTNAP (-1) EmptyString) demo_rng)
               = GameEnd G) as [G HG]
    by (vm_compute; eexists; reflexivity).
  rewrite HG in H. exact H.
Defined.

(** X10.  Whatever the sheets at the start of a game: while it goes on and when
    it ends, every player is still there under the same name, no entry of
    a sheet has been removed or changed, and each entry added is between 0
    and 50. *)
Theorem sheets_only_grow ps r g keys G :
  ps ≠ [] →
  game_loop keys (game_start ps r g) = Continue G
  ∨ game_loop keys (game_start ps r g) = GameEnd G →
  length (players G) = length ps
  ∧ ∀ i p, ps !! i = Some p →
      ∃ p', players G !! i = Some p'
            ∧ name p' = name p ∧ ss p ⊆ ss p'
            ∧ ∀ c v, ss p' !! c = Some v →
                     ss p !! c = Some v ∨ 0 <= v <= 50.
Proof.
  intros Hps Hrun.
  set (I := λ G : Game,
         turn_inv G ∧ length (players G) = length ps
         ∧ ∀ i p, ps !! i = Some p →
             ∃ p', players G !! i = Some p'
                   ∧ name p' = name p ∧ ss p ⊆ ss p'
                   ∧ ∀ c v, ss p' !! c = Some v →
                            ss p !! c = Some v ∨ 0 <= v <= 50).
  assert (I (game_start ps r g)) as Hstart.
  { split; [by apply game_start_turn_inv|].
    unfold game_start. destruct (DiceState_init g). simpl.
    split; [done|]. intros i p Hi. exists p. auto. }
  assert (∀ k G, I G → match game_loop_step k G with
                        | Continue G' | GameEnd G' => I G'
                        | _ => True
                        end) as Hstep.
  { intros k G1 (HG1 & Hlen & Hkeep).
    pose proof (step_turn_inv k G1 HG1) as HG'.
    pose proof (step_players k G1 HG1) as Hpl.
    assert (∀ G', turn_inv G' →
              players G' = players G1
              ∨ (∃ cat, ss (player G1) !! cat = None
                        ∧ players G'
                          = score G1 cat (compute cat (dice (ds G1)))) →
              I G') as Hcase.
    { intros G' HGi Hor. unfold I.
      destruct Hor as [E|(cat & Hnone & E)]; rewrite E; [by split|].
      split; [done|]. rewrite length_score. split; [done|].
      intros i p Hi. destruct (Hkeep i p Hi) as (p1 & Hp1 & Hn1 & Hs1 & Hv1).
      destruct (roster_grows_score G1 cat HG1 Hnone i p1 Hp1)
        as (p2 & Hp2 & Hn2 & Hs2 & Hv2).
      exists p2. split_and!; [done|congruence|by etrans|].
      intros c v Hv. destruct (Hv2 c v Hv) as [Hold|?]; auto. }
    destruct (game_loop_step k G1); auto. }
  pose proof (game_loop_inv I Hstep keys _ Hstart) as Hinv.
  destruct Hrun as [Hrun|Hrun]; rewrite Hrun in Hinv;
    by destruct Hinv as (_ & ? & ?).
Qed.

Lemma sheets_only_grow_witness :
  ∃ G, game_loop demo_turn demo_start = Continue G
       ∧ length (players G) = 2%nat.
Proof.
  assert (∃ G, game_loop demo_turn demo_start = Continue G) as [G HG]
    by (vm_compute; eexists; reflexivity).
  exists G. split; [done|].
  apply (sheets_only_grow demo_players (mkRenderState BTNAP (-1) EmptyString)
           demo_rng demo_turn G ltac:(discriminate) (or_introl HG)).
Defined.

Lemma bind_Ok_inv {A B} (m : result A) (k : A → result B) b :
  m ≫= k = Ok b → ∃ x, m = Ok x ∧ k x = Ok b.
Proof. destruct m as [x|e]; [by exists x|done]. Qed.

(** While no category is picked the rows leave [arrow] as it is. *)
Lemma draw_rows_rolling G cats a b :
  picking_cat G = false → draw_rows G cats a = Ok b → b = a.
Proof.
  intros Hpick. revert a. induction cats as [|c cats IH]; intros a; simpl.
  - by intros [= <-].
  - intros (x & Hx & Hrest)%bind_Ok_inv. apply IH in Hrest as ->.
    revert Hx. unfold draw_row. rewrite Hpick.
    case_decide; [intros [= <-]|intros (? & _ & [= <-])%bind_Ok_inv];
      by rewrite orb_false_r.
Qed.

Lemma draw_frame_rolling G a b :
  picking_cat G = false → draw_frame a G = Ok b → b = a.
Proof.
  intros Hpick. unfold draw_frame.
  intros (_ & _ & (_ & _ & (x & Hx & H)%bind_Ok_inv)%bind_Ok_inv)%bind_Ok_inv.
  apply (draw_rows_rolling _ _ _ _ Hpick) in Hx as ->.
  apply bind_Ok_inv in H as (_ & _ & (_ & _ & H)%bind_Ok_inv).
  by apply bind_Ok_inv in H as (_ & _ & [= <-]).
Qed.

(** The state after [^K] or Enter on [Keep All]. *)
Lemma step_enter_picker k G :
  picking_cat G = false →
  k = ctrl_K ∨ (k = newline ∧ sel (rs G) = BTNKA) →
  game_loop_step k G
  = Continue (mkGame (players G) (cursor G) (ds G)
                (mkRenderState BTNSC (-1) EmptyString) true (rng G)).
Proof.
  intros Hpick Hk. unfold game_loop_step. rewrite Hpick.
  rewrite decide_False by (destruct Hk as [->|[-> _]]; done).
  rewrite decide_False by (destruct Hk as [->|[-> _]]; done).
  by rewrite decide_True.
Qed.

(** A pass through the loop while no category is picked: it keeps the
    roster and the turn, and it picks a category only on [^K] or on Enter
    on [Keep All]. *)
Lemma step_rolling k G :
  picking_cat G = false →
  match game_loop_step k G with
  | Continue G' =>
      players G' = players G ∧ cursor G' = cursor G
      ∧ (picking_cat G' = false
         ∨ k = ctrl_K ∨ (k = newline ∧ sel (rs G) = BTNKA))
  | GameEnd _ => False
  | _ => True
  end.
Proof.
  intros Hpick. unfold game_loop_step. rewrite Hpick.
  case_decide; [done|]. case_decide; [by auto|].
  case_decide; [by auto|].
  case_decide.
  { unfold reroll. repeat case_decide; try (by auto).
    destruct (reroll_dice _ _) as [[? ?]|]; [|done]. by auto. }
  case_decide; [by auto|].
  unfold move_dice; destruct k; repeat case_decide; simpl; auto.
Qed.

(** In the picker of a player whose sheet is full, the frame reads
    [arrow] without a row that binds it. *)
Lemma draw_frame_full_picker G p0 a0 :
  players G !! cursor G = Some p0 → size (ss p0) = 15%nat →
  (∀ c, ss p0 !! c ≠ Some (-1)) →
  picking_cat G = false → draw_frame false G = Ok a0 →
  draw_frame false
    (mkGame (players G) (cursor G) (ds G)
       (mkRenderState BTNSC (-1) EmptyString) true (rng G))
  = Raise UnboundLocalError.
Proof.
  intros Hp0 Hfull Hneg Hpick. unfold draw_frame. rewrite Hpick.
  set (G' := mkGame _ _ _ _ _ _).
  assert (player G' = player G) as Hpl by done.
  assert (∀ cats a, draw_rows G' cats a = draw_rows G cats a) as Hrows.
  { induction cats as [|c cats IH]; intros a; [done|]. simpl.
    assert (draw_row G' c = draw_row G c) as ->.
    { unfold draw_row. rewrite Hpl.
      unfold get. rewrite (player_lookup _ _ Hp0).
      destruct (sheet_full (ss p0) c Hfull) as [v Hv]. rewrite Hv. simpl.
      rewrite !decide_False; [done|intros ->; by apply (Hneg c)..]. }
    destruct (draw_row G c); [apply IH|done]. }
  intros (x1 & _ & H)%bind_Ok_inv.
  apply bind_Ok_inv in H as ([] & Htally & H).
  apply bind_Ok_inv in H as (x & Hx & H).
  apply bind_Ok_inv in H as (t & Ht & _).
  change (players G') with (players G). rewrite Hpl.
  change (picking_cat G') with true. cbv iota.
  rewrite bind_Ok, Htally, bind_Ok, Hrows, Hx, bind_Ok, Ht, bind_Ok.
  apply (draw_rows_rolling _ _ _ _ Hpick) in Hx as ->.
  reflexivity.
Qed.

(** A game whose first player has a full sheet is stuck at that player. *)
Lemma blocked_game ps p0 r g keys :
  ps !! 0%nat = Some p0 → size (ss p0) = 15%nat →
  match game_loop keys (game_start ps r g) with
  | Continue G => players G = ps ∧ cursor G = 0%nat
  | GameEnd _ => False
  | _ => True
  end.
Proof.
  intros Hp0 Hfull.
  set (J := λ G : Game,
         players G = ps ∧ cursor G = 0%nat
         ∧ (picking_cat G = true →
            sel (rs G) = BTNSC ∧ togl (rs G) = -1)).
  assert (J (game_start ps r g)) as Hstart.
  { unfold game_start. by destruct (DiceState_init g). }
  assert (∀ k G, J G →
            match game_loop_step k G with
            | Continue G' => J G'
            | GameEnd _ => False
            | _ => True
            end) as Hstep.
  { intros k G HJ. pose proof HJ as (Hp & Hc & Hsel).
    destruct (picking_cat G) eqn:Hpick.
    - assert (can_select (ss (player G)) = []) as Hnil.
      { apply can_select_full. rewrite <- Hp, <- Hc in Hp0.
        by rewrite (player_lookup _ _ Hp0). }
      unfold game_loop_step. rewrite Hpick. case_decide; [done|].
      destruct (Hsel eq_refl) as [Hs Ht].
      case_decide.
      { unfold confirm_category. rewrite decide_True by done.
        by split_and!. }
      case_decide; [unfold BTNSC in *; lia|].
      case_decide as Hk; [|done].
      unfold move_category. rewrite Hnil, Hs.
      destruct Hk as [-> | ->].
      + by rewrite decide_True.
      + rewrite decide_False by (intros [[=] _]).
        rewrite decide_False by done. by rewrite decide_True.
    - pose proof (step_rolling k G Hpick) as Hr.
      destruct (game_loop_step k G) as [G'| | |] eqn:Hst; [|done..].
      destruct Hr as (E1 & E2 & Hor). unfold J. rewrite E1, E2.
      split_and!; [done..|]. intros Hp'.
      destruct Hor as [?|Hk]; [congruence|].
      rewrite (step_enter_picker k G Hpick Hk) in Hst.
      by injection Hst as <-. }
  pose proof (game_loop_frames_inv J (λ _, False) Hstep keys false _ Hstart)
    as H.
  fold (game_loop keys (game_start ps r g)) in H.
  destruct (game_loop keys (game_start ps r g)) as [G|G| |]; try done.
  by destruct H as (? & ? & _).
Qed.

(** X11.  A game whose first player has a full sheet, as after a finished
    game, makes no progress: no key scores a category or ends the game,
    the roster stays as it is and the turn stays with the first player,
    and the category picker never opens, because on [^K], or on Enter on
    [Keep All], the frame of the picker raises [UnboundLocalError]: it
    reads the variable [arrow], which only the row of a category without
    an entry assigns. *)
Theorem full_sheet_blocks_game ps p0 r g keys :
  ps !! 0%nat = Some p0 → size (ss p0) = 15%nat →
  (∀ c, ss p0 !! c ≠ Some (-1)) →
  match game_loop keys (game_start ps r g) with
  | Continue G =>
      players G = ps ∧ cursor G = 0%nat ∧ picking_cat G = false
      ∧ ∀ k, k = ctrl_K ∨ (k = newline ∧ sel (rs G) = BTNKA) →
             game_loop (keys ++ [k]) (game_start ps r g)
             = Crash UnboundLocalError
  | GameEnd _ => False
  | _ => True
  end.
Proof.
  intros Hp0 Hfull Hneg. unfold game_loop.
  set (J := λ G : Game,
         players G = ps ∧ cursor G = 0%nat ∧ picking_cat G = false).
  assert (J (game_start ps r g)) as Hstart.
  { unfold game_start. by destruct (DiceState_init g). }
  generalize dependent (game_start ps r g).
  induction keys as [|k0 keys IH]; intros G HJ; simpl;
    destruct (draw_frame false G) as [a0|] eqn:Hdraw; try done;
    pose proof HJ as (Hp & Hc & Hpick);
    apply (draw_frame_rolling _ _ _ Hpick) in Hdraw as Ha; subst a0.
  - split_and!; [done..|]. intros k Hk.
    rewrite (step_enter_picker k G Hpick Hk). simpl.
    rewrite (draw_frame_full_picker G p0 false); try done.
    by rewrite Hp, Hc.
  - pose proof (step_rolling k0 G Hpick) as Hr.
    destruct (game_loop_step k0 G) as [G1| | |] eqn:Hst; [|done..].
    destruct Hr as (E1 & E2 & Hor).
    destruct (picking_cat G1) eqn:Hpick1.
    + destruct Hor as [?|Hk]; [done|].
      rewrite (step_enter_picker k0 G Hpick Hk) in Hst. injection Hst as <-.
      destruct keys; simpl;
        rewrite (draw_frame_full_picker G p0 false); try done;
        by rewrite Hp, Hc.
    + apply IH. unfold J. by rewrite E1, E2.
Qed.

Lemma full_sheet_blocks_game_witness :
  game_loop ([ctrl_A] ++ [ctrl_K])
    (game_start [mkPlayer "Ann" full_sheet]
       (mkRenderState BTNAP (-1) EmptyString) demo_rng)
  = Crash UnboundLocalError.
Proof.
  pose proof (full_sheet_blocks_game [mkPlayer "Ann" full_sheet]
                (mkPlayer "Ann" full_sheet)
                (mkRenderState BTNAP (-1) EmptyString) demo_rng [ctrl_A]
                eq_refl) as H.
  assert (∃ G, game_loop [ctrl_A]
                 (game_start [mkPlayer "Ann" full_sheet]
                    (mkRenderState BTNAP (-1) EmptyString) demo_rng)
               = Continue G) as (G & HG)
    by (vm_compute; eexists; reflexivity).
  rewrite HG in H. destruct H as (_ & _ & _ & Hcrash).
  - vm_compute. reflexivity.
  - intros c. destruct c; vm_compute; discriminate.
  - apply Hcrash. left. reflexivity.
Defined.

(** Once a row has bound [arrow] it stays bound.  When the first player
    has picked a category, the picker of a second player whose sheet is
    full does open, and there the arrow keys find no category to move
    to. *)
Example arrow_stays_bound :
  match game_loop [ctrl_K; KEY_UP; newline; ctrl_S; ctrl_K]
          (game_start [mkPlayer "Ann" ∅; mkPlayer "Bob" full_sheet]
             (mkRenderState BTNAP (-1) EmptyString) demo_rng) with
  | Continue G =>
      cursor G = 1%nat ∧ picking_cat G = true
      ∧ game_loop_step KEY_UP G = Crash IndexError
  | _ => False
  end.
Proof. vm_compute. split_and!; reflexivity. Qed.

(** ** The leaderboard *)

Lemma str_compare_refl s : (s ?= s)%string = Eq.
Proof.
  pose proof (String.compare_antisym s s) as H.
  by destruct (s ?= s)%string.
Qed.

Lemma str_lt_spec a b : str_lt a b = true ↔ String.leb a b = true ∧ a ≠ b.
Proof.
  unfold str_lt, String.ltb, String.leb.
  destruct (a ?= b)%string eqn:E.
  - apply String.compare_eq_iff in E. split; [done|]. by intros [_ []].
  - split; [|done]. intros _. split; [done|].
    intros ->. by rewrite str_compare_refl in E.
  - split; [done|]. by intros [? _].
Qed.

Lemma str_lt_irrefl a : str_lt a a = false.
Proof. unfold str_lt, String.ltb. by rewrite str_compare_refl. Qed.

Lemma str_lt_trans a b c :
  str_lt a b = true → str_lt b c = true → str_lt a c = true.
Proof.
  rewrite !str_lt_spec. intros [Hab Hne] [Hbc Hne'].
  assert (String.le a c) as Hac.
  { transitivity b; by apply Is_true_true. }
  apply Is_true_true in Hac. split; [done|]. intros ->.
  apply Hne. by apply String.leb_antisym.
Qed.

Lemma str_lt_total a b : str_lt a b = false → str_lt b a = false → a = b.
Proof.
  unfold str_lt, String.ltb. rewrite (String.compare_antisym b a).
  destruct (a ?= b)%string eqn:E; try done.
  intros _ _. by apply String.compare_eq_iff.
Qed.

Lemma str_lt_leb a b : str_lt a b = false ↔ String.leb b a = true.
Proof.
  unfold str_lt, String.ltb, String.leb. rewrite (String.compare_antisym b a).
  by destruct (a ?= b)%string.
Qed.

Lemma tuple_lt_irrefl k : tuple_lt k k = false.
Proof. unfold tuple_lt. rewrite decide_True by done. apply str_lt_irrefl. Qed.

Lemma tuple_lt_trans k1 k2 k3 :
  tuple_lt k1 k2 = true → tuple_lt k2 k3 = true → tuple_lt k1 k3 = true.
Proof.
  unfold tuple_lt. destruct k1 as [a1 s1], k2 as [a2 s2], k3 as [a3 s3]. simpl.
  repeat case_decide; subst; rewrite ?bool_decide_eq_true; try lia;
    eauto using str_lt_trans.
Qed.

Lemma tuple_lt_total k1 k2 :
  tuple_lt k1 k2 = false → tuple_lt k2 k1 = false → k1 = k2.
Proof.
  unfold tuple_lt. destruct k1 as [a1 s1], k2 as [a2 s2]. simpl.
  repeat case_decide; subst; rewrite ?bool_decide_eq_false; try lia.
  intros. f_equal. by apply str_lt_total.
Qed.

(** In terms of the keys, [entry_le e1 e2] says that the key of [e2] is
    not below the key of [e1]. *)
Lemma entry_le_key e1 e2 :
  entry_le e1 e2 ↔ tuple_lt (hist_key e2) (hist_key e1) = false.
Proof.
  unfold entry_le, tuple_lt, hist_key. destruct e1 as [a1 s1], e2 as [a2 s2].
  simpl. case_decide.
  - rewrite str_lt_leb. split; [intros [?|[_ ?]]; [lia|done]|].
    intros ?. right. split; [lia|done].
  - rewrite bool_decide_eq_false. split; [intros [?|[? _]]; lia|].
    intros ?. left. lia.
Qed.

Section bisect_spec.
Context {A K : Type} (lt_K : K → K → bool) (key : A → K).
Hypothesis lt_trans :
  ∀ a b c, lt_K a b = true → lt_K b c = true → lt_K a c = true.
Hypothesis lt_total : ∀ a b, lt_K a b = false → lt_K b a = false → a = b.

(** Sorted by key, ascending. *)
Let sorted (a : list A) : Prop :=
  StronglySorted (λ e1 e2, lt_K (key e2) (key e1) = false) a.

Lemma lt_le_trans x k1 k2 :
  lt_K x k1 = true → lt_K k2 k1 = false → lt_K x k2 = true.
Proof.
  intros H1 H2. destruct (lt_K k1 k2) eqn:H3; [by eapply lt_trans|].
  by rewrite <- (lt_total _ _ H3 H2).
Qed.

Lemma sorted_lookup a i j ei ej :
  sorted a → (i < j)%nat → a !! i = Some ei → a !! j = Some ej →
  lt_K (key ej) (key ei) = false.
Proof.
  intros Hs. revert i j. induction Hs as [|e a Hs IH He]; intros i j Hij; [done|].
  destruct i as [|i], j as [|j]; try lia; simpl.
  - intros [= <-] Hj. rewrite Forall_forall in He. apply He.
    by eapply list_elem_of_lookup_2.
  - apply IH. lia.
Qed.

(** The binary search of [bisect_right] on a sorted list: it finds the
    position behind the last entry whose key is not above [x]. *)
Lemma bisect_right_spec a x lo hi :
  sorted a → (lo <= hi <= length a)%nat →
  (∀ i e, (i < lo)%nat → a !! i = Some e → lt_K x (key e) = false) →
  (∀ i e, (hi <= i)%nat → a !! i = Some e → lt_K x (key e) = true) →
  ∃ p, bisect_right lt_K key a x lo hi = Ok p
       ∧ (p <= length a)%nat
       ∧ (∀ i e, (i < p)%nat → a !! i = Some e → lt_K x (key e) = false)
       ∧ (∀ i e, (p <= i)%nat → a !! i = Some e → lt_K x (key e) = true).
Proof.
  intros Hs. funelim (bisect_right lt_K key a x lo hi);
    intros Hrange Hlow Hhigh.
  - exists lo. split_and!; [done|lia|done|].
    intros i e' Hi. apply Hhigh. lia.
  - exfalso. clear Heqcall H Heq.
    assert ((lo + hi) `div` 2 < length a)%nat as Hmid.
    { pose proof (Nat.div_mod_eq (lo + hi) 2).
      pose proof (Nat.mod_upper_bound (lo + hi) 2). lia. }
    destruct (lookup_lt_is_Some_2 _ _ Hmid) as [y Hy].
    by rewrite (getitem_nat _ _ _ Hy) in e1.
  - clear Heqcall H0 Heq0. rename H into IH.
    pose proof (Nat.div_mod_eq (lo + hi) 2).
    pose proof (Nat.mod_upper_bound (lo + hi) 2).
    apply getitem_Ok in e as (j & Hy & Hj).
    destruct (decide (Z.of_nat _ < 0)); [lia|]. apply Nat2Z.inj in Hj as ->.
    set (mid := ((lo + hi) `div` 2)%nat) in *.
    apply IH; [done|lia|done|].
    intros i e' Hi He'. destruct (decide (i = mid)) as [->|].
    + rewrite Hy in He'. by injection He' as <-.
    + apply (lt_le_trans _ (key y)); [done|].
      apply (sorted_lookup a mid i); [done|lia|done..].
  - clear Heqcall H0 Heq0. rename H into IH.
    pose proof (Nat.div_mod_eq (lo + hi) 2).
    pose proof (Nat.mod_upper_bound (lo + hi) 2).
    apply getitem_Ok in e as (j & Hy & Hj).
    destruct (decide (Z.of_nat _ < 0)); [lia|]. apply Nat2Z.inj in Hj as ->.
    set (mid := ((lo + hi) `div` 2)%nat) in *.
    apply IH; [done|lia| |].
    + intros i e' Hi He'. destruct (decide (i = mid)) as [->|].
      * rewrite Hy in He'. by injection He' as <-.
      * destruct (lt_K x (key e')) eqn:Hx; [|done].
        rewrite <- Heq. symmetry. apply (lt_le_trans _ (key e')); [done|].
        apply (sorted_lookup a i mid); [done|lia|done..].
    + intros i e' Hi. apply Hhigh. lia.
Qed.

(** [insort] on a sorted list puts [x] behind the entries whose key is
    not above its own and in front of those whose key is above. *)
Lemma insort_spec a x :
  sorted a →
  ∃ l1 l2, a = l1 ++ l2
    ∧ insort lt_K key a x = Ok (l1 ++ x :: l2)
    ∧ Forall (λ e, lt_K (key x) (key e) = false) l1
    ∧ Forall (λ e, lt_K (key x) (key e) = true) l2.
Proof.
  intros Hs. unfold insort, list_insert_at.
  destruct (bisect_right_spec a (key x) 0 (length a) Hs)
    as (p & -> & Hp & Hlow & Hhigh); [lia| |..].
  { intros i e Hi. lia. }
  { intros i e Hi He. apply lookup_lt_Some in He. lia. }
  exists (take p a), (drop p a). simpl.
  split_and!; [by rewrite take_drop|done| |].
  - apply Forall_lookup. intros i e He.
    pose proof (lookup_lt_Some _ _ _ He) as Hlt.
    rewrite length_take in Hlt. rewrite lookup_take_lt in He by lia.
    apply (Hlow i); [lia|done].
  - apply Forall_lookup. intros i e He. rewrite lookup_drop in He.
    apply (Hhigh (p + i)%nat); [lia|done].
Qed.
End bisect_spec.

Lemma leaderboard_sorted_key h :
  leaderboard_sorted h ↔
  StronglySorted (λ e1 e2, tuple_lt (hist_key e2) (hist_key e1) = false) h.
Proof.
  unfold leaderboard_sorted.
  split; induction 1 as [|e h Hs IH He]; constructor; auto;
    eapply Forall_impl; eauto; intros e'; by rewrite entry_le_key.
Qed.

Lemma tuple_lt_asym k1 k2 : tuple_lt k1 k2 = true → tuple_lt k2 k1 = false.
Proof.
  intros H. destruct (tuple_lt k2 k1) eqn:H'; [|done].
  pose proof (tuple_lt_trans _ _ _ H H') as Hk.
  by rewrite tuple_lt_irrefl in Hk.
Qed.

Lemma leaderboard_sorted_insert l1 l2 x :
  leaderboard_sorted (l1 ++ l2) →
  Forall (λ e, entry_le e x) l1 → Forall (entry_le x) l2 →
  leaderboard_sorted (l1 ++ x :: l2).
Proof.
  unfold leaderboard_sorted. intros Hs H1 H2.
  rewrite Forall_forall in H1. apply StronglySorted_app_2.
  - intros e1 e2 He1 [->|He2]%elem_of_cons; [by apply H1|].
    by eapply StronglySorted_app_1_elem_of.
  - by eapply StronglySorted_app_1_l.
  - constructor; [by eapply StronglySorted_app_1_r|done].
Qed.

(** One sorted insertion, in the terms of the leaderboard. *)
Lemma insort_leaderboard hist x :
  leaderboard_sorted hist →
  ∃ l1 l2, hist = l1 ++ l2
    ∧ insort tuple_lt hist_key hist x = Ok (l1 ++ x :: l2)
    ∧ Forall (λ e, entry_le e x) l1
    ∧ Forall (λ e, entry_le x e ∧ hist_key e ≠ hist_key x) l2
    ∧ leaderboard_sorted (l1 ++ x :: l2).
Proof.
  intros Hs.
  destruct (insort_spec tuple_lt hist_key tuple_lt_trans tuple_lt_total hist x)
    as (l1 & l2 & -> & Hins & H1 & H2); [by apply leaderboard_sorted_key|].
  assert (Forall (λ e, entry_le e x) l1) as H1'
    by (eapply Forall_impl; eauto; intros e; by rewrite entry_le_key).
  assert (Forall (λ e, entry_le x e ∧ hist_key e ≠ hist_key x) l2) as H2'.
  { eapply Forall_impl; eauto. intros e He. simpl in He. split.
    - apply entry_le_key. by apply tuple_lt_asym.
    - intros Hk. rewrite Hk, tuple_lt_irrefl in He. done. }
  exists l1, l2. split_and!; try done.
  apply leaderboard_sorted_insert; [done..|].
  eapply Forall_impl; eauto. by intros e [? _].
Qed.

(** The merge of the finished players into a sorted leaderboard. *)
Lemma merge_finals_spec hist ps :
  leaderboard_sorted hist →
  ∃ h, merge_finals hist ps = Ok h
    ∧ leaderboard_sorted h
    ∧ h ≡ₚ hist ++ (final_entry <$> ps)
    ∧ hist `sublist_of` h
    ∧ ∀ k, filter (λ e, hist_key e = k) h
           = filter (λ e, hist_key e = k) (hist ++ (final_entry <$> ps)).
Proof.
  revert hist. induction ps as [|p ps IH]; intros hist Hs; simpl.
  { exists hist. rewrite app_nil_r. done. }
  destruct (insort_leaderboard hist (final_entry p) Hs)
    as (l1 & l2 & -> & Hins & H1 & H2 & Hs1).
  rewrite Hins. simpl.
  destruct (IH _ Hs1) as (h & -> & Hsh & Hperm & Hsub & Hfilter).
  exists h. split_and!; [done..| | |].
  - rewrite Hperm. rewrite <- !app_assoc. simpl.
    by rewrite Permutation_middle.
  - etrans; [|exact Hsub]. apply sublist_app; [done|]. by apply sublist_cons.
  - intros k. rewrite Hfilter, !filter_app, !filter_cons, <- !app_assoc.
    f_equal. case_decide as Hk; [|done].
    assert (filter (λ e, hist_key e = k) l2 = []) as ->; [|done].
    clear -H2 Hk. induction H2 as [|e l2 [_ He] _ IH2]; [done|].
    rewrite filter_cons_False by congruence. done.
Qed.

(** C3.  On a leaderboard ordered by score descending and name ascending,
    each sorted insertion puts the new pair at its place by the key
    [(-score, name)]: behind every present entry that may stand in front
    of it, those of equal key included, and in front of the others.  The
    merge of the finished players therefore yields a leaderboard in that
    order which holds exactly the old entries and the new pairs, keeps the
    old entries in their order, and keeps entries of equal key in the order
    in which they came; nothing is dropped.  Two players B and A with 100
    points each, merged into an empty leaderboard, come out as A, B. *)
Theorem merge_finals_sorted_stable :
  (∀ hist x,
     leaderboard_sorted hist →
     ∃ l1 l2, hist = l1 ++ l2
       ∧ insort tuple_lt hist_key hist x = Ok (l1 ++ x :: l2)
       ∧ Forall (λ e, entry_le e x) l1
       ∧ Forall (λ e, entry_le x e ∧ hist_key e ≠ hist_key x) l2
       ∧ leaderboard_sorted (l1 ++ x :: l2))
  ∧ (∀ hist ps,
       leaderboard_sorted hist →
       ∃ h, merge_finals hist ps = Ok h
         ∧ leaderboard_sorted h
         ∧ h ≡ₚ hist ++ (final_entry <$> ps)
         ∧ hist `sublist_of` h
         ∧ ∀ k, filter (λ e, hist_key e = k) h
                = filter (λ e, hist_key e = k) (hist ++ (final_entry <$> ps)))
  ∧ merge_finals [] [mkPlayer "B" sheet_100; mkPlayer "A" sheet_100]
    = Ok [(100, "A"%string); (100, "B"%string)].
Proof.
  split_and!;
    [apply insort_leaderboard|apply merge_finals_spec|vm_compute; reflexivity].
Qed.

Lemma merge_finals_sorted_stable_witness :
  ∃ h, merge_finals [(120, "Zoe"%string); (100, "A"%string)]
         [mkPlayer "B" sheet_100; mkPlayer "A" sheet_100] = Ok h
    ∧ leaderboard_sorted h
    ∧ h ≡ₚ [(120, "Zoe"%string); (100, "A"%string)]
           ++ (final_entry <$> [mkPlayer "B" sheet_100; mkPlayer "A" sheet_100])
    ∧ [(120, "Zoe"%string); (100, "A"%string)] `sublist_of` h
    ∧ ∀ k, filter (λ e, hist_key e = k) h
           = filter (λ e, hist_key e = k)
               ([(120, "Zoe"%string); (100, "A"%string)]
                ++ (final_entry <$>
                      [mkPlayer "B" sheet_100; mkPlayer "A" sheet_100])).
Proof.
  apply (proj1 (proj2 merge_finals_sorted_stable)).
  repeat constructor; simpl; lia.
Defined.

Example merge_keeps_duplicates :
  merge_finals [(120, "Zoe"%string); (100, "A"%string)]
    [mkPlayer "B" sheet_100; mkPlayer "A" sheet_100]
  = Ok [(120, "Zoe"%string); (100, "A"%string); (100, "A"%string);
        (100, "B"%string)].
Proof. vm_compute. reflexivity. Qed.

(** ** The history file *)

(** Newline, carriage return and unit separator by code point. *)
Example control_characters : nat_of_ascii <$> [LF; CR; US] = [10; 13; 31]%nat.
Proof. reflexivity. Qed.

Lemma str_app_nil_l (b : string) : EmptyString +:+ b = b.
Proof. reflexivity. Qed.

Lemma str_app_cons c (a b : string) : String c a +:+ b = String c (a +:+ b).
Proof. reflexivity. Qed.

Lemma str_app_assoc (a b c : string) : (a +:+ b) +:+ c = a +:+ (b +:+ c).
Proof.
  induction a as [|x a IH]; [done|]. by rewrite !str_app_cons, IH.
Qed.

Lemma str_app_nil_r (a : string) : a +:+ EmptyString = a.
Proof. induction a as [|x a IH]; [done|]. by rewrite str_app_cons, IH. Qed.

Lemma str_length_app (a b : string) :
  String.length (a +:+ b) = (String.length a + String.length b)%nat.
Proof.
  induction a as [|x a IH]; [done|]. rewrite str_app_cons. simpl. by rewrite IH.
Qed.

Lemma occurs_app c (a b : string) : occurs c (a +:+ b) = occurs c a || occurs c b.
Proof.
  induction a as [|x a IH]; [done|].
  rewrite str_app_cons. simpl. by rewrite IH, orb_assoc.
Qed.

Lemma occurs_head c (s : string) : occurs c (String c s) = true.
Proof. simpl. by rewrite bool_decide_eq_true_2. Qed.

Lemma occurs_tail c c' (s : string) :
  occurs c s = true → occurs c (String c' s) = true.
Proof. simpl. intros ->. by rewrite orb_true_r. Qed.

Lemma translate_out_app o (a b : string) :
  translate_out o (a +:+ b) = translate_out o a +:+ translate_out o b.
Proof.
  induction a as [|c a IH]; [done|].
  rewrite str_app_cons. simpl. by rewrite IH, str_app_assoc.
Qed.

(** *** Text and bytes *)

Lemma text_bytes_app cd (a b : string) :
  text_bytes cd (a +:+ b) = text_bytes cd a ++ text_bytes cd b.
Proof.
  induction a as [|c a IH]; [done|].
  rewrite str_app_cons. simpl. by rewrite IH, app_assoc.
Qed.

Lemma text_chars_app cd (a b : string) :
  text_chars cd (a +:+ b) = text_chars cd a ++ text_chars cd b.
Proof.
  unfold text_chars. rewrite <- fmap_app. f_equal.
  induction a as [|c a IH]; [done|]. rewrite str_app_cons. simpl.
  by rewrite IH.
Qed.

Lemma text_chars_text cd (s : string) :
  string_of_list_ascii (text_chars cd s).*1 = s.
Proof.
  unfold text_chars. induction s as [|c s IH]; [done|]. simpl.
  f_equal. apply IH.
Qed.

Lemma length_text_chars cd (s : string) :
  length (text_chars cd s) = String.length s.
Proof.
  unfold text_chars. induction s as [|c s IH]; [done|]. simpl.
  f_equal. apply IH.
Qed.

Lemma text_chars_bytes cd (s : string) :
  sum_list (text_chars cd s).*2 = length (text_bytes cd s).
Proof.
  unfold text_chars. induction s as [|c s IH]; [done|]. simpl.
  rewrite length_app. f_equal. apply IH.
Qed.

Lemma encodable_app cd (a b : string) :
  encodable cd (a +:+ b) ↔ encodable cd a ∧ encodable cd b.
Proof.
  split.
  - intros H. split; intros c Hc; apply H; rewrite occurs_app, Hc;
      [done|by rewrite orb_true_r].
  - intros [Ha Hb] c Hc. rewrite occurs_app in Hc.
    apply orb_true_iff in Hc as [?|?]; auto.
Qed.

Lemma text_reads_back_app cd cd' (a b : string) :
  text_reads_back cd cd' (a +:+ b)
  ↔ text_reads_back cd cd' a ∧ text_reads_back cd cd' b.
Proof.
  split.
  - intros H. split; intros c Hc; apply H; rewrite occurs_app, Hc;
      [done|by rewrite orb_true_r].
  - intros [Ha Hb] c Hc. rewrite occurs_app in Hc.
    apply orb_true_iff in Hc as [?|?]; auto.
Qed.

Lemma text_reads_back_encodable cd cd' s :
  text_reads_back cd cd' s → encodable cd s.
Proof. intros H c Hc. destruct (H c Hc) as (bs & -> & _). by eexists. Qed.

(** A text of characters that the encoding has is written as its bytes. *)
Lemma encode_text_bytes cd s :
  encodable cd s → encode_text cd s = Ok (text_bytes cd s).
Proof.
  induction s as [|c s IH]; intros H; [done|]. simpl.
  destruct (H c (occurs_head c s)) as [bs Hbs]. rewrite Hbs. simpl.
  rewrite IH; [done|]. intros c' Hc'. by apply H, occurs_tail.
Qed.

(** The bytes of a text whose characters are read back decode to the
    text. *)
Lemma decode_text_bytes cd cd' s fuel :
  text_reads_back cd cd' s → (length (text_bytes cd s) <= fuel)%nat →
  decode_text cd' fuel (text_bytes cd s) = Ok (text_chars cd s).
Proof.
  revert fuel. induction s as [|c s IH]; intros fuel H Hfuel.
  { by destruct fuel. }
  destruct (H c (occurs_head c s)) as (bs & Hbs & Hne & Hdec).
  assert (text_reads_back cd cd' s) as Hs
    by (intros c' Hc'; by apply H, occurs_tail).
  unfold text_chars. simpl in *. rewrite Hbs in *. simpl in *.
  rewrite length_app in Hfuel.
  destruct bs as [|b bs]; [done|]. destruct fuel as [|fuel]; [simpl in *; lia|].
  specialize (Hdec (text_bytes cd s)). simpl in Hdec, Hfuel |- *.
  rewrite Hdec. rewrite decide_True by (rewrite length_app; lia).
  rewrite IH by (done || lia). simpl. do 3 f_equal.
  rewrite length_app. lia.
Qed.

(** The text that [read_line] consumes and the text that it leaves make
    up the text that it was given. *)
Lemma read_line_split s : (read_line s).1.2 +:+ (read_line s).2 = s.
Proof.
  induction s as [|c s IH]; [done|]. simpl.
  repeat case_decide; subst; try done.
  - destruct s as [|c' s]; [done|]. by case_decide; subst.
  - destruct (read_line s) as [[l r] t]. simpl in *. by rewrite <- IH.
Qed.

(** [readline] on bytes that are the encoding of a text: a line of the
    text. *)
Lemma readline_text cd fp t :
  text_reads_back cd (encoding fp) t → after fp = text_bytes cd t →
  readline fp
  = Ok ((read_line t).1.1,
        mkTextIO (os fp) (encoding fp)
          (before fp ++ text_bytes cd (read_line t).1.2)
          (text_bytes cd (read_line t).2)).
Proof.
  intros Ht Hafter. unfold readline. rewrite Hafter.
  rewrite (decode_text_bytes cd _ t) by done. simpl.
  rewrite text_chars_text.
  pose proof (read_line_split t) as Hsplit.
  destruct (read_line t) as [[line raw] rest]. simpl in *.
  assert (sum_list (take (String.length raw) (text_chars cd t).*2)
          = length (text_bytes cd raw)) as ->.
  { rewrite <- Hsplit, text_chars_app, fmap_app.
    rewrite <- (length_text_chars cd raw), <- (length_fmap snd).
    by rewrite take_app_length, text_chars_bytes. }
  rewrite <- Hsplit, text_bytes_app.
  by rewrite take_app_length, drop_app_length.
Qed.

(** The loop of [loadhist], one pass unfolded. *)
Lemma loadhist_loop_pass fp n i xs :
  loadhist_loop fp n i xs
  = if decide (i = n) then Ok (xs, fp)
    else
      match readline fp with
      | Raise e => Raise e
      | Ok (line, fp') =>
          if decide (line = EmptyString) then Ok (xs, fp')
          else
            match parse_entry line with
            | Raise e => Raise e
            | Ok x => loadhist_loop fp' n (i + 1) (xs ++ [x])
            end
      end.
Proof.
  funelim (loadhist_loop fp n i xs).
  all: try (rewrite decide_True by done; done).
  all: rewrite decide_False by done.
  all: match goal with H : readline _ = _ |- _ => rewrite H end.
  all: try done.
  all: try (rewrite decide_True by done; done).
  all: rewrite decide_False by done.
  all: match goal with H : parse_entry _ = _ |- _ => by rewrite H end.
Qed.

(** *** The two encodings *)

Lemma utf_8_reads_back c : reads_back utf_8 utf_8 c.
Proof.
  destruct c as [[] [] [] [] [] [] [] []];
    (eexists; split; [reflexivity|split; [discriminate|intros; reflexivity]]).
Qed.

Lemma cp1252_reads_back c :
  is_Some (encode cp1252 c) → reads_back cp1252 cp1252 c.
Proof.
  destruct c as [[] [] [] [] [] [] [] []]; intros [bs Hbs];
    try discriminate Hbs;
    (eexists; split; [reflexivity|split; [discriminate|intros; reflexivity]]).
Qed.

(** The two encodings write ASCII alike. *)
Lemma cp1252_utf_8_ascii : reads_ascii cp1252 utf_8.
Proof.
  intros c. destruct c as [[] [] [] [] [] [] [] []]; intros Hc;
    try (exfalso; vm_compute in Hc; lia);
    (eexists; split; [reflexivity|split; [discriminate|intros; reflexivity]]).
Qed.

Lemma utf_8_cp1252_ascii : reads_ascii utf_8 cp1252.
Proof.
  intros c. destruct c as [[] [] [] [] [] [] [] []]; intros Hc;
    try (exfalso; vm_compute in Hc; lia);
    (eexists; split; [reflexivity|split; [discriminate|intros; reflexivity]]).
Qed.

(** A text of ASCII is read back wherever ASCII is. *)
Lemma ascii_text_reads_back cd cd' s :
  reads_ascii cd cd' →
  forallb (λ c, (nat_of_ascii c <? 128)%nat) (list_ascii_of_string s) = true →
  text_reads_back cd cd' s.
Proof.
  intros Ha. induction s as [|c s IH]; [done|]. simpl.
  intros [Hc Hs]%andb_true_iff c' [Hc'|Hc']%orb_true_iff.
  - apply bool_decide_eq_true in Hc' as <-. by apply Ha, Nat.ltb_lt.
  - by apply IH.
Qed.

(** *** Scores as text *)

Lemma uint_chars_digits u c :
  occurs c (NilEmpty.string_of_uint u) = true → is_Some (digit_of c).
Proof.
  induction u as [|u IH|u IH|u IH|u IH|u IH|u IH|u IH|u IH|u IH|u IH]; simpl;
    [done|..]; intros [Hc|Hc]%orb_true_iff; auto;
    apply bool_decide_eq_true in Hc as <-; by eexists.
Qed.

Lemma parse_uint_digits u b :
  b = true ∨ u ≠ Decimal.Nil →
  parse_uint b (NilEmpty.string_of_uint u) = Some u.
Proof.
  revert b.
  induction u as [|u IH|u IH|u IH|u IH|u IH|u IH|u IH|u IH|u IH|u IH];
    intros b Hb; simpl.
  { by destruct Hb as [->|?]. }
  all: by rewrite IH by auto.
Qed.

Lemma decimal_chars z c :
  occurs c (decimal z) = true → is_Some (digit_of c) ∨ c = "-"%char.
Proof.
  unfold decimal, NilZero.string_of_int, NilZero.string_of_uint.
  assert (∀ u, occurs c match u with
                        | Decimal.Nil => "0"
                        | _ => NilEmpty.string_of_uint u
                        end = true → is_Some (digit_of c)) as Hu.
  { intros u Hc. destruct u;
      try (by apply (uint_chars_digits _ _ Hc)).
    simpl in Hc. rewrite orb_false_r in Hc.
    apply bool_decide_eq_true in Hc as <-. by eexists. }
  destruct (Z.to_int z) as [u|u]; [intros Hc; left; by apply (Hu u)|].
  simpl. intros [Hc|Hc]%orb_true_iff; [|left; by apply (Hu u)].
  apply bool_decide_eq_true in Hc as <-. by right.
Qed.

(** The decimal text of an integer has no newline, carriage return,
    separator or blank in it, and is ASCII. *)
Lemma decimal_clean z c :
  int_space c = true ∨ c = LF ∨ c = CR ∨ c = US → occurs c (decimal z) = false.
Proof.
  intros Hc. destruct (occurs c (decimal z)) eqn:Ho; [|done].
  apply decimal_chars in Ho as [[d Hd]| ->].
  - exfalso. destruct c as [[] [] [] [] [] [] [] []]; try discriminate Hd;
      destruct Hc as [Hc|[Hc|[Hc|Hc]]]; try discriminate Hc.
  - by destruct Hc as [Hc|[Hc|[Hc|Hc]]].
Qed.

Lemma decimal_ascii z c :
  occurs c (decimal z) = true → (nat_of_ascii c < 128)%nat.
Proof.
  intros [[d Hd]| ->]%decimal_chars; [|vm_compute; lia].
  destruct c as [[] [] [] [] [] [] [] []]; try discriminate Hd;
    vm_compute; lia.
Qed.

Lemma rstrip_none P s :
  (∀ c, occurs c s = true → P c = false) → rstrip P s = s.
Proof.
  induction s as [|c s IH]; intros Hs; [done|]. simpl.
  rewrite IH by (intros c' Hc'; apply Hs; simpl; by rewrite Hc', orb_true_r).
  destruct s; [|done]. rewrite (Hs c); [done|].
  simpl. by rewrite bool_decide_eq_true_2.
Qed.

Lemma lstrip_none P s :
  (∀ c, occurs c s = true → P c = false) → lstrip P s = s.
Proof.
  destruct s as [|c s]; intros Hs; [done|]. simpl.
  rewrite (Hs c); [done|]. simpl. by rewrite bool_decide_eq_true_2.
Qed.

Lemma rstrip_newline body :
  occurs LF body = false →
  rstrip (λ c, bool_decide (c = LF)) (body +:+ String LF EmptyString) = body.
Proof.
  induction body as [|c body IH]; [done|]. rewrite str_app_cons. simpl.
  intros [Hc Hb]%orb_false_iff. rewrite IH by done.
  destruct body; [|done]. by rewrite Hc.
Qed.

Lemma split_none b : occurs US b = false → split US b = [b].
Proof.
  induction b as [|c b IH]; [done|]. simpl.
  intros [Hc Hb]%orb_false_iff. apply bool_decide_eq_false in Hc.
  rewrite decide_False by done. by rewrite IH.
Qed.

Lemma split_two a b :
  occurs US a = false → occurs US b = false →
  split US (a +:+ String US b) = [a; b].
Proof.
  intros Ha Hb. induction a as [|c a IH].
  - rewrite str_app_nil_l. simpl. by rewrite split_none.
  - rewrite str_app_cons. simpl in *.
    apply orb_false_iff in Ha as [Hc Ha]. apply bool_decide_eq_false in Hc.
    rewrite decide_False by done. by rewrite IH.
Qed.

(** [int] reads back the decimal text of an integer that can be
    written. *)
Lemma int_of_str_decimal z : score_fits z → int_of_str (decimal z) = Ok z.
Proof.
  intros Hfit. unfold int_of_str.
  rewrite lstrip_none, rstrip_none
    by (intros c Hc; destruct (int_space c) eqn:Hs; [|done];
        by rewrite decimal_clean in Hc by auto).
  rewrite <- (DecimalZ.of_to z) at 2.
  unfold score_fits, str_digits in Hfit.
  unfold decimal, NilZero.string_of_int, NilZero.string_of_uint.
  assert (∀ u, parse_uint false match u with
                                | Decimal.Nil => "0"
                                | _ => NilEmpty.string_of_uint u
                                end
               = Some match u with Decimal.Nil => Decimal.D0 Decimal.Nil
                                 | _ => u end) as Hu.
  { intros u. destruct u; [done|..]; by apply parse_uint_digits; right. }
  assert (∀ u, Z.of_uint match u with Decimal.Nil => Decimal.D0 Decimal.Nil
                                    | _ => u end = Z.of_uint u) as Hz
    by (by intros []).
  assert (∀ u, (Decimal.nb_digits u <= int_max_str_digits)%nat →
               (Decimal.nb_digits
                  match u with Decimal.Nil => Decimal.D0 Decimal.Nil
                            | _ => u end <= int_max_str_digits)%nat) as Hn.
  { intros [] H; try done. unfold int_max_str_digits. simpl. lia. }
  destruct (Z.to_int z) as [u|u].
  - assert (∀ s, parse_uint false s ≠ None →
                 (let '(sign, digits) :=
                    match s with
                    | String "-"%char s' => (Decimal.Neg, s')
                    | String "+"%char s' => (Decimal.Pos, s')
                    | _ => (Decimal.Pos, s)
                    end in
                  match parse_uint false digits with
                  | Some u =>
                      if decide (Decimal.nb_digits u <= int_max_str_digits)%nat
                      then Ok (Z.of_int (sign u))
                      else Raise ValueError
                  | None => Raise ValueError
                  end)
                 = match parse_uint false s with
                   | Some u =>
                       if decide (Decimal.nb_digits u
                                  <= int_max_str_digits)%nat
                       then Ok (Z.of_int (Decimal.Pos u))
                       else Raise ValueError
                   | None => Raise ValueError
                   end) as Hsign.
    { intros [|c s] Hs; [done|].
      destruct c as [[] [] [] [] [] [] [] []]; try done. }
    rewrite Hsign by (rewrite Hu; done). rewrite Hu.
    rewrite decide_True by auto. simpl. by rewrite Hz.
  - simpl. rewrite Hu. rewrite decide_True by auto. simpl. by rewrite Hz.
Qed.

Lemma format_d_fits z : score_fits z → format_d z = Ok (decimal z).
Proof. intros Hfit. unfold format_d. by rewrite decide_True. Qed.

Lemma score_fits_leb z :
  (str_digits z <=? int_max_str_digits)%nat = true → score_fits z.
Proof. apply Nat.leb_le. Qed.

(** The entries of a list, one by one: the name by evaluation, its
    characters by [tac], the score by evaluation. *)
Ltac entries_kept tac :=
  repeat (apply List.Forall_cons;
          [split; [repeat constructor
                  |split; [tac|apply score_fits_leb; vm_compute; reflexivity]]
          |]);
  apply List.Forall_nil.

(** *** Entries as lines *)

Lemma translate_out_none o s : occurs LF s = false → translate_out o s = s.
Proof.
  induction s as [|c s IH]; [done|]. simpl.
  intros [Hc Hs]%orb_false_iff. apply bool_decide_eq_false in Hc.
  rewrite decide_False by done. by rewrite str_app_cons, str_app_nil_l, IH.
Qed.

(** Reading a line that was written without a carriage return in it. *)
Lemma read_line_written o body rest :
  occurs LF body = false → occurs CR body = false →
  read_line (body +:+ linesep o +:+ rest)
  = (body +:+ String LF EmptyString, body +:+ linesep o, rest).
Proof.
  induction body as [|c body IH].
  - intros _ _. rewrite !str_app_nil_l. by destruct o.
  - simpl. intros [Hc Hb]%orb_false_iff [Hc' Hb']%orb_false_iff.
    apply bool_decide_eq_false in Hc, Hc'.
    rewrite !str_app_cons. simpl.
    rewrite !decide_False by done. by rewrite IH.
Qed.

Lemma entry_text_body x :
  entry_text x
  = (decimal x.1 +:+ String US x.2) +:+ String LF EmptyString.
Proof.
  unfold entry_text. by rewrite str_app_assoc, str_app_cons.
Qed.

Lemma format_entry_fits x :
  score_fits x.1 → format_entry x = Ok (entry_text x).
Proof. intros Hfit. unfold format_entry. by rewrite format_d_fits. Qed.

Lemma parse_entry_written x :
  name_without_newline_or_separator x.2 → score_fits x.1 →
  parse_entry ((decimal x.1 +:+ String US x.2) +:+ String LF EmptyString)
  = Ok x.
Proof.
  intros [Hlf Hus] Hfit. unfold parse_entry.
  rewrite rstrip_newline.
  - rewrite split_two; [|by apply decimal_clean; auto|done].
    rewrite int_of_str_decimal by done. by destruct x.
  - rewrite occurs_app. simpl. rewrite Hlf.
    by rewrite decimal_clean by auto.
Qed.

(** The text of a line as the file has it, for a name on one line. *)
Lemma translate_out_entry o x :
  occurs LF x.2 = false →
  translate_out o (entry_text x)
  = (decimal x.1 +:+ String US x.2) +:+ linesep o.
Proof.
  intros Hlf. rewrite entry_text_body, translate_out_app.
  rewrite translate_out_none.
  - simpl. by rewrite str_app_nil_r.
  - rewrite occurs_app. simpl. rewrite Hlf.
    by rewrite decimal_clean by auto.
Qed.

(** What is written for ASCII is read back, if the two encodings agree on
    ASCII: the line ends of either system and the text of a score. *)
Lemma translate_out_reads_back o cd cd' s :
  reads_ascii cd cd' → text_reads_back cd cd' s →
  text_reads_back cd cd' (translate_out o s).
Proof.
  intros Ha. induction s as [|c s IH]; intros Hs; [done|]. simpl.
  apply text_reads_back_app. split.
  - case_decide as Hc.
    + intros c' Hc'. apply Ha.
      destruct o; simpl in Hc';
        repeat (apply orb_true_iff in Hc' as [Hc'|Hc'];
                [apply bool_decide_eq_true in Hc' as <-; vm_compute; lia|]);
        done.
    + intros c' Hc'. simpl in Hc'. rewrite orb_false_r in Hc'.
      apply bool_decide_eq_true in Hc' as <-. apply Hs, occurs_head.
  - apply IH. intros c' Hc'. by apply Hs, occurs_tail.
Qed.

Lemma entry_text_reads_back cd cd' x :
  reads_ascii cd cd' → text_reads_back cd cd' x.2 →
  text_reads_back cd cd' (entry_text x).
Proof.
  intros Ha Hx. unfold entry_text. apply text_reads_back_app. split.
  - intros c Hc. by apply Ha, (decimal_ascii x.1).
  - intros c [Hc|Hc]%orb_true_iff.
    + apply bool_decide_eq_true in Hc as <-. apply Ha. vm_compute. lia.
    + revert c Hc. apply text_reads_back_app. split; [done|].
      intros c Hc. simpl in Hc. rewrite orb_false_r in Hc.
      apply bool_decide_eq_true in Hc as <-. apply Ha. vm_compute. lia.
Qed.

Lemma history_text_reads_back o cd cd' xs :
  reads_ascii cd cd' → Forall (λ e, text_reads_back cd cd' e.2) xs →
  text_reads_back cd cd' (translate_out o (history_text xs)).
Proof.
  intros Ha Hxs. apply translate_out_reads_back; [done|].
  induction Hxs as [|x xs Hx _ IH]; [done|]. simpl.
  apply text_reads_back_app. split; [by apply entry_text_reads_back|done].
Qed.

Lemma entries_kept cd cd' xs :
  Forall (entry_kept cd cd') xs →
  Forall (λ e, name_on_one_line e.2) xs
  ∧ Forall (λ e, text_reads_back cd cd' e.2) xs
  ∧ Forall (λ e, score_fits e.1) xs.
Proof.
  intros H. split_and!; eapply Forall_impl; try exact H;
    by intros e (? & ? & ?).
Qed.

(** [savehist] writes the bytes of the text of the entries over the bytes
    that the file holds at the position. *)
Lemma savehist_text fp xs :
  Forall (λ e, score_fits e.1) xs →
  encodable (encoding fp) (translate_out (os fp) (history_text xs)) →
  savehist fp xs
  = Ok (mkTextIO (os fp) (encoding fp)
          (before fp
           ++ text_bytes (encoding fp)
                (translate_out (os fp) (history_text xs)))
          (drop (length (text_bytes (encoding fp)
                           (translate_out (os fp) (history_text xs))))
             (after fp))).
Proof.
  revert fp. induction xs as [|x xs IH]; intros fp Hfit Henc; simpl.
  - rewrite app_nil_r, drop_0. by destruct fp.
  - apply Forall_cons in Hfit as [Hx Hfit].
    simpl in Henc. rewrite translate_out_app in Henc.
    apply encodable_app in Henc as [Hex Hexs].
    rewrite (format_entry_fits x Hx). simpl. unfold write.
    rewrite encode_text_bytes by done. simpl.
    rewrite IH by done. simpl.
    by rewrite translate_out_app, text_bytes_app, length_app, <- app_assoc,
      drop_drop.
Qed.

(** Reading back, line by line, bytes that [savehist] wrote, on whichever
    system: the loop stops after [n] entries, or at the end of the file
    when [n] is never reached. *)
Lemma loadhist_loop_take o cd xs :
  ∀ acc fp i n,
    0 <= i → n < 0 ∨ i <= n →
    reads_ascii cd (encoding fp) →
    Forall (entry_kept cd (encoding fp)) xs →
    after fp = text_bytes cd (translate_out o (history_text xs)) →
    ∃ fp', loadhist_loop fp n i acc
           = Ok (acc ++ (if decide (n < 0) then xs
                         else take (Z.to_nat (n - i)) xs), fp')
           ∧ os fp' = os fp ∧ encoding fp' = encoding fp
           ∧ before fp' ++ after fp' = before fp ++ after fp
           ∧ (n < 0 → after fp' = []).
Proof.
  induction xs as [|x xs IH]; intros acc fp i n Hi Hn Ha Hxs Hafter.
  - rewrite loadhist_loop_pass. rewrite take_nil.
    assert ((if decide (n < 0) then [] else []) = @nil LBEntry) as ->
      by (by case_decide).
    rewrite app_nil_r.
    destruct (decide (i = n)); [exists fp; split_and!; [done..|lia]|].
    rewrite (readline_text cd fp EmptyString) by done. simpl.
    eexists. split_and!; try done. simpl. rewrite Hafter. simpl.
    by rewrite !app_nil_r.
  - pose proof (entries_kept _ _ _ Hxs) as (Hline & Hback & Hfit).
    pose proof (history_text_reads_back o cd _ _ Ha Hback) as Htext.
    apply Forall_cons in Hxs as [([[Hlf Hus] Hcr] & Hx & Hfx) Hxs].
    rewrite loadhist_loop_pass. case_decide as Hin.
    { subst n. rewrite decide_False by lia. rewrite Z.sub_diag. simpl.
      rewrite app_nil_r. exists fp. split_and!; [done..|lia]. }
    rewrite (readline_text cd fp _ Htext Hafter).
    simpl history_text. rewrite translate_out_app, translate_out_entry by done.
    assert (occurs LF (decimal x.1 +:+ String US x.2) = false) as Hb1
      by (rewrite occurs_app; simpl; rewrite Hlf;
          by rewrite decimal_clean by auto).
    assert (occurs CR (decimal x.1 +:+ String US x.2) = false) as Hb2
      by (rewrite occurs_app; simpl; rewrite Hcr;
          by rewrite decimal_clean by auto).
    rewrite str_app_assoc, (read_line_written _ _ _ Hb1 Hb2). simpl.
    rewrite decide_False by (by destruct (decimal x.1)).
    rewrite parse_entry_written by done.
    match goal with |- context [loadhist_loop ?f _ _ _] =>
      destruct (IH (acc ++ [x]) f (i + 1) n)
        as (fp' & Hload & Hos & Hcd & Hall & Hend);
        [lia|lia|done|done|reflexivity|]
    end.
    exists fp'. rewrite <- app_assoc in Hload. split_and!; [|done..| |done].
    + etrans; [exact Hload|]. do 3 f_equal. simpl. case_decide; [done|].
      replace (Z.to_nat (n - i)) with (S (Z.to_nat (n - (i + 1)))) by lia.
      done.
    + rewrite Hall, Hafter. simpl.
      rewrite translate_out_app, translate_out_entry by done.
      by rewrite (text_bytes_app _ (_ +:+ linesep o)), app_assoc.
Qed.

(** Writing entries over the start of a file that holds no more bytes
    than are written, and reading the file again from the start. *)
Lemma savehist_loadhist fp xs :
  reads_ascii (encoding fp) (encoding fp) →
  Forall (entry_kept (encoding fp) (encoding fp)) xs →
  before fp = [] →
  (length (after fp)
   <= length (text_bytes (encoding fp)
                (translate_out (os fp) (history_text xs))))%nat →
  savehist fp xs
  = Ok (mkTextIO (os fp) (encoding fp)
          (text_bytes (encoding fp) (translate_out (os fp) (history_text xs)))
          [])
  ∧ ∀ n, ∃ fp',
      loadhist (mkTextIO (os fp) (encoding fp) []
                  (text_bytes (encoding fp)
                     (translate_out (os fp) (history_text xs)))) n
      = Ok (if decide (n < 0) then xs else take (Z.to_nat n) xs, fp').
Proof.
  intros Ha Hxs Hb Hlen.
  pose proof (entries_kept _ _ _ Hxs) as (Hline & Hback & Hfit).
  pose proof (history_text_reads_back (os fp) _ _ _ Ha Hback) as Htext.
  rewrite savehist_text by (done || by eapply text_reads_back_encodable).
  rewrite Hb, drop_ge by done. split; [done|].
  intros n. unfold loadhist.
  destruct (loadhist_loop_take (os fp) (encoding fp) xs []
              (mkTextIO (os fp) (encoding fp) []
                 (text_bytes (encoding fp)
                    (translate_out (os fp) (history_text xs)))) 0 n)
    as (fp' & Hload & _); [lia|lia|done|done|done|].
  exists fp'. rewrite Z.sub_0_r in Hload. exact Hload.
Qed.

(** C4, as the code has it.  A list of entries whose names hold no
    newline, no carriage return and no separator, and are of characters
    that the encoding of the file writes and reads back, and whose scores
    have no more than 4300 digits, written by [savehist] to the start of a
    history file that holds no more bytes than are written, one line
    [<score><0x1F><name>] per entry, is read back by [loadhist] from the
    start of the file as the same list, in the same order, on both
    families of systems. *)
Theorem history_round_trip :
  ∀ fp xs,
    reads_ascii (encoding fp) (encoding fp) →
    Forall (entry_kept (encoding fp) (encoding fp)) xs →
    before fp = [] →
    (length (after fp)
     <= length (text_bytes (encoding fp)
                  (translate_out (os fp) (history_text xs))))%nat →
    ∃ fp1,
      savehist fp xs = Ok fp1
      ∧ before fp1
        = text_bytes (encoding fp) (translate_out (os fp) (history_text xs))
      ∧ after fp1 = []
      ∧ ∃ fp', loadhist (seek0 fp1) (-1) = Ok (xs, fp').
Proof.
  intros fp xs Ha Hxs Hb Hlen.
  destruct (savehist_loadhist fp xs Ha Hxs Hb Hlen) as [Hsave Hload].
  eexists. split; [exact Hsave|]. split_and!; [done..|].
  unfold seek0. simpl. rewrite app_nil_r. apply (Hload (-1)).
Qed.

Lemma history_round_trip_witness :
  ∃ fp1,
    savehist (open_ nt utf_8 []) [(100, Zoe_acute); (-5, EmptyString)]
    = Ok fp1
    ∧ before fp1
      = text_bytes utf_8
          (translate_out nt
             (history_text [(100, Zoe_acute); (-5, EmptyString)]))
    ∧ after fp1 = []
    ∧ ∃ fp', loadhist (seek0 fp1) (-1)
             = Ok ([(100, Zoe_acute); (-5, EmptyString)], fp').
Proof.
  apply (history_round_trip (open_ nt utf_8 [])
           [(100, Zoe_acute); (-5, EmptyString)]).
  - intros c _. apply utf_8_reads_back.
  - entries_kept ltac:(intros c _; apply utf_8_reads_back).
  - reflexivity.
  - simpl. lia.
Defined.

(** C4, as the claim has it, fails: a name with a carriage return in it
    holds neither a newline nor the separator, yet the file is read back
    as two lines, the second of which has no separator. *)
Lemma carriage_return_splits_line :
  ¬ (∀ xs,
       Forall (λ e, name_without_newline_or_separator e.2) xs →
       ∃ fp fp', savehist (open_ posix utf_8 []) xs = Ok fp
                 ∧ loadhist (seek0 fp) (-1) = Ok (xs, fp')).
Proof.
  intros H.
  destruct (H [(100, String "A" (String CR "B"))]) as (fp & fp' & Hfp & Hfp').
  - repeat constructor.
  - vm_compute in Hfp. injection Hfp as <-.
    vm_compute in Hfp'. discriminate.
Qed.

Example loadhist_carriage_return :
  (fp ← savehist (open_ posix utf_8 []) [(100, String "A" (String CR "B"))];
   loadhist (seek0 fp) (-1))
  = Raise ValueError.
Proof. vm_compute. reflexivity. Qed.

(** A score of 4301 digits is not written: ["%d"] raises [ValueError].
    One of 4300 digits is. *)
Example score_of_4301_digits :
  savehist (open_ posix utf_8 []) [(10 ^ 4300, "A"%string)] = Raise ValueError
  ∧ score_fits (10 ^ 4300 - 1).
Proof.
  split; [vm_compute; reflexivity|].
  unfold score_fits. apply Nat.leb_le. vm_compute. reflexivity.
Qed.

(** The file is written over byte by byte.  Over a file that holds the two
    bytes of a character, a line of three bytes leaves the second byte of
    the second character behind, and the file is no text any more. *)
Example overwritten_bytes_stay :
  (fp ← savehist
          (open_ posix utf_8
             (text_bytes utf_8 (String "233" (String "233" EmptyString))))
          [(1, EmptyString)];
   loadhist (seek0 fp) (-1))
  = Raise UnicodeDecodeError.
Proof. vm_compute. reflexivity. Qed.

(** A name outside ASCII that is written in one encoding is not read in
    the other, and a character that the encoding does not have is not
    written. *)
Example other_encoding :
  (fp ← savehist (open_ nt cp1252 []) [(100, Zoe_acute)];
   loadhist (open_ posix utf_8 (before fp)) (-1))
  = Raise UnicodeDecodeError
  ∧ savehist (open_ nt cp1252 []) [(100, String "129" EmptyString)]
    = Raise UnicodeEncodeError.
Proof. split; vm_compute; reflexivity. Qed.

(** ** More on the history file *)

(** X13.  [loadhist(fp, n)] on a file that [savehist] wrote, on this system
    or the other, in an encoding whose bytes for ASCII and for the names
    the encoding of the reader reads back, with names on one line and
    scores of no more than 4300 digits: the first [n] entries, all of
    them when the file has fewer, and all of them when [n] is negative;
    none from an empty file. *)
Theorem loadhist_first_n o cd o' cd' xs n :
  reads_ascii cd cd' → Forall (entry_kept cd cd') xs →
  ∃ fp fp',
    savehist (open_ o cd []) xs = Ok fp
    ∧ before fp = text_bytes cd (translate_out o (history_text xs))
    ∧ loadhist (open_ o' cd' (before fp)) n
      = Ok (if decide (n < 0) then xs else take (Z.to_nat n) xs, fp').
Proof.
  intros Ha Hxs.
  pose proof (entries_kept _ _ _ Hxs) as (Hline & Hback & Hfit).
  pose proof (history_text_reads_back o _ _ _ Ha Hback) as Htext.
  rewrite savehist_text
    by (done || by eapply text_reads_back_encodable). simpl.
  unfold loadhist.
  destruct (loadhist_loop_take o cd xs []
              (open_ o' cd' (text_bytes cd (translate_out o (history_text xs))))
              0 n)
    as (fp' & Hload & _); [lia|lia|done|done|done|].
  eexists _, fp'. split_and!; [done..|].
  rewrite Z.sub_0_r in Hload. exact Hload.
Qed.

Lemma loadhist_first_n_witness :
  ∃ fp fp',
    savehist (open_ nt cp1252 []) [(120, "Zoe"); (100, "A"); (90, "B")]
    = Ok fp
    ∧ before fp
      = text_bytes cp1252
          (translate_out nt
             (history_text [(120, "Zoe"); (100, "A"); (90, "B")]))
    ∧ loadhist (open_ posix utf_8 (before fp)) 2
      = Ok ([(120, "Zoe"); (100, "A")], fp').
Proof.
  apply (loadhist_first_n nt cp1252 posix utf_8
           [(120, "Zoe"); (100, "A"); (90, "B")] 2).
  - apply cp1252_utf_8_ascii.
  - entries_kept ltac:(apply ascii_text_reads_back;
                       [apply cp1252_utf_8_ascii|reflexivity]).
Defined.

Lemma length_split c s : length (split c s) = S (occurrences c s).
Proof.
  induction s as [|c' s IH]; [done|]. simpl. case_decide; simpl.
  - by rewrite IH.
  - destruct (split c s); simpl in *; lia.
Qed.

Lemma occurrences_rstrip P c s :
  P c = false → occurrences c (rstrip P s) = occurrences c s.
Proof.
  intros Hc. induction s as [|c' s IH]; [done|]. simpl.
  destruct (rstrip P s) as [|c'' r] eqn:Hr.
  - simpl in IH. rewrite <- IH. destruct (P c') eqn:Hc'; simpl; [|lia].
    rewrite decide_False by congruence. done.
  - simpl in *. lia.
Qed.

(** X14.  A line of the history file that does not hold exactly one separator
    makes [loadhist] fail with [ValueError], a blank line for one; the
    entries in front of it are lost with it. *)
Theorem loadhist_malformed fp n line fp' :
  n ≠ 0 → readline fp = Ok (line, fp') → line ≠ EmptyString →
  occurrences US line ≠ 1%nat →
  loadhist fp n = Raise ValueError.
Proof.
  intros Hn Hline Hne Hus. unfold loadhist.
  rewrite loadhist_loop_pass. rewrite decide_False by done.
  rewrite Hline. rewrite decide_False by done.
  unfold parse_entry.
  pose proof (length_split US (rstrip (λ c, bool_decide (c = LF)) line))
    as Hlen.
  rewrite occurrences_rstrip in Hlen by done.
  destruct (split US _) as [|a [|b [|c l]]]; simpl in Hlen; try done. lia.
Qed.

Lemma loadhist_malformed_witness :
  loadhist
    (open_ posix utf_8 (text_bytes utf_8 (String LF "100"%string +:+ String US "A")))
    (-1)
  = Raise ValueError.
Proof.
  apply (loadhist_malformed _ (-1) (String LF EmptyString)
           (mkTextIO posix utf_8 (text_bytes utf_8 (String LF EmptyString))
              (text_bytes utf_8 ("100"%string +:+ String US "A")))).
  - lia.
  - reflexivity.
  - discriminate.
  - simpl. lia.
Defined.

(** ** The history at the end of a game *)

Lemma history_text_app xs ys :
  history_text (xs ++ ys) = history_text xs +:+ history_text ys.
Proof.
  induction xs as [|x xs IH]; [done|]. simpl.
  by rewrite IH, str_app_assoc.
Qed.

Lemma history_length_perm o cd xs ys :
  xs ≡ₚ ys →
  length (text_bytes cd (translate_out o (history_text xs)))
  = length (text_bytes cd (translate_out o (history_text ys))).
Proof.
  induction 1 as [|x xs ys _ IH|x y xs|xs ys zs _ IH1 _ IH2]; simpl.
  - done.
  - by rewrite !translate_out_app, !text_bytes_app, !length_app, IH.
  - rewrite !translate_out_app, !text_bytes_app, !length_app. lia.
  - by rewrite IH1.
Qed.

(** X15.  What [game_end] does to a history file that [savehist] wrote on this
    system in this encoding, for a sorted leaderboard of entries that the
    file hands back and players whose names and totals are such entries:
    the file is read, the players are merged in, and the file then holds
    the text of the merged leaderboard and nothing else, which the next
    [loadhist] returns; the ten entries that [main] loads from the file
    after the game are the first ten of the merged leaderboard, those
    which [game_end] shows. *)
Theorem game_end_history_reload o cd hist ps :
  leaderboard_sorted hist →
  reads_ascii cd cd →
  Forall (entry_kept cd cd) hist →
  Forall (λ p, entry_kept cd cd (final_entry p)) ps →
  ∃ h fp,
    game_end_history
      (open_ o cd (text_bytes cd (translate_out o (history_text hist)))) ps
    = Ok (h, fp)
    ∧ merge_finals hist ps = Ok h
    ∧ leaderboard_sorted h
    ∧ before fp = text_bytes cd (translate_out o (history_text h))
    ∧ after fp = []
    ∧ (∃ fp', loadhist (seek0 fp) (-1) = Ok (h, fp'))
    ∧ (∃ fp', loadhist (open_ o cd (before fp ++ after fp)) 10
              = Ok (take 10 h, fp')).
Proof.
  intros Hs Ha Hhist Hps. unfold game_end_history, loadhist.
  destruct (loadhist_loop_take o cd hist []
              (open_ o cd (text_bytes cd (translate_out o (history_text hist))))
              0 (-1))
    as (fp1 & Hload & Hos & Hcd & Hall & Hend); [lia|lia|done|done|done|].
  rewrite decide_True in Hload by lia.
  rewrite Hload. simpl in *.
  destruct (merge_finals_spec hist ps Hs) as (h & Hm & Hsh & Hperm & _).
  rewrite Hm. simpl.
  assert (Forall (entry_kept cd cd) h) as Hh.
  { rewrite Hperm. apply Forall_app. split; [done|].
    apply Forall_fmap. eapply Forall_impl; eauto. }
  destruct (savehist_loadhist (seek0 fp1) h) as [Hsave Hreload];
    simpl; rewrite ?Hcd, ?Hos, ?Hall; try done.
  { rewrite (history_length_perm o cd _ _ Hperm), history_text_app,
      translate_out_app, text_bytes_app, length_app. lia. }
  simpl in Hsave, Hreload. rewrite Hcd, Hos in Hsave, Hreload.
  rewrite Hsave. simpl.
  exists h, (mkTextIO o cd (text_bytes cd (translate_out o (history_text h)))
               []).
  split_and!; try done.
  - unfold seek0. simpl. rewrite app_nil_r. apply (Hreload (-1)).
  - simpl. rewrite app_nil_r. apply (Hreload 10).
Qed.

Lemma game_end_history_reload_witness :
  ∃ h fp,
    game_end_history
      (open_ nt utf_8
         (text_bytes utf_8
            (translate_out nt (history_text [(120, Zoe_acute); (100, "A")]))))
      [mkPlayer "B" sheet_100; mkPlayer "A" sheet_100]
    = Ok (h, fp)
    ∧ merge_finals [(120, Zoe_acute); (100, "A")]
        [mkPlayer "B" sheet_100; mkPlayer "A" sheet_100] = Ok h
    ∧ leaderboard_sorted h
    ∧ before fp = text_bytes utf_8 (translate_out nt (history_text h))
    ∧ after fp = []
    ∧ (∃ fp', loadhist (seek0 fp) (-1) = Ok (h, fp'))
    ∧ (∃ fp', loadhist (open_ nt utf_8 (before fp ++ after fp)) 10
              = Ok (take 10 h, fp')).
Proof.
  apply (game_end_history_reload nt utf_8 [(120, Zoe_acute); (100, "A")]
           [mkPlayer "B" sheet_100; mkPlayer "A" sheet_100]).
  - repeat constructor.
  - intros c _. apply utf_8_reads_back.
  - entries_kept ltac:(intros c _; apply utf_8_reads_back).
  - entries_kept ltac:(intros c _; apply utf_8_reads_back).
Defined.

(** A file with the line ends of the other system is read as the same
    leaderboard, but it can be longer than the text that takes its place;
    what is left of it behind the new text makes the next [loadhist]
    fail. *)
Example game_end_history_other_line_ends :
  ('(h, fp) ← game_end_history
                (open_ posix utf_8
                   (text_bytes utf_8
                      (translate_out nt
                         (history_text [(5, "a"); (4, "b"); (3, "c");
                                        (2, "d"); (1, "e")]))))
                [mkPlayer "f" ∅];
   Ok (h, after fp, loadhist (seek0 fp) (-1)))
  = Ok ([(5, "a"); (4, "b"); (3, "c"); (2, "d"); (1, "e"); (0, "f")],
        text_bytes utf_8 (String LF EmptyString), Raise ValueError).
Proof. vm_compute. reflexivity. Qed.

Example game_end_history_demo :
  match game_end_history
          (open_ posix utf_8
             (text_bytes utf_8
                (history_text [(120, "Zoe"%string); (100, "A"%string)])))
          [mkPlayer "B" sheet_100; mkPlayer "A" sheet_100] with
  | Ok (h, fp) =>
      h = [(120, "Zoe"%string); (100, "A"%string); (100, "A"%string);
           (100, "B"%string)]
      ∧ before fp = text_bytes utf_8 (history_text h) ∧ after fp = []
  | Raise _ => False
  end.
Proof. vm_compute. split_and!; reflexivity. Qed.

(** ** The player menu *)

Lemma pop_in_range {A} (l : list A) i :
  0 <= i < Z.of_nat (length l) →
  pop l i = Ok (delete (Z.to_nat i) l).
Proof.
  intros Hi. unfold pop. destruct (decide (i < 0)); [lia|].
  case_decide; [done|lia].
Qed.

Lemma setitem_list_in_range {A} (l : list A) i x :
  0 <= i < Z.of_nat (length l) →
  setitem_list l i x = Ok (<[Z.to_nat i := x]> l).
Proof.
  intros Hi. unfold setitem_list. destruct (decide (i < 0)); [lia|].
  case_decide; [done|lia].
Qed.

Lemma getitem_nonneg {A} (l : list A) i :
  0 <= i < Z.of_nat (length l) →
  ∃ x, getitem l i = Ok x ∧ l !! Z.to_nat i = Some x.
Proof.
  intros Hi. unfold getitem. destruct (decide (i < 0)); [lia|].
  rewrite decide_True by lia.
  destruct (lookup_lt_is_Some_2 l (Z.to_nat i)) as [x Hx]; [lia|].
  rewrite Hx. eauto.
Qed.

Lemma getitem_ge {A} (l : list A) i :
  Z.of_nat (length l) <= i → getitem l i = Raise IndexError.
Proof.
  intros Hi. unfold getitem. destruct (decide (i < 0)); [lia|].
  rewrite decide_True by lia. by rewrite lookup_ge_None_2 by lia.
Qed.

(** What [handle_input] does to the roster: nothing, or a player added at
    the end with an empty sheet, or a new name for the player at [_pi]. *)
Lemma handle_input_roster k self ps :
  _pi self < Z.of_nat (length ps) →
  ∃ self' ps', handle_input k self ps = Ok (self', ps')
    ∧ (ps' = ps ∧ _pi self' = _pi self
       ∨ active self' = false
         ∧ strip (_text self) ≠ EmptyString
         ∧ (Some (strip (_text self)) = _start_text self
            ∨ strip (_text self) ∉ name <$> ps)
         ∧ (_pi self < 0 ∧ ps' = ps ++ [mkPlayer (strip (_text self)) ∅]
            ∨ ∃ p, 0 <= _pi self ∧ ps !! Z.to_nat (_pi self) = Some p
                   ∧ ps' = <[Z.to_nat (_pi self)
                             := mkPlayer (strip (_text self)) (ss p)]> ps)).
Proof.
  intros Hpi. unfold handle_input.
  case_decide; [eexists _, _; split; [done|]; by left|].
  case_decide.
  - case_decide as Hpn; [eexists _, _; split; [done|]; by left|].
    case_decide as Hdup; [eexists _, _; split; [done|]; by left|].
    assert (Some (strip (_text self)) = _start_text self
            ∨ strip (_text self) ∉ name <$> ps) as Hok.
    { destruct (decide (Some (strip (_text self)) = _start_text self));
        [by left|right]. intros ?. by apply Hdup. }
    unfold renaming. case_bool_decide as Hr.
    + destruct (getitem_nonneg ps (_pi self)) as (p & -> & Hp); [lia|].
      simpl. rewrite setitem_list_in_range by lia. simpl.
      eexists _, _. split; [done|]. right. split_and!; [done..|].
      right. exists p. split_and!; [lia|done..].
    + eexists _, _. split; [done|]. right. split_and!; [done..|].
      left. split; [lia|done].
  - destruct k as [[c| | | | |]|]; try (eexists _, _; split; [done|]; by left).
    destruct (isprintable c); eexists _, _; (split; [done|]); by left.
Qed.

(** One pass through the loop of [main] raises nothing and keeps the
    menu well formed. *)
Lemma main_step_inv k M :
  menu_inv M →
  match main_step k M with
  | MainContinue M' => menu_inv M'
  | MainGame M' => M' = M ∧ main_players M ≠ []
  | MainExit => True
  | MainCrash _ => False
  end.
Proof.
  destruct M as [ps [s t d] npp]. intros HM.
  assert (∀ ps' s' t' d' npp',
            (s' = BTNAP ∨ s' = BTNSG ∨ 0 <= s' < Z.of_nat (length ps')) →
            (active npp' = true → _pi npp' < Z.of_nat (length ps')) →
            menu_inv (mkMain ps' (mkRenderState s' t' d') npp')) as Hmk
    by (intros; by split).
  destruct HM as [Hsel Hpi]. simpl in Hsel, Hpi.
  unfold main_step. simpl. destruct (active npp) eqn:Hact.
  - specialize (Hpi eq_refl).
    destruct (handle_input_roster k npp ps Hpi) as (npp' & ps' & -> & Hps).
    simpl. apply Hmk. destruct Hps as [(-> & Hp)|(Ha & _ & _ & Hps)].
    + done.
    + destruct Hps as [[_ ->]|(p & ? & ? & ->)].
      * rewrite length_app. simpl. lia.
      * by rewrite length_insert.
    + destruct Hps as [(-> & Hp)|(Ha & _ & _ & Hps)].
      * rewrite Hp. auto.
      * by rewrite Ha.
  - assert (active npp = true → _pi npp < Z.of_nat (length ps)) as Hpi'
      by by rewrite Hact.
    assert (∀ i, i < Z.of_nat (length ps) →
              match main_show (mkMain ps (mkRenderState s t d) npp) i with
              | MainContinue M' => menu_inv M'
              | MainGame M' =>
                  M' = mkMain ps (mkRenderState s t d) npp ∧ ps ≠ []
              | MainExit => True
              | MainCrash _ => False
              end) as Hshow.
    { intros i Hi. unfold main_show, show. simpl. case_decide.
      - destruct (getitem_in_range ps (- i - 1)) as [p ->]; [lia|]. simpl.
        by apply Hmk.
      - simpl. by apply Hmk. }
    case_decide; [apply Hshow; unfold BTNAP; lia|].
    case_decide; [done|].
    case_decide as Hnl.
    { apply Hshow. unfold BTNAP, BTNSG in *. lia. }
    case_decide.
    { case_decide as Hlen; simpl; [by apply Hmk|].
      split; [done|]. intros ->. simpl in Hlen. lia. }
    unfold main_with_sel, BTNAP, BTNSG in *. simpl.
    case_decide; [repeat case_decide; apply Hmk; (done || lia)|].
    case_decide; [repeat case_decide; apply Hmk; (done || lia)|].
    case_decide; [apply Hmk; (done || lia)|].
    case_decide; [apply Hmk; (done || lia)|].
    case_decide as Hbs; [|apply Hmk; (done || lia)].
    unfold main_remove. simpl. rewrite pop_in_range by lia. simpl.
    assert (length (delete (Z.to_nat (Z.of_nat (length ps) - s - 1)) ps)
            = pred (length ps)) as Hlen
      by (rewrite length_delete; [lia|]; apply lookup_lt_is_Some_2; lia).
    apply Hmk; [|by rewrite Hact]. rewrite Hlen.
    unfold BTNAP. repeat case_decide; lia.
Qed.

(** An invariant of the passes is an invariant of the loop of [main],
    which then raises nothing. *)
Lemma main_loop_inv (I : Main → Prop) :
  (∀ k M, I M → match main_step k M with
                 | MainContinue M' => I M'
                 | MainGame M' => M' = M
                 | MainExit => True
                 | MainCrash _ => False
                 end) →
  ∀ keys M, I M → match main_loop keys M with
                   | MainContinue M' | MainGame M' => I M'
                   | MainExit => True
                   | MainCrash _ => False
                   end.
Proof.
  intros Hstep keys. induction keys as [|k keys IH]; intros M HM; [done|].
  simpl. specialize (Hstep k M HM).
  destruct (main_step k M) as [M1|M1| |]; [by apply IH|by subst|done..].
Qed.

Lemma main_start_inv ps : menu_inv (main_start ps).
Proof. split; simpl; [by left|done]. Qed.

(** The loop of [main] from its start. *)
Lemma main_loop_menu_inv ps keys :
  match main_loop keys (main_start ps) with
  | MainContinue M => menu_inv M
  | MainGame M => menu_inv M ∧ main_players M ≠ []
  | MainExit => True
  | MainCrash _ => False
  end.
Proof.
  generalize (main_start_inv ps). generalize (main_start ps). clear ps.
  induction keys as [|k keys IH]; intros M HM; [done|]. simpl.
  pose proof (main_step_inv k M HM) as Hs.
  destruct (main_step k M) as [M1|M1| |]; try done.
  - by apply IH.
  - by destruct Hs as [-> ?].
Qed.

(** X16.  The menu of [main] raises no exception, whatever keys are pressed: the
    player that is edited or removed exists.  It hands over to the game
    only with a roster that is not empty. *)
Theorem menu_never_raises ps keys :
  match main_loop keys (main_start ps) with
  | MainContinue M => menu_inv M
  | MainGame M => menu_inv M ∧ main_players M ≠ []
  | MainExit => True
  | MainCrash _ => False
  end.
Proof. apply main_loop_menu_inv. Qed.

(** What a pass through the loop of [main] does to the roster: nothing,
    or a player added at the end with an empty sheet, or a new name for
    one player, or one player removed. *)
Lemma main_step_roster k M :
  menu_inv M →
  match main_step k M with
  | MainContinue M' =>
      main_players M' = main_players M
      ∨ (∃ pn, main_players M' = main_players M ++ [mkPlayer pn ∅])
      ∨ (∃ i p pn, main_players M !! i = Some p
                   ∧ main_players M' = <[i := mkPlayer pn (ss p)]>
                                         (main_players M))
      ∨ (∃ i, main_players M' = delete i (main_players M))
  | _ => True
  end.
Proof.
  destruct M as [ps [s t d] npp]. intros [Hsel Hpi]. simpl in Hsel, Hpi.
  unfold main_step. simpl. destruct (active npp) eqn:Hact.
  - destruct (handle_input_roster k npp ps (Hpi eq_refl))
      as (npp' & ps' & -> & Hps). simpl.
    destruct Hps as [(-> & _)|(_ & _ & _ & [[_ ->]|(p & ? & ? & ->)])];
      eauto 10.
  - unfold main_show, show, main_remove, main_with_sel, pop. simpl.
    repeat case_decide; simpl; auto;
      try (destruct (getitem ps _); simpl; by auto).
    all: destruct (decide (0 <= Z.of_nat (length ps) - s - 1
                           < Z.of_nat (length ps))); simpl; eauto 10.
Qed.

(** The sheets of the roster along the loop of [main]. *)
Lemma main_loop_sheets ps keys M :
  main_loop keys (main_start ps) = MainContinue M
  ∨ main_loop keys (main_start ps) = MainGame M →
  Forall (λ p, ss p = ∅ ∨ ss p ∈ ss <$> ps) (main_players M)
  ∧ (Forall (λ p, ss p = ∅) ps → Forall (λ p, ss p = ∅) (main_players M)).
Proof.
  intros Hrun.
  assert (Forall (λ p, ss p = ∅ ∨ ss p ∈ ss <$> ps) (main_players M)) as H.
  { pose proof (main_loop_inv
                  (λ M, menu_inv M
                        ∧ Forall (λ p, ss p = ∅ ∨ ss p ∈ ss <$> ps)
                            (main_players M))) as Hinv.
    specialize (Hinv) with (keys := keys) (M := main_start ps).
    assert (match main_loop keys (main_start ps) with
            | MainContinue M' | MainGame M' =>
                menu_inv M'
                ∧ Forall (λ p, ss p = ∅ ∨ ss p ∈ ss <$> ps) (main_players M')
            | MainExit => True
            | MainCrash _ => False
            end) as Hend.
    { apply Hinv.
      - intros k M1 [HM1 HF].
        pose proof (main_step_inv k M1 HM1) as Hs.
        pose proof (main_step_roster k M1 HM1) as Hr.
        destruct (main_step k M1) as [M2|M2| |]; [|by destruct Hs|done..].
        split; [done|].
        destruct Hr as [->|[(pn & ->)|[(i & p & pn & Hi & ->)|(i & ->)]]].
        + done.
        + apply Forall_app. split; [done|]. repeat constructor.
        + apply Forall_insert; [done|]. simpl.
          rewrite Forall_lookup in HF. by apply (HF i).
        + by apply Forall_delete.
      - split; [apply main_start_inv|]. simpl.
        apply Forall_forall. intros p Hp. right.
        apply list_elem_of_fmap. eauto. }
    destruct Hrun as [Hrun|Hrun]; rewrite Hrun in Hend; by destruct Hend. }
  split; [done|]. intros Hempty. eapply Forall_impl; [exact H|].
  intros p [?|(q & -> & Hq)%list_elem_of_fmap]; [done|].
  rewrite Forall_forall in Hempty. by apply Hempty.
Qed.

(** X17.  The menu leaves the score sheets alone: at every point, and when a
    game is started, each player of the roster has an empty sheet or the
    sheet that a player had when the menu was entered.  Players whose
    sheets were empty then start the game with empty sheets; a player who
    has finished a game keeps the full sheet in the next game. *)
Theorem menu_keeps_sheets ps keys M :
  main_loop keys (main_start ps) = MainContinue M
  ∨ main_loop keys (main_start ps) = MainGame M →
  Forall (λ p, ss p = ∅ ∨ ss p ∈ ss <$> ps) (main_players M)
  ∧ (Forall (λ p, ss p = ∅) ps → Forall (λ p, ss p = ∅) (main_players M)).
Proof. apply main_loop_sheets. Qed.

Lemma menu_keeps_sheets_witness :
  Forall (λ p, ss p = ∅) (main_players (main_start demo_players)).
Proof.
  apply (menu_keeps_sheets demo_players [MKey ctrl_S]
           (main_start demo_players)).
  - right. reflexivity.
  - repeat constructor.
Defined.

Lemma printable_app a b :
  printable (a +:+ b) = printable a && printable b.
Proof.
  induction a as [|c a IH]; [done|].
  rewrite str_app_cons. simpl. by rewrite IH, andb_assoc.
Qed.

Lemma printable_str_init s : printable s = true → printable (str_init s) = true.
Proof.
  induction s as [|c s IH]; [done|]. simpl.
  intros [Hc Hs]%andb_true_iff. destruct s as [|c' s]; [done|].
  simpl in *. rewrite Hc. simpl. by apply IH.
Qed.

Lemma printable_lstrip P s :
  printable s = true → printable (lstrip P s) = true.
Proof.
  induction s as [|c s IH]; [done|]. simpl. intros Hs.
  destruct (P c); [|done]. apply IH.
  by apply andb_true_iff in Hs as [_ ?].
Qed.

Lemma printable_rstrip P s :
  printable s = true → printable (rstrip P s) = true.
Proof.
  induction s as [|c s IH]; [done|]. simpl.
  intros [Hc Hs]%andb_true_iff. specialize (IH Hs).
  destruct (rstrip P s) as [|c' r].
  - destruct (P c); [done|]. simpl. by rewrite Hc.
  - simpl in *. by rewrite Hc.
Qed.

Lemma printable_strip s : printable s = true → printable (strip s) = true.
Proof. intros Hs. by apply printable_rstrip, printable_lstrip. Qed.

Lemma printable_occurs c s :
  printable s = true → isprintable c = false → occurs c s = false.
Proof.
  intros Hs Hc. induction s as [|c' s IH]; [done|]. simpl in *.
  apply andb_true_iff in Hs as [Hc' Hs]. rewrite (IH Hs), orb_false_r.
  apply bool_decide_eq_false. congruence.
Qed.

(** A printable name fits on one line of the history file. *)
Lemma printable_on_one_line s : printable s = true → name_on_one_line s.
Proof.
  intros Hs. repeat split; by apply printable_occurs.
Qed.

(** One pass through the loop of [main] keeps the names and the text of
    the panel printable. *)
Lemma main_step_printable k M :
  menu_inv M →
  Forall (λ p, printable (name p) = true) (main_players M) →
  (active (main_npp M) = true → printable (_text (main_npp M)) = true) →
  match main_step k M with
  | MainContinue M' =>
      Forall (λ p, printable (name p) = true) (main_players M')
      ∧ (active (main_npp M') = true →
         printable (_text (main_npp M')) = true)
  | _ => True
  end.
Proof.
  destruct M as [ps [s t d] npp]. intros [Hsel Hpi] Hps Htext.
  simpl in *. unfold main_step. simpl. destruct (active npp) eqn:Hact.
  - specialize (Htext eq_refl). specialize (Hpi eq_refl).
    pose proof (printable_strip _ Htext) as Hpn.
    unfold handle_input.
    case_decide; [done|]. case_decide.
    + case_decide; [simpl; by rewrite Hact|].
      case_decide; [simpl; by rewrite Hact|].
      unfold renaming. case_bool_decide.
      * destruct (getitem_nonneg ps (_pi npp)) as (p & -> & Hp); [lia|].
        simpl. rewrite setitem_list_in_range by lia. simpl.
        split; [|done]. by apply Forall_insert.
      * simpl. split; [|done]. apply Forall_app. split; [done|].
        by repeat constructor.
    + destruct k as [[c| | | | |]|]; simpl; try (by rewrite Hact).
      * destruct (isprintable c) eqn:Hc; simpl; [|by rewrite Hact].
        split; [done|]. intros _. rewrite printable_app, Htext. simpl.
        by rewrite Hc.
      * split; [done|]. intros _. by apply printable_str_init.
  - unfold main_show, show, main_remove, main_with_sel, pop. simpl.
    repeat case_decide; simpl; try done; try (by rewrite Hact);
      try (destruct (getitem ps _) as [p|] eqn:Hp; simpl; [|done];
           split; [done|]; intros _; apply getitem_elem in Hp;
           rewrite Forall_forall in Hps; by apply Hps);
      try (rewrite Hact; split; [|done]; by apply Forall_delete).
Qed.

(** X18.  Names made in the menu are printable.  When the names of the roster
    are printable as [main] begins, every name is printable at any later
    point of the menu and when a game is started, and therefore holds no
    newline, no carriage return and no separator: the history file takes
    it on one line. *)
Theorem menu_names_printable ps keys M :
  Forall (λ p, printable (name p) = true) ps →
  main_loop keys (main_start ps) = MainContinue M
  ∨ main_loop keys (main_start ps) = MainGame M →
  Forall (λ p, printable (name p) = true ∧ name_on_one_line (name p))
    (main_players M).
Proof.
  intros Hps Hrun.
  pose proof (main_loop_inv
                (λ M, menu_inv M
                      ∧ Forall (λ p, printable (name p) = true)
                          (main_players M)
                      ∧ (active (main_npp M) = true →
                         printable (_text (main_npp M)) = true))) as Hinv.
  specialize (Hinv) with (keys := keys) (M := main_start ps).
  assert (match main_loop keys (main_start ps) with
          | MainContinue M' | MainGame M' =>
              menu_inv M'
              ∧ Forall (λ p, printable (name p) = true) (main_players M')
              ∧ (active (main_npp M') = true →
                 printable (_text (main_npp M')) = true)
          | MainExit => True
          | MainCrash _ => False
          end) as Hend.
  { apply Hinv.
    - intros k M1 (HM1 & HF & HT).
      pose proof (main_step_inv k M1 HM1) as Hs.
      pose proof (main_step_printable k M1 HM1 HF HT) as Hp.
      destruct (main_step k M1) as [M2|M2| |]; [done|by destruct Hs|done..].
    - split; [apply main_start_inv|]. done. }
  assert (Forall (λ p, printable (name p) = true) (main_players M)) as HF
    by (destruct Hrun as [Hrun|Hrun]; rewrite Hrun in Hend;
        by destruct Hend as (_ & ? & _)).
  eapply Forall_impl; [exact HF|]. intros p Hp. split; [done|].
  by apply printable_on_one_line.
Qed.

Lemma menu_names_printable_witness :
  ∃ M, main_loop [MKey ctrl_A; MKey (Ch "Z"); MKey (Ch "o"); MKey (Ch "e");
                  MKey (Ch "010"); MKey ctrl_A] (main_start demo_players)
       = MainContinue M
       ∧ Forall (λ p, printable (name p) = true
                      ∧ name_on_one_line (name p)) (main_players M).
Proof.
  eexists. split; [vm_compute; reflexivity|].
  apply (menu_names_printable demo_players
           [MKey ctrl_A; MKey (Ch "Z"); MKey (Ch "o"); MKey (Ch "e");
            MKey (Ch "010"); MKey ctrl_A]).
  - repeat constructor.
  - left. vm_compute. reflexivity.
Defined.

(** X19.  Adding a player keeps the names of the roster distinct: in a panel
    that [show] opened for a new player, whatever the key, the roster
    stays as it is or gets one player at its end, with an empty sheet and
    a name that is not empty and that no other player has. *)
Theorem add_player_distinct k self ps self' ps' :
  _pi self < 0 → _start_text self = None →
  NoDup (name <$> ps) →
  handle_input k self ps = Ok (self', ps') →
  NoDup (name <$> ps')
  ∧ (ps' = ps
     ∨ ∃ pn, ps' = ps ++ [mkPlayer pn ∅] ∧ pn ≠ EmptyString
             ∧ pn = strip (_text self)).
Proof.
  intros Hpi Hstart Hnd Hin.
  destruct (handle_input_roster k self ps) as (s1 & ps1 & Hin' & Hps); [lia|].
  rewrite Hin in Hin'. injection Hin' as <- <-.
  destruct Hps as [(-> & _)|(_ & Hne & Hfree & Hps)]; [auto|].
  destruct Hps as [[_ ->]|(p & ? & _)]; [|lia].
  rewrite Hstart in Hfree. destruct Hfree as [?|Hfree]; [done|].
  split; [|right; eauto].
  rewrite fmap_app. apply NoDup_app. split_and!; [done| |].
  - intros x Hx [->|[]%elem_of_nil]%elem_of_cons. done.
  - simpl. apply NoDup_singleton.
Qed.

Lemma add_player_distinct_witness :
  NoDup (name <$> demo_players ++ [mkPlayer "Zoe" ∅]).
Proof.
  apply (add_player_distinct (MKey ctrl_A)
           (mkNewPlayerPanel true 0 BTNAP " Zoe " None EmptyString)
           demo_players
           (mkNewPlayerPanel false 0 BTNAP " Zoe " None EmptyString)
           (demo_players ++ [mkPlayer "Zoe" ∅])).
  - reflexivity.
  - reflexivity.
  - apply (bool_decide_unpack _). vm_compute. exact I.
  - vm_compute. reflexivity.
Defined.

(** X20.  Pressing Enter on row [s] of the roster and confirming at once: the
    panel shows the name of the player highlighted, who is number [s]
    from the end of the roster, and the confirmation writes that name to
    the player who is number [s] from the front.  Unless the two are the
    same player, the roster then has that name twice. *)
Theorem rename_writes_front_index ps s t d npp p q :
  active npp = false →
  0 <= s < Z.of_nat (length ps) →
  ps !! Z.to_nat s = Some p →
  ps !! Z.to_nat (Z.of_nat (length ps) - 1 - s) = Some q →
  strip (name q) = name q → name q ≠ EmptyString →
  ∃ M, main_loop [MKey newline; MKey ctrl_A]
         (mkMain ps (mkRenderState s t d) npp) = MainContinue M
       ∧ main_players M = <[Z.to_nat s := mkPlayer (name q) (ss p)]> ps
       ∧ active (main_npp M) = false
       ∧ (Z.of_nat (length ps) - 1 - s ≠ s →
          ¬ NoDup (name <$> main_players M)).
Proof.
  intros Hact Hs Hp Hq Hstrip Hne. simpl. unfold main_step at 1. simpl.
  rewrite Hact.
  rewrite decide_True by (split; [done|right; lia]).
  unfold main_show, show. simpl. rewrite decide_True by lia.
  assert (getitem ps (- s - 1) = Ok q) as ->.
  { unfold getitem. destruct (decide (- s - 1 < 0)); [|lia].
    rewrite decide_True by lia.
    replace (Z.to_nat (- s - 1 + Z.of_nat (length ps)))
      with (Z.to_nat (Z.of_nat (length ps) - 1 - s)) by lia.
    by rewrite Hq. }
  simpl. unfold main_step. simpl. unfold handle_input. simpl.
  rewrite Hstrip. rewrite decide_False by done.
  rewrite decide_False by (intros [? _]; done).
  unfold renaming. simpl. rewrite bool_decide_eq_true_2 by lia.
  destruct (getitem_nonneg ps s Hs) as (p' & -> & Hp').
  assert (p' = p) as -> by congruence. simpl.
  rewrite setitem_list_in_range by done. simpl.
  eexists. split_and!; [done..|]. simpl.
  intros Hmid Hnd. rewrite list_fmap_insert in Hnd. simpl in Hnd.
  assert (Z.to_nat s ≠ Z.to_nat (Z.of_nat (length ps) - 1 - s)) as Hij by lia.
  apply Hij. apply (NoDup_lookup _ _ _ (name q) Hnd).
  - rewrite list_lookup_insert_eq; [done|]. rewrite length_fmap. lia.
  - rewrite list_lookup_insert_ne by done. by rewrite list_lookup_fmap, Hq.
Qed.

Lemma rename_writes_front_index_witness :
  ∃ M, main_loop [MKey newline; MKey ctrl_A]
         (mkMain demo_players (mkRenderState 0 (-1) EmptyString)
            (mkNewPlayerPanel false 0 BTNAP EmptyString None EmptyString))
       = MainContinue M
       ∧ main_players M = [mkPlayer "Bob" ∅; mkPlayer "Bob" ∅].
Proof.
  destruct (rename_writes_front_index demo_players 0 (-1) EmptyString
              (mkNewPlayerPanel false 0 BTNAP EmptyString None EmptyString)
              (mkPlayer "Ann" ∅) (mkPlayer "Bob" ∅))
    as (M & HM & Hps & _); try reflexivity; [simpl; lia|discriminate|].
  exists M. split; [exact HM|exact Hps].
Defined.

(** ** From the menu to the game and back *)

(** X21.  The first game of a session raises no exception: when the players
    have empty sheets as [main] begins, whatever is done in the menu, the
    game that it starts has a roster that is not empty and sheets that are
    empty, and no key makes its loop raise. *)
Theorem first_game_never_crashes ps menu_keys M g keys e :
  Forall (λ p, ss p = ∅) ps →
  main_loop menu_keys (main_start ps) = MainGame M →
  main_players M ≠ []
  ∧ Forall (λ p, ss p = ∅) (main_players M)
  ∧ game_loop keys (game_start (main_players M) (main_rs M) g) ≠ Crash e.
Proof.
  intros Hempty Hmenu.
  pose proof (main_loop_menu_inv ps menu_keys) as Hinv.
  rewrite Hmenu in Hinv. destruct Hinv as [_ Hne].
  destruct (main_loop_sheets ps menu_keys M (or_intror Hmenu)) as [_ Hss].
  specialize (Hss Hempty). split_and!; [done..|]. intros Hrun.
  pose proof (game_loop_round_at keys false _ 0
                (game_start_turn_inv _ (main_rs M) g Hne)
                (game_start_round_at _ (main_rs M) g Hss)
                (game_start_scores_inv _ (main_rs M) g Hss)) as H.
  fold (game_loop keys (game_start (main_players M) (main_rs M) g)) in H.
  simpl in H. by rewrite Hrun in H.
Qed.

Lemma first_game_never_crashes_witness :
  game_loop demo_turn
    (game_start demo_players (mkRenderState BTNAP (-1) EmptyString) demo_rng)
  ≠ Crash IndexError.
Proof.
  apply (first_game_never_crashes demo_players [MKey ctrl_S]
           (main_start demo_players) demo_rng demo_turn IndexError).
  - repeat constructor.
  - reflexivity.
Defined.

(** X22.  Playing again does not work: after a game that began with empty
    sheets has ended, [main] goes on with the roster as the game left it,
    every sheet full, and [^S] starts the next game with it.  That game
    never leaves the first player's turn and cannot end. *)
Theorem play_again_is_blocked ps r g keys G M g' keys' :
  ps ≠ [] → Forall (λ p, ss p = ∅) ps →
  game_loop keys (game_start ps r g) = GameEnd G →
  active (main_npp M) = false →
  main_step (MKey ctrl_S) (main_resume M G) = MainGame (main_resume M G)
  ∧ Forall (λ p, size (ss p) = 15%nat) (main_players (main_resume M G))
  ∧ match game_loop keys'
            (game_start (main_players (main_resume M G))
               (main_rs (main_resume M G)) g') with
    | Continue G' => players G' = players G ∧ cursor G' = 0%nat
    | GameEnd _ => False
    | _ => True
    end.
Proof.
  intros Hps Hempty Hrun Hact.
  destruct (game_loop_GameEnd keys _ G (game_start_turn_inv ps r g Hps)
              (game_start_round_inv ps r g Hempty) Hrun) as [Hfull Hlen].
  assert (length (players (game_start ps r g)) = length ps) as Hl
    by (unfold game_start; by destruct (DiceState_init g)).
  rewrite Hl in Hlen.
  destruct (players G) as [|p0 rest] eqn:HpG;
    [destruct ps; [done|discriminate]|].
  split_and!.
  - unfold main_step, main_resume. simpl. rewrite Hact, HpG. done.
  - simpl. by rewrite HpG.
  - simpl. rewrite HpG.
    pose proof (blocked_game (p0 :: rest) p0
                  (mkRenderState BTNAP (togl (rs G)) (diag (rs G)))
                  g' keys' eq_refl) as Hb.
    rewrite Forall_cons in Hfull. specialize (Hb (proj1 Hfull)).
    destruct (game_loop keys' _) as [G'| | |]; done.
Qed.

Lemma play_again_is_blocked_witness :
  ∃ G, game_loop (demo_keys 30) demo_start = GameEnd G
       ∧ Forall (λ p, size (ss p) = 15%nat)
           (main_players (main_resume (main_start demo_players) G)).
Proof.
  assert (∃ G, game_loop (demo_keys 30) demo_start = GameEnd G) as [G HG]
    by (vm_compute; eexists; reflexivity).
  exists G. split; [exact HG|].
  apply (play_again_is_blocked demo_players
           (mkRenderState BTNAP (-1) EmptyString) demo_rng (demo_keys 30) G
           (main_start demo_players) demo_rng []).
  - discriminate.
  - repeat constructor.
  - exact HG.
  - reflexivity.
Defined.

(** ** The place of the history file *)

(** X23.  On a POSIX system other than macOS, [histhandle] gets as far as a
    path only when [XDG_DATA_HOME] is set: without it the call fails with
    [TypeError], whatever [HOME] is, and [HOME] is used only when
    [XDG_DATA_HOME] is set to the empty string.  A path that is found
    starts with a value of the environment that is not empty and ends in
    [history]. *)
Theorem histhandle_path_posix sys :
  os_dot_name sys = "posix" → sys_platform sys ≠ "darwin" →
  (getenv sys "XDG_DATA_HOME" = None →
   histhandle_path sys = inl TypeError)
  ∧ (∀ path, getenv sys "XDG_DATA_HOME" = Some path → path ≠ EmptyString →
       histhandle_path sys = inr [path; "yahoozy"; "history"])
  ∧ (∀ home, getenv sys "XDG_DATA_HOME" = Some EmptyString →
       getenv sys "HOME" = Some home → home ≠ EmptyString →
       histhandle_path sys
       = inr [home; ".local"; "share"; "yahoozy"; "history"])
  ∧ (∀ p, histhandle_path sys = inr p →
       ∃ key base, getenv sys key = Some base ∧ base ≠ EmptyString
                   ∧ head p = Some base ∧ last p = Some "history").
Proof.
  intros Hos Hplat. unfold histhandle_path, assert_getenv.
  rewrite Hos. rewrite decide_False by done.
  rewrite decide_False by done. rewrite decide_True by done.
  split_and!.
  - by intros ->.
  - intros path -> Hne. by rewrite decide_False.
  - intros home -> -> Hne. rewrite decide_True by done.
    by rewrite decide_False.
  - intros p. destruct (getenv sys "XDG_DATA_HOME") as [path|] eqn:Hx; [|done].
    case_decide as Hp.
    + destruct (getenv sys "HOME") as [home|] eqn:Hh; [|done].
      case_decide; [done|]. intros [= <-]. by exists "HOME", home.
    + intros [= <-]. by exists "XDG_DATA_HOME", path.
Qed.

Lemma histhandle_path_posix_witness :
  histhandle_path (mkSystem "posix" "linux" {["HOME" := "/home/ann"]})
  = inl TypeError.
Proof.
  apply (proj1 (histhandle_path_posix
                  (mkSystem "posix" "linux" {["HOME" := "/home/ann"]})
                  eq_refl ltac:(discriminate))).
  vm_compute. reflexivity.
Defined.

(** ** The shortcuts of the help panel *)

Lemma find_app_char c a b :
  occurs c a = false →
  find c (a +:+ String c b) = Z.of_nat (String.length a).
Proof.
  induction a as [|c' a IH]; simpl.
  - intros _. by rewrite decide_True.
  - intros [Hc Ha]%orb_false_iff. apply bool_decide_eq_false in Hc.
    rewrite decide_False by done. rewrite (IH Ha).
    rewrite decide_False by lia. lia.
Qed.

Lemma find_none c s : occurs c s = false → find c s = -1.
Proof.
  induction s as [|c' s IH]; [done|]. simpl.
  intros [Hc Hs]%orb_false_iff. apply bool_decide_eq_false in Hc.
  rewrite decide_False by done. rewrite (IH Hs). done.
Qed.

Lemma list_ascii_app a b :
  list_ascii_of_string (a +:+ b)
  = list_ascii_of_string a ++ list_ascii_of_string b.
Proof. induction a as [|c a IH]; [done|]. simpl. by rewrite IH. Qed.

Lemma length_list_ascii s :
  length (list_ascii_of_string s) = String.length s.
Proof. induction s as [|c s IH]; [done|]. simpl. by rewrite IH. Qed.

(** X24.  An option [a*cb] whose first asterisk stands in front of the
    character [c] has the key [c], and is drawn as [^c], two blanks and
    the option without its asterisk, [c] underlined.  An option without
    an asterisk has its first character for a key, and an option that
    ends in its first asterisk raises [IndexError]. *)
Theorem help_option a c b :
  occurs "*" a = false →
  _key (a +:+ String "*" (String c b)) = Ok c
  ∧ draw_opt (a +:+ String "*" (String c b))
    = Ok [(String "^" (String c "  ") +:+ a, false);
          (String c EmptyString, true); (b, false)]
  ∧ _key a = getitem (list_ascii_of_string a) 0
  ∧ _key (a +:+ "*") = Raise IndexError.
Proof.
  intros Ha.
  assert (_key (a +:+ String "*" (String c b)) = Ok c) as Hkey.
  { unfold _key. rewrite find_app_char by done.
    rewrite list_ascii_app. simpl.
    match goal with |- getitem ?l ?i = _ =>
      destruct (getitem_nonneg l i) as (x & -> & Hx)
    end.
    { rewrite length_app, length_list_ascii. simpl. lia. }
    rewrite lookup_app_r in Hx by (rewrite length_list_ascii; lia).
    rewrite length_list_ascii in Hx.
    replace (Z.to_nat (Z.of_nat (String.length a) + 1) - String.length a)%nat
      with 1%nat in Hx by lia.
    simpl in Hx. congruence. }
  split_and!; [done| | |].
  - unfold draw_opt. rewrite Hkey. simpl.
    rewrite find_app_char by done. unfold slice_to, slice_from.
    rewrite str_length_app. simpl String.length.
    rewrite !decide_False by lia. rewrite list_ascii_app. simpl.
    rewrite Z.min_l, Z.min_l by lia.
    rewrite take_app_length' by (rewrite length_list_ascii; lia).
    rewrite drop_app_ge by (rewrite length_list_ascii; lia).
    rewrite length_list_ascii.
    replace (Z.to_nat (Z.of_nat (String.length a) + 2) - String.length a)%nat
      with 2%nat by lia.
    simpl. unfold drop. by rewrite !string_of_list_ascii_of_string.
  - unfold _key. by rewrite find_none.
  - unfold _key. change "*"%string with (String "*" EmptyString).
    rewrite find_app_char by done. rewrite list_ascii_app. simpl.
    apply getitem_ge. rewrite length_app, length_list_ascii. simpl. lia.
Qed.

Lemma help_option_witness :
  _key "Mark *All" = Ok "A"%char
  ∧ draw_opt "Mark *All"
    = Ok [("^A  Mark ", false); ("A", true); ("ll", false)].
Proof.
  destruct (help_option "Mark " "A" "ll" eq_refl) as (H1 & H2 & _).
  split; [exact H1|exact H2].
Defined.
